(** * Fused mixture-of-experts kernel of lmdeploy: a shallow embedding

    Source: [lmdeploy/pytorch/kernels/cuda/fused_moe.py].

    Conventions of the embedding.
    - Python and Triton integers are [Z].  Host-side [//] is floor division
      ([Z.div]); [//] and [%] on run-time Triton tensors follow C
      ([Z.quot], [Z.rem]).  Triton's 32-bit index arithmetic is taken below
      its wrap-around, that is for tensors of fewer than 2^31 elements.
    - Tensor elements are exact rationals [Qc]: the development is in exact
      arithmetic, precision casts are the identity, and division by zero
      follows [Qcdiv] (result 0) instead of producing inf or nan.
    - A 2-d tensor is a list of rows, a 3-d tensor a list of 2-d tensors.  A
      pointer [T + i*T.stride(0) + j*T.stride(1)] is the index pair [(i, j)]
      of the view it points into.  A load outside a tensor is undefined
      behaviour on the device; here it yields the stated default.
    - A Triton block tensor is a function from lane coordinates to values;
      its extent is the [tl.constexpr] block size it was built with.
    - [fused_moe_kernel] never reads its destination [C]; one program is
      therefore a function from the read-only operands to the list of element
      stores its [tl.store] performs, and a launch applies the stores of all
      programs of the grid to [C]. *)

From Stdlib Require Import ZArith QArith Qcanon Lia List Sorting.Sorted.
From stdpp Require Import base list numbers.

Local Open Scope Z_scope.

(** ** Tensors and integer-indexed access *)

Abbreviation tensor2 := (list (list Qc)).
Abbreviation tensor3 := (list (list (list Qc))).

Definition zget {T} (l : list T) (i : Z) (d : T) : T :=
  if i <? 0 then d else default d (l !! Z.to_nat i).

Definition zset {T} (l : list T) (i : Z) (v : T) : list T :=
  if i <? 0 then l else <[Z.to_nat i := v]> l.

Definition get2 (A : tensor2) (r c : Z) : Qc := zget (zget A r []) c 0%Qc.

Definition get3 (B : tensor3) (e n k : Z) : Qc := get2 (zget B e []) n k.

Definition set2 (C : tensor2) (r c : Z) (v : Qc) : tensor2 :=
  if (r <? 0) || (c <? 0) then C
  else alter (fun row => <[Z.to_nat c := v]> row) (Z.to_nat r) C.

(** [T.size(0)], and the three entries of a 3-d [T.shape]. *)
Definition size0 {T} (l : list T) : Z := Z.of_nat (length l).
Definition shape3 (B : tensor3) : Z * Z * Z :=
  (size0 B, size0 (zget B 0 []), size0 (zget (zget B 0 []) 0 [])).

(** [T.flatten(0, -2)] of a 3-d tensor and its inverse [unflatten(0, (m, k))]. *)
Definition flatten (T : tensor3) : tensor2 := concat T.
Definition unflatten (m k : Z) (T : tensor2) : tensor3 :=
  map (fun t => take (Z.to_nat k) (drop (t * Z.to_nat k)%nat T)) (seq 0 (Z.to_nat m)).

(** [range(lo, hi)] and [tl.arange(lo, hi)] as the list of their values. *)
Definition arange (lo hi : Z) : list Z :=
  map (fun i => lo + Z.of_nat i) (seq 0 (Z.to_nat (hi - lo))).

(** [range(lo, hi, step)] for a positive step. *)
Definition range_step (lo hi step : Z) : list Z :=
  map (fun i => lo + step * i) (arange 0 ((hi - lo + step - 1) / step)).

Definition sumq (l : list Z) (f : Z -> Qc) : Qc :=
  foldr (fun i acc => (f i + acc)%Qc) 0%Qc l.

Definition sumz (l : list Z) (f : Z -> Z) : Z :=
  foldr (fun i acc => f i + acc) 0 l.

(** ** Triton helpers *)

(** [triton.cdiv] / [tl.cdiv]: [(x + y - 1) // y]. *)
Definition cdiv (x y : Z) : Z := (x + y - 1) / y.

(** [triton.next_power_of_2], the bit-smearing routine of the Triton
    library. *)
Definition next_power_of_2 (n : Z) : Z :=
  let n := n - 1 in
  let n := Z.lor n (Z.shiftr n 1) in
  let n := Z.lor n (Z.shiftr n 2) in
  let n := Z.lor n (Z.shiftr n 4) in
  let n := Z.lor n (Z.shiftr n 8) in
  let n := Z.lor n (Z.shiftr n 16) in
  let n := Z.lor n (Z.shiftr n 32) in
  n + 1.

(** [tl.sum] of an integer block of extent [n]. *)
Definition tl_sum (n : Z) (f : Z -> Z) : Z := sumz (arange 0 n) f.

(** [tl.argmax(x, axis=0)]: the lane of the maximum, the leftmost one on
    ties (Triton's default [tie_break_left=True]). *)
Definition tl_argmax (n : Z) (f : Z -> Z) : Z :=
  fst (foldl (fun best i => if snd best <? f i then (i, f i) else best)
             (0, f 0) (arange 1 n)).

(** [tl.dot(a, b, acc=acc)] on an [m x bk] and a [bk x n] block. *)
Definition tl_dot (bk : Z) (a b acc : Z -> Z -> Qc) : Z -> Z -> Qc :=
  fun i j => (acc i j + sumq (arange 0 bk) (fun kk => a i kk * b kk j))%Qc.

(** One tile configuration of the autotuner. *)
Record Config := {
  BLOCK_SIZE_M : Z;
  BLOCK_SIZE_N : Z;
  BLOCK_SIZE_K : Z;
  GROUP_SIZE_M : Z;
  num_stages : Z;
  num_warps : Z
}.

Definition get_cuda_autotune_config : list Config :=
  [ {| BLOCK_SIZE_M := 128; BLOCK_SIZE_N := 128; BLOCK_SIZE_K := 32;
       GROUP_SIZE_M := 1; num_stages := 4; num_warps := 4 |};
    {| BLOCK_SIZE_M := 64; BLOCK_SIZE_N := 256; BLOCK_SIZE_K := 32;
       GROUP_SIZE_M := 1; num_stages := 4; num_warps := 4 |};
    {| BLOCK_SIZE_M := 64; BLOCK_SIZE_N := 128; BLOCK_SIZE_K := 64;
       GROUP_SIZE_M := 1; num_stages := 4; num_warps := 4 |} ].

(** ** The projection kernel *)

(** An element store issued by [tl.store]: destination row, destination
    column, value. *)
Abbreviation store := (Z * Z * Qc)%type.

Definition apply_store (C : tensor2) (s : store) : tensor2 :=
  let '(r, c, v) := s in set2 C r c v.

Definition apply_stores (ss : list store) (C : tensor2) : tensor2 :=
  foldl apply_store C ss.

(** [tl.store(ptrs, val, mask)] for a [bm x bn] block whose pointer block is
    [rows[:, None], cols[None, :]] and whose mask is [mask[:, None]]. *)
Definition tl_store (bm bn : Z) (rows cols : Z -> Z) (val : Z -> Z -> Qc)
    (mask : Z -> bool) : list store :=
  concat (map (fun i =>
    if mask i then map (fun j => (rows i, cols j, val i j)) (arange 0 bn) else [])
    (arange 0 bm)).

Section Kernel.
(** Operands and [tl.constexpr] parameters of one launch. *)
Variables (A : tensor2) (B : tensor3).
Variables (SortedIdx ExpStart ExpEnd : list Z) (Weights : list Qc).
Variables (N K : Z) (cfg : Config) (M_NP2 : Z).
Variables (ENABLE_WEIGHTS : bool) (top_k expert_offset : Z).
Variables (reindex_a reindex_c : bool).

Let BM := BLOCK_SIZE_M cfg.
Let BN := BLOCK_SIZE_N cfg.
Let BK := BLOCK_SIZE_K cfg.
Let GM := GROUP_SIZE_M cfg.

(** The [(pid_m, pid_n)] tile coordinates of program [pid]. *)
Definition tile_coords (pid : Z) : Z * Z :=
  let num_pid_m := cdiv M_NP2 BM in
  let num_pid_n := cdiv N BN in
  if GM =? 1 then (Z.rem pid num_pid_m, Z.quot pid num_pid_m)
  else
    let num_pid_in_group := GM * num_pid_n in
    let group_id := Z.quot pid num_pid_in_group in
    let first_pid_m := group_id * GM in
    let group_size_m := Z.min (num_pid_m - first_pid_m) GM in
    (first_pid_m + Z.rem pid group_size_m,
     Z.quot (Z.rem pid num_pid_in_group) group_size_m).

(** One step of the loop over [k]: the state is the accumulator together
    with the column offset that [a_ptrs] and [b_ptrs] have advanced by. *)
Definition k_step (offs_am : Z -> Z) (mask_sid : Z -> bool) (offs_bn : Z -> Z)
    (exp_id : Z) (st : (Z -> Z -> Qc) * Z) (k : Z) : (Z -> Z -> Qc) * Z :=
  let '(accumulator, adv) := st in
  let a := fun i kk =>
    if mask_sid i && (kk <? K - k * BK) then get2 A (offs_am i) (kk + adv)
    else 0%Qc in
  let b := fun kk j =>
    if kk <? K - k * BK then get3 B exp_id (offs_bn j) (kk + adv)
    else 0%Qc in
  (tl_dot BK a b accumulator, adv + BK).

Definition fused_moe_kernel (pid exp_id : Z) : list store :=
  let exp_start := zget ExpStart (exp_id + expert_offset) 0 in
  let exp_end := zget ExpEnd (exp_id + expert_offset) 0 in
  let M := exp_end - exp_start in
  if M <=? 0 then [] else
  let '(pid_m, pid_n) := tile_coords pid in
  if (pid_m * BM >=? M) || (pid_n * BN >=? N) then [] else
  let offs_sid := fun i => exp_start + pid_m * BM + i in
  let mask_sid := fun i => offs_sid i <? exp_end in
  let sid := fun i => if mask_sid i then zget SortedIdx (offs_sid i) 0 else 0 in
  let offs_am := fun i => if reindex_a then Z.quot (sid i) top_k else offs_sid i in
  let offs_bn := fun j => Z.rem (pid_n * BN + j) N in
  let accumulator :=
    fst (foldl (k_step offs_am mask_sid offs_bn exp_id)
               (fun _ _ => 0%Qc, 0) (arange 0 (cdiv K BK))) in
  let accumulator :=
    if ENABLE_WEIGHTS then
      let weight := fun i => if mask_sid i then zget Weights (sid i) 0%Qc else 0%Qc in
      fun i j => (accumulator i j * weight i)%Qc
    else accumulator in
  let c := accumulator in
  let offs_cm := fun i => if reindex_c then sid i else offs_sid i in
  tl_store BM BN offs_cm offs_bn c mask_sid.
End Kernel.

(** ** Host side: events, errors and the run monad *)

(** What a call does to the device, in order. *)
Inductive event :=
| EvAlloc (shape : list Z) (zeroed : bool)
| EvStartEnd (num_experts : Z)
| EvFusedMoe (cfg : Config) (enable_weights : bool) (top_k num_tokens expert_offset : Z)
    (reindex_a reindex_c : bool).

(** The allocator rejects a negative dimension; nothing else in
    [fused_moe.py] raises. *)
Inductive error :=
| NegativeDimension (shape : list Z).

Definition Run (T : Type) : Type := list event -> list event * (error + T).

Definition ret {T} (x : T) : Run T := fun tr => (tr, inr x).
Definition bind {T U} (m : Run T) (f : T -> Run U) : Run U :=
  fun tr => match m tr with
            | (tr', inl e) => (tr', inl e)
            | (tr', inr x) => f x tr'
            end.
Definition emit (e : event) : Run unit := fun tr => (tr ++ [e], inr tt).
Definition raise {T} (e : error) : Run T := fun tr => (tr, inl e).
Definition is_alloc (e : event) : bool :=
  match e with EvAlloc _ _ => true | _ => false end.
Definition allocations : Run nat :=
  fun tr => (tr, inr (length (List.filter is_alloc tr))).

Notation "x <- m ;; k" := (bind m (fun x => k))
  (at level 100, m at next level, right associativity).

Definition check_shape (shape : list Z) : Run unit :=
  if forallb (fun d => 0 <=? d) shape then ret tt else raise (NegativeDimension shape).

Section Host.
(** The tensor runtime and the collaborators that are outside this file. *)

(** [Tensor.argsort()] on a 1-d integer tensor.  PyTorch documents a
    permutation of the indices that sorts the values ascending; the order
    among equal values is unspecified unless [stable=True] is passed, which
    the source does not do. *)
Variable argsort : list Z -> list Z.

(** Contents of [torch.empty] / [new_empty] memory: arbitrary, a function
    of how many allocations came before and of the element's position. *)
Variable uninit : nat -> Z -> Z -> Z -> Qc.
Variable uninit_int : nat -> Z -> Z -> Z.

(** Modelled from the spec: [silu_and_mul] of [.activation], which is not
    part of the sources at hand; per the spec an elementwise, stateless
    transform of each row of width [2*ffn_dim] into a row of width
    [ffn_dim].  It is kept abstract as a function on rows. *)
Variable silu_and_mul_row : list Qc -> list Qc.

(** The autotuner's choice among [get_cuda_autotune_config()], keyed by
    [N], [K] and [M_NP2]. *)
Variable autotune : Z -> Z -> Z -> Config.

(** The order in which the device retires the element stores of the
    programs of one launch. *)
Variable schedule : list store -> list store.

Definition silu_and_mul (x : tensor2) : tensor2 := map silu_and_mul_row x.

Definition torch_zeros (shape : Z * Z * Z) : Run tensor3 :=
  let '(a, b, c) := shape in
  _ <- check_shape [a; b; c] ;;
  _ <- emit (EvAlloc [a; b; c] true) ;;
  ret (replicate (Z.to_nat a) (replicate (Z.to_nat b) (replicate (Z.to_nat c) 0%Qc))).

Definition torch_empty (shape : Z * Z * Z) : Run tensor3 :=
  let '(a, b, c) := shape in
  _ <- check_shape [a; b; c] ;;
  n <- allocations ;;
  _ <- emit (EvAlloc [a; b; c] false) ;;
  ret (map (fun i => map (fun j => map (fun k => uninit n i j k) (arange 0 c))
                         (arange 0 b)) (arange 0 a)).

(** [sorted_idx.new_empty(2, num_experts)], returned as its two rows. *)
Definition new_empty2 (num_experts : Z) : Run (list Z * list Z) :=
  _ <- check_shape [2; num_experts] ;;
  n <- allocations ;;
  _ <- emit (EvAlloc [2; num_experts] false) ;;
  ret (map (uninit_int n 0) (arange 0 num_experts),
       map (uninit_int n 1) (arange 0 num_experts)).

(** *** [fused_moe_kernel_launcher] *)

Definition launch_grid (B : tensor3) (cfg : Config) (M_NP2 : Z) : list (Z * Z) :=
  let '(E, N, K) := shape3 B in
  list_prod (arange 0 E)
            (arange 0 (cdiv M_NP2 (BLOCK_SIZE_M cfg) * cdiv N (BLOCK_SIZE_N cfg))).

(** All element stores of one launch, program by program.  [A] is the
    operand after [A.flatten(0, -2)]; [weights] is the contiguous
    [(tokens, top_k)] tensor, addressed flat by the kernel. *)
Definition launch_stores (A : tensor2) (B : tensor3) (sorted_idx exp_start exp_end : list Z)
    (weights : tensor2) (cfg : Config) (M_NP2 : Z) (enable_weights : bool)
    (top_k expert_offset : Z) (reindex_a reindex_c : bool) : list store :=
  let '(E, N, K) := shape3 B in
  concat (map (fun '(exp_id, pid) =>
                 fused_moe_kernel A B sorted_idx exp_start exp_end (concat weights)
                   N K cfg M_NP2 enable_weights top_k expert_offset
                   reindex_a reindex_c pid exp_id)
              (launch_grid B cfg M_NP2)).

Definition fused_moe_kernel_launcher (A : tensor2) (B : tensor3) (C : tensor2)
    (sorted_idx exp_start exp_end : list Z) (weights : tensor2)
    (enable_weights : bool) (top_k : Z) (num_tokens : option Z)
    (expert_offset : Z) (reindex_a reindex_c : bool) : Run tensor2 :=
  let num_tokens := match num_tokens with None => size0 A | Some n => n end in
  let M_NP2 := next_power_of_2 num_tokens in
  let M_NP2 := Z.max 64 M_NP2 in
  let '(E, N, K) := shape3 B in
  let cfg := autotune N K M_NP2 in
  _ <- emit (EvFusedMoe cfg enable_weights top_k num_tokens expert_offset
               reindex_a reindex_c) ;;
  ret (apply_stores
         (schedule (launch_stores A B sorted_idx exp_start exp_end weights cfg M_NP2
                      enable_weights top_k expert_offset reindex_a reindex_c))
         C).

(** *** [_start_end_kernel] and [get_start_end] *)

(** One pass of the scan loop over a block of [BLOCK] sorted positions. *)
Definition start_end_step (TopkIdx SortedIdx : list Z) (len_sorted_idx num_experts BLOCK : Z)
    (exp_id : Z) (st : Z * Z) (sidx_start : Z) : Z * Z :=
  let '(exp_start, cnt) := st in
  let sidx_off := fun i => sidx_start + i in
  let sidx_mask := fun i => sidx_off i <? len_sorted_idx in
  let sidx := fun i => if sidx_mask i then zget SortedIdx (sidx_off i) 0 else 0 in
  let tidx := fun i => if sidx_mask i then zget TopkIdx (sidx i) 0 else num_experts in
  let tidx_mask := fun i => tidx i =? exp_id in
  let cnt := cnt + tl_sum BLOCK (fun i => Z.b2z (tidx_mask i)) in
  let exp_start :=
    if (0 <? cnt) && (exp_start <? 0)
    then sidx_start + tl_argmax BLOCK (fun i => Z.b2z (tidx_mask i))
    else exp_start in
  (exp_start, cnt).

(** The two values program [exp_id] stores: [(exp_start, exp_end)]. *)
Definition _start_end_kernel (TopkIdx SortedIdx : list Z)
    (len_sorted_idx num_experts BLOCK : Z) (exp_id : Z) : Z * Z :=
  let '(exp_start, cnt) :=
    foldl (start_end_step TopkIdx SortedIdx len_sorted_idx num_experts BLOCK exp_id)
          (-1, 0) (range_step 0 len_sorted_idx BLOCK) in
  let exp_start := if exp_start <? 0 then exp_start * 0 else exp_start in
  let exp_end := exp_start + cnt in
  (exp_start, exp_end).

Definition get_start_end (topk_idx sorted_idx : list Z) (num_experts : Z)
    : Run (list Z * list Z) :=
  start_end <- new_empty2 num_experts ;;
  let '(exp_start, exp_end) := start_end in
  let BLOCK := 128 in
  _ <- emit (EvStartEnd num_experts) ;;
  ret (foldl (fun '(es, ee) exp_id =>
                let '(s, e) := _start_end_kernel topk_idx sorted_idx
                                 (size0 sorted_idx) num_experts BLOCK exp_id in
                (zset es exp_id s, zset ee exp_id e))
             (exp_start, exp_end) (arange 0 num_experts)).

Definition _get_sorted_idx (topk_ids : list (list Z)) (num_experts : Z)
    : Run (list Z * list Z * list Z) :=
  let flatten_topk_ids := concat topk_ids in
  let sorted_idx := argsort flatten_topk_ids in
  start_end <- get_start_end flatten_topk_ids sorted_idx num_experts ;;
  let '(exp_start, exp_end) := start_end in
  ret (sorted_idx, exp_start, exp_end).

(** *** [_renormalize], [_make_intermediate], [fused_moe] *)

Definition vsum (row : list Qc) : Qc := foldr Qcplus 0%Qc row.

Definition _renormalize (topk_weights : tensor2) (renormalize : bool) : tensor2 :=
  let topk_weights :=
    if renormalize
    then map (fun row => map (fun w => (w / vsum row)%Qc) row) topk_weights
    else topk_weights in
  topk_weights.

Definition _make_intermediate (shape : Z * Z * Z) (zeros : bool) : Run tensor3 :=
  if zeros then torch_zeros shape else torch_empty shape.

Definition vadd (x y : list Qc) : list Qc := zip_with Qcplus x y.

(** [T.sum(dim=1)] of a [(m, k, width)] tensor. *)
Definition sum_dim1 (width : Z) (T : tensor3) : tensor2 :=
  map (fun rows => foldl vadd (replicate (Z.to_nat width) 0%Qc) rows) T.

Definition fused_moe (hidden_states : tensor2) (w1 w2 : tensor3)
    (topk_weights : tensor2) (topk_ids : list (list Z)) (topk : Z)
    (expert_offset : Z) (num_experts : option Z) (renormalize : bool)
    : Run tensor2 :=
  let M := size0 hidden_states in
  let '(E, N, _) := shape3 w1 in
  let num_experts := match num_experts with None => E | Some n => n end in
  let full_exp := num_experts =? E in
  let topk_weights := _renormalize topk_weights renormalize in
  sorted <- _get_sorted_idx topk_ids num_experts ;;
  let '(sorted_idx, exp_start, exp_end) := sorted in
  intermediate_cache1 <- _make_intermediate (M, topk, N) (negb full_exp) ;;
  (* gate and up *)
  intermediate_cache1 <-
    fused_moe_kernel_launcher hidden_states w1 (flatten intermediate_cache1)
      sorted_idx exp_start exp_end topk_weights
      false topk (Some M) expert_offset true false ;;
  (* activate *)
  let gate_cache := silu_and_mul intermediate_cache1 in
  let gate_cache := unflatten M topk gate_cache in
  intermediate_cache2 <- _make_intermediate (M, topk, snd (fst (shape3 w2))) (negb full_exp) ;;
  (* down *)
  intermediate_cache2 <-
    fused_moe_kernel_launcher (flatten gate_cache) w2 (flatten intermediate_cache2)
      sorted_idx exp_start exp_end topk_weights
      true 1 (Some M) expert_offset false true ;;
  let ret_ := sum_dim1 (snd (fst (shape3 w2))) (unflatten M topk intermediate_cache2) in
  ret ret_.
End Host.

(** ** Concrete collaborators

    Instances of the abstract runtime, used to run the model on concrete
    inputs. *)

(** Insertion of index [i] into an index list kept ascending by key;
    [strict] decides on which side of equal keys [i] lands. *)
Fixpoint insert_idx (strict : bool) (keys : list Z) (i : Z) (l : list Z) : list Z :=
  match l with
  | [] => [i]
  | j :: l' =>
      if (if strict then zget keys i 0 <? zget keys j 0
          else zget keys i 0 <=? zget keys j 0)
      then i :: j :: l'
      else j :: insert_idx strict keys i l'
  end.

(** An argsort that keeps equal keys in index order ... *)
Definition stable_argsort (keys : list Z) : list Z :=
  foldr (insert_idx false keys) [] (arange 0 (size0 keys)).

(** ... and one that reverses them. *)
Definition reversing_argsort (keys : list Z) : list Z :=
  foldr (insert_idx true keys) [] (arange 0 (size0 keys)).

Definition zero_uninit : nat -> Z -> Z -> Z -> Qc := fun _ _ _ _ => 0%Qc.
Definition junk_uninit : nat -> Z -> Z -> Z -> Qc :=
  fun n i j k => Q2Qc (inject_Z (Z.of_nat n + 7 * i + 3 * j + k + 1)).
Definition junk_uninit_int : nat -> Z -> Z -> Z := fun n i j => Z.of_nat n + i - j - 5.

(** A rational stand-in for the gated activation: first half times second
    half, elementwise. *)
Definition gate_mul_row (row : list Qc) : list Qc :=
  let h := (length row / 2)%nat in
  zip_with Qcmult (take h row) (drop h row).

Definition first_config : Z -> Z -> Z -> Config :=
  fun _ _ _ => {| BLOCK_SIZE_M := 128; BLOCK_SIZE_N := 128; BLOCK_SIZE_K := 32;
                  GROUP_SIZE_M := 1; num_stages := 4; num_warps := 4 |}.
Definition second_config : Z -> Z -> Z -> Config :=
  fun _ _ _ => {| BLOCK_SIZE_M := 64; BLOCK_SIZE_N := 256; BLOCK_SIZE_K := 32;
                  GROUP_SIZE_M := 1; num_stages := 4; num_warps := 4 |}.

Definition in_order : list store -> list store := fun l => l.

(** ** The naive reference computation

    Written from the specification's words, independently of the kernel:
    for each token and each of its top-k slots, gather that expert's [w1],
    multiply, activate, multiply by that expert's [w2], scale by the slot's
    gating weight, and sum over the slots. *)
Section Naive.
Variable silu_and_mul_row : list Qc -> list Qc.

Definition dot (x y : list Qc) : Qc := foldr Qcplus 0%Qc (zip_with Qcmult x y).

(** [F.linear(x, W)]: one dot product per output row of [W]. *)
Definition linear (W : tensor2) (x : list Qc) : list Qc := map (dot x) W.

Definition expert_mlp (w1 w2 : tensor3) (e : Z) (x : list Qc) : list Qc :=
  linear (zget w2 e []) (silu_and_mul_row (linear (zget w1 e []) x)).

Definition naive_token (w1 w2 : tensor3) (x : list Qc) (ws : list Qc) (es : list Z)
    : list Qc :=
  foldl (zip_with Qcplus)
        (replicate (length (zget w2 0 [])) 0%Qc)
        (zip_with (fun w e => map (fun v => (v * w)%Qc) (expert_mlp w1 w2 e x)) ws es).

Definition naive_moe (hidden_states : tensor2) (w1 w2 : tensor3)
    (topk_weights : tensor2) (topk_ids : list (list Z)) : tensor2 :=
  zip_with (fun x we => naive_token w1 w2 x (fst we) (snd we))
           hidden_states (zip topk_weights topk_ids).
End Naive.

(** ** Specification vocabulary *)

(** [rect m n C]: [C] has [m] rows of [n] columns. *)
Definition rect (m n : Z) (C : tensor2) : Prop :=
  size0 C = m /\ Forall (fun row => size0 row = n) C.

(** [cube e n k B]: [B] has shape [(e, n, k)]. *)
Definition cube (e n k : Z) (B : tensor3) : Prop :=
  size0 B = e /\ Forall (rect n k) B.

(** The row a projection pass writes for sorted position [p], and the value
    it writes in column [n] for expert [e]: the full-length dot product of
    the operand row with row [n] of the expert's matrix, gated or not. *)
Definition dest_row (SortedIdx : list Z) (reindex_c : bool) (p : Z) : Z :=
  if reindex_c then zget SortedIdx p 0 else p.

Definition src_row (SortedIdx : list Z) (top_k : Z) (reindex_a : bool) (p : Z) : Z :=
  if reindex_a then Z.quot (zget SortedIdx p 0) top_k else p.

Definition proj_value (A : tensor2) (B : tensor3) (SortedIdx : list Z) (Weights : list Qc)
    (K : Z) (enable_weights : bool) (top_k : Z) (reindex_a : bool) (e p n : Z) : Qc :=
  let v := sumq (arange 0 K)
             (fun x => (get2 A (src_row SortedIdx top_k reindex_a p) x * get3 B e n x)%Qc) in
  if enable_weights then (v * zget Weights (zget SortedIdx p 0%Z) 0)%Qc else v.

(** The expert id found at sorted position [p]. *)
Definition sorted_key (TopkIdx SortedIdx : list Z) (p : Z) : Z :=
  zget TopkIdx (zget SortedIdx p 0) 0.

(** How many of the first [n] values of [g] equal [e]. *)
Definition occ (g : Z -> Z) (e n : Z) : Z :=
  sumz (arange 0 n) (fun p => Z.b2z (g p =? e)).

(** How many entries of a list of expert ids equal [e]. *)
Definition count_id (e : Z) (ids : list Z) : Z :=
  sumz ids (fun x => Z.b2z (x =? e)).

(** What PyTorch documents for [argsort]: the result is a permutation of the
    indices, and reading the keys through it gives an ascending sequence. *)
Definition argsort_spec (argsort : list Z -> list Z) : Prop :=
  forall keys,
    argsort keys ≡ₚ arange 0 (size0 keys) /\
    Sorted Z.le (map (fun i => zget keys i 0) (argsort keys)).

(** What the segment table has to provide for the sorted positions
    [[0, L)] whose expert ids are read through [g]. *)
Definition segments (g : Z -> Z) (L num_experts : Z) (exp_start exp_end : list Z) : Prop :=
  size0 exp_start = num_experts /\ size0 exp_end = num_experts /\
  forall e, 0 <= e < num_experts ->
    0 <= zget exp_start e 0 /\
    zget exp_end e 0 = zget exp_start e 0 + occ g e L /\
    zget exp_end e 0 <= L /\
    (occ g e L = 0 -> zget exp_start e 0 = 0) /\
    forall p, 0 <= p < L -> (zget exp_start e 0 <= p < zget exp_end e 0 <-> g p = e).

(** A tile configuration the kernel's ungrouped tile mapping is run with. *)
Definition config_ok (cfg : Config) : Prop :=
  GROUP_SIZE_M cfg = 1 /\ 0 < BLOCK_SIZE_M cfg /\ 0 < BLOCK_SIZE_N cfg /\ 0 < BLOCK_SIZE_K cfg.

(** The autotuner picks one of the listed configurations. *)
Definition autotune_spec (autotune : Z -> Z -> Z -> Config) : Prop :=
  forall n k m, autotune n k m ∈ get_cuda_autotune_config.

(** The device retires every store of a launch, in some order. *)
Definition schedule_spec (schedule : list store -> list store) : Prop :=
  forall ss, schedule ss ≡ₚ ss.

(** A well-formed call: rectangular operands of matching shapes, one expert
    id per token and slot, each naming one of the [E] experts of [w1], the
    [top_k] ids of a token pairwise distinct, and an activation that halves
    rows of the combined gate/up width into rows of the down projection's
    input width. *)
Definition valid_call (silu_and_mul_row : list Qc -> list Qc)
    (hidden_states : tensor2) (w1 w2 : tensor3) (topk_weights : tensor2)
    (topk_ids : list (list Z)) (topk : Z) : Prop :=
  let M := size0 hidden_states in
  let '(E, N, K1) := shape3 w1 in
  let '(_, N2, K2) := shape3 w2 in
  0 <= topk /\
  rect M K1 hidden_states /\
  cube E N K1 w1 /\ cube E N2 K2 w2 /\
  rect M topk topk_weights /\
  size0 topk_ids = M /\ Forall (fun r => size0 r = topk) topk_ids /\
  Forall (Forall (fun e => 0 <= e < E)) topk_ids /\
  Forall NoDup topk_ids /\
  (forall row, size0 row = N -> size0 (silu_and_mul_row row) = K2).

(** A run fails fast when it raises without having touched the device. *)
Definition fails_fast {T} (run : Run T) (tr : list event) : Prop :=
  exists err, run tr = (tr, inl err).

(** ** The reference process of [get_start_end]'s docstring

    [exp_tok_cnt = F.one_hot(flatten_topk_ids, num_classes=E).sum(0)],
    [exp_end = exp_tok_cnt.cumsum(0)], [exp_start = exp_end - exp_tok_cnt]. *)
Definition one_hot (ids : list Z) (num_classes : Z) : list (list Z) :=
  map (fun x => map (fun c => Z.b2z (x =? c)) (arange 0 num_classes)) ids.

Definition sum_dim0 (width : Z) (T : list (list Z)) : list Z :=
  map (fun c => sumz (arange 0 (size0 T)) (fun r => zget (zget T r []) c 0))
      (arange 0 width).

Definition cumsum (l : list Z) : list Z :=
  map (fun i => sumz (arange 0 (i + 1)) (fun j => zget l j 0)) (arange 0 (size0 l)).

Definition docstring_start_end (flatten_topk_ids : list Z) (E : Z) : list Z * list Z :=
  let exp_tok_cnt := sum_dim0 E (one_hot flatten_topk_ids E) in
  let exp_end := cumsum exp_tok_cnt in
  let exp_start := zip_with Z.sub exp_end exp_tok_cnt in
  (exp_start, exp_end).

(** ** The reference computation on a shard of the experts

    With [expert_offset] and a total [num_experts], the weights hold the
    experts [[expert_offset, expert_offset + E)] only.  A slot whose expert
    is resident contributes as in the naive reference, read at the local
    index; any other slot contributes nothing. *)
Section NaiveShard.
Variable silu_and_mul_row : list Qc -> list Qc.

Definition shard_slot (w1 w2 : tensor3) (expert_offset : Z) (x : list Qc)
    (w : Qc) (e : Z) : list Qc :=
  if (0 <=? e - expert_offset) && (e - expert_offset <? size0 w1)
  then map (fun v => (v * w)%Qc)
           (expert_mlp silu_and_mul_row w1 w2 (e - expert_offset) x)
  else replicate (length (zget w2 0 [])) 0%Qc.

Definition shard_token (w1 w2 : tensor3) (expert_offset : Z) (x : list Qc)
    (ws : list Qc) (es : list Z) : list Qc :=
  foldl (zip_with Qcplus)
        (replicate (length (zget w2 0 [])) 0%Qc)
        (zip_with (shard_slot w1 w2 expert_offset x) ws es).

Definition shard_moe (hidden_states : tensor2) (w1 w2 : tensor3) (expert_offset : Z)
    (topk_weights : tensor2) (topk_ids : list (list Z)) : tensor2 :=
  zip_with (fun x we => shard_token w1 w2 expert_offset x (fst we) (snd we))
           hidden_states (zip topk_weights topk_ids).
End NaiveShard.

(** Operands of matching shapes, as in [valid_call], the expert ids being
    any integers. *)
Definition operands_ok (silu_and_mul_row : list Qc -> list Qc)
    (hidden_states : tensor2) (w1 w2 : tensor3) (topk_weights : tensor2)
    (topk_ids : list (list Z)) (topk : Z) : Prop :=
  let M := size0 hidden_states in
  let '(E, N, K1) := shape3 w1 in
  let '(_, N2, K2) := shape3 w2 in
  0 <= topk /\
  rect M K1 hidden_states /\
  cube E N K1 w1 /\ cube E N2 K2 w2 /\
  rect M topk topk_weights /\
  size0 topk_ids = M /\ Forall (fun r => size0 r = topk) topk_ids /\
  Forall NoDup topk_ids /\
  (forall row, size0 row = N -> size0 (silu_and_mul_row row) = K2).

(** A well-formed call on a shard: the resident range lies inside the
    [num_experts] global experts and is not all of them, so that the
    intermediate buffers are zero-filled. *)
Definition valid_shard_call (silu_and_mul_row : list Qc -> list Qc)
    (hidden_states : tensor2) (w1 w2 : tensor3) (topk_weights : tensor2)
    (topk_ids : list (list Z)) (topk expert_offset num_experts : Z) : Prop :=
  operands_ok silu_and_mul_row hidden_states w1 w2 topk_weights topk_ids topk /\
  0 <= expert_offset /\ expert_offset + size0 w1 <= num_experts /\
  num_experts <> size0 w1.

(** ** Bit smearing

    The invariant of [next_power_of_2]'s or-shift steps. *)

(** [smeared x d a]: bit [i] of [a] is set exactly when one of the [d] bits
    of [x] from position [i] upwards is. *)
Definition smeared (x d a : Z) : Prop :=
  forall i, 0 <= i ->
    (Z.testbit a i = true <-> exists j, i <= j < i + d /\ Z.testbit x j = true).

(** A tile configuration with grouped row tiles: the first listed
    configuration with [GROUP_SIZE_M = 3]. *)
Definition grouped_config : Config :=
  {| BLOCK_SIZE_M := 128; BLOCK_SIZE_N := 128; BLOCK_SIZE_K := 32;
     GROUP_SIZE_M := 3; num_stages := 4; num_warps := 4 |}.

(** ** Example operands *)

Definition qz (z : Z) : Qc := Q2Qc (inject_Z z).

(** Four tokens, [top_k = 2], three experts, hidden width 8, combined
    gate/up width 4, output width 8. *)
Definition ex_hidden : tensor2 :=
  map (fun t => map (fun k => qz (t + 2 * k - 5)) (arange 0 8)) (arange 0 4).
Definition ex_w1 : tensor3 :=
  map (fun e => map (fun n => map (fun k => qz (e - n + k - 3)) (arange 0 8)) (arange 0 4))
      (arange 0 3).
Definition ex_w2 : tensor3 :=
  map (fun e => map (fun n => map (fun k => qz (2 * e + n - 3 * k)) (arange 0 2)) (arange 0 8))
      (arange 0 3).
Definition ex_weights : tensor2 :=
  map (map qz) [[1; 2]; [3; 1]; [2; 2]; [1; 5]].
Definition ex_ids : list (list Z) := [[0; 2]; [1; 0]; [2; 1]; [0; 1]].

(** One token with two features against experts that contract over one. *)
Definition wide_hidden : tensor2 := [[qz 3; qz 4]].
Definition narrow_w1 : tensor3 := [[[qz 1]; [qz 2]]].
Definition narrow_w2 : tensor3 := [[[qz 5]]].

(** How many entries of a list of expert ids are below [e]. *)
Definition count_lt (e : Z) (ids : list Z) : Z :=
  sumz ids (fun x => Z.b2z (x <? e)).

(** The example experts split into a shard of one and a shard of two. *)
Definition ex_w1_lo : tensor3 := take 1 ex_w1.
Definition ex_w1_hi : tensor3 := drop 1 ex_w1.
Definition ex_w2_lo : tensor3 := take 1 ex_w2.
Definition ex_w2_hi : tensor3 := drop 1 ex_w2.


(** Expert ids of which two name no expert. *)
Definition ex_stray_ids : list (list Z) := [[0; 5]; [1; 0]; [2; 1]; [-1; 1]].

(** * Properties *)

(** ** Indexing, ranges and sums *)

Lemma zget_nonneg {T} (l : list T) (i : Z) (d : T) :
  0 <= i -> zget l i d = default d (l !! Z.to_nat i).
Proof. intros Hi. unfold zget. destruct (Z.ltb_spec i 0); [lia | done]. Qed.

Lemma zget_of_nat {T} (l : list T) (n : nat) (d : T) :
  zget l (Z.of_nat n) d = default d (l !! n).
Proof. rewrite zget_nonneg by lia. by rewrite Nat2Z.id. Qed.

Lemma zget_lookup {T} (l : list T) (n : nat) (d x : T) :
  l !! n = Some x -> zget l (Z.of_nat n) d = x.
Proof. intros H. by rewrite zget_of_nat, H. Qed.

Lemma zget_map {T U} (f : T -> U) (l : list T) (i : Z) (d : T) :
  0 <= i < size0 l -> zget (map f l) i (f d) = f (zget l i d).
Proof.
  intros Hi. unfold size0 in Hi. rewrite !zget_nonneg by lia.
  rewrite list_lookup_fmap.
  destruct (lookup_lt_is_Some_2 l (Z.to_nat i)) as [x Hx]; [lia |].
  by rewrite Hx.
Qed.

Lemma length_arange lo hi : length (arange lo hi) = Z.to_nat (hi - lo).
Proof. unfold arange. by rewrite length_map, length_seq. Qed.

Lemma elem_of_arange lo hi x : x ∈ arange lo hi <-> lo <= x < hi.
Proof.
  unfold arange. rewrite list_elem_of_fmap. split.
  - intros (i & -> & Hi). apply elem_of_seq in Hi. lia.
  - intros Hx. exists (Z.to_nat (x - lo)). split; [lia |].
    apply elem_of_seq. lia.
Qed.

Lemma lookup_arange lo hi (n : nat) :
  Z.of_nat n < hi - lo -> arange lo hi !! n = Some (lo + Z.of_nat n).
Proof.
  intros Hn. unfold arange. rewrite list_lookup_fmap, lookup_seq_lt by lia. done.
Qed.

Lemma arange_nil lo hi : hi <= lo -> arange lo hi = [].
Proof.
  intros H. unfold arange. replace (Z.to_nat (hi - lo)) with 0%nat by lia. done.
Qed.

Lemma arange_snoc lo hi : lo <= hi -> arange lo (hi + 1) = arange lo hi ++ [hi].
Proof.
  intros H. unfold arange.
  replace (Z.to_nat (hi + 1 - lo)) with (Z.to_nat (hi - lo) + 1)%nat by lia.
  rewrite seq_app, map_app. simpl. do 3 f_equal. lia.
Qed.

Lemma arange_nat_snoc (n : nat) :
  arange 0 (Z.of_nat (S n)) = arange 0 (Z.of_nat n) ++ [Z.of_nat n].
Proof. rewrite <- arange_snoc by lia. f_equal. lia. Qed.

Lemma NoDup_arange lo hi : NoDup (arange lo hi).
Proof.
  unfold arange. apply NoDup_fmap_2; [| apply NoDup_seq].
  intros x y. lia.
Qed.

Lemma sumq_app l1 l2 f : sumq (l1 ++ l2) f = (sumq l1 f + sumq l2 f)%Qc.
Proof.
  unfold sumq. induction l1 as [| x l1 IH]; simpl; [ring |].
  rewrite IH. ring.
Qed.

Lemma sumq_ext l f g : (forall x, x ∈ l -> f x = g x) -> sumq l f = sumq l g.
Proof.
  unfold sumq. induction l as [| x l IH]; intros H; simpl; [done |].
  rewrite H by left. rewrite IH; [done |]. intros y Hy. apply H. by right.
Qed.

Lemma sumq_snoc (n : nat) f :
  sumq (arange 0 (Z.of_nat (S n))) f = (sumq (arange 0 (Z.of_nat n)) f + f (Z.of_nat n))%Qc.
Proof. rewrite arange_nat_snoc, sumq_app. unfold sumq at 2. simpl. ring. Qed.

Lemma sumz_app l1 l2 f : sumz (l1 ++ l2) f = sumz l1 f + sumz l2 f.
Proof. unfold sumz. induction l1 as [| x l1 IH]; simpl; lia. Qed.

Lemma sumz_snoc (n : nat) f :
  sumz (arange 0 (Z.of_nat (S n))) f = sumz (arange 0 (Z.of_nat n)) f + f (Z.of_nat n).
Proof. rewrite arange_nat_snoc, sumz_app. unfold sumz at 2. simpl. lia. Qed.

Lemma cdiv_nonneg x y : 0 <= x -> 0 < y -> 0 <= cdiv x y.
Proof. intros. unfold cdiv. apply Z.div_pos; lia. Qed.

Lemma cdiv_covers x y : 0 < y -> x <= cdiv x y * y.
Proof.
  intros Hy. unfold cdiv.
  pose proof (Z.div_mod (x + y - 1) y ltac:(lia)).
  pose proof (Z.mod_pos_bound (x + y - 1) y Hy). nia.
Qed.

Lemma cdiv_pos x y : 0 < x -> 0 < y -> 0 < cdiv x y.
Proof.
  intros Hx Hy. pose proof (cdiv_covers x y Hy).
  destruct (Z.lt_ge_cases 0 (cdiv x y)); [done | nia].
Qed.

(** ** Stores into a 2-d tensor *)

Lemma rect_row m n C r : rect m n C -> 0 <= r < m -> size0 (zget C r []) = n.
Proof.
  intros [Hm Hall] Hr. unfold size0 in *. rewrite zget_nonneg by lia.
  destruct (lookup_lt_is_Some_2 C (Z.to_nat r)) as [row Hrow]; [lia |].
  rewrite Hrow. simpl. rewrite Forall_lookup in Hall. by apply (Hall _ _ Hrow).
Qed.

Lemma rect_set2 m n C r c v : rect m n C -> rect m n (set2 C r c v).
Proof.
  intros [Hm Hall]. unfold set2. destruct (_ || _); [done |].
  split.
  - unfold size0 in *. by rewrite length_alter.
  - apply Forall_alter; [done |]. intros row Hrow.
    unfold size0 in *. by rewrite length_insert.
Qed.

Lemma get2_set2_eq m n C r c v :
  rect m n C -> 0 <= r < m -> 0 <= c < n -> get2 (set2 C r c v) r c = v.
Proof.
  intros HC Hr Hc. pose proof (rect_row _ _ _ _ HC Hr) as Hrow.
  destruct HC as [Hm _]. unfold size0 in *.
  unfold get2, set2.
  destruct (Z.ltb_spec r 0); [lia |]. destruct (Z.ltb_spec c 0); [lia |]. simpl.
  rewrite !zget_nonneg by lia. rewrite zget_nonneg in Hrow by lia.
  rewrite list_lookup_alter. destruct (decide _); [| done].
  destruct (C !! Z.to_nat r) as [row |] eqn:E; simpl in *.
  - rewrite list_lookup_insert_eq by lia. done.
  - lia.
Qed.

Lemma get2_set2_ne C r c v r' c' :
  (r, c) <> (r', c') -> get2 (set2 C r c v) r' c' = get2 C r' c'.
Proof.
  intros Hne. unfold get2, set2.
  destruct (Z.ltb_spec r 0); [done |]. destruct (Z.ltb_spec c 0); [done |]. simpl.
  unfold zget at 2 4. destruct (Z.ltb_spec r' 0); [done |].
  rewrite list_lookup_alter. destruct (decide _) as [Heq |]; [| done].
  assert (r = r') by lia. subst r'.
  destruct (C !! Z.to_nat r) as [row |]; simpl; [| done].
  unfold zget. destruct (Z.ltb_spec c' 0); [done |].
  rewrite list_lookup_insert_ne; [done |]. intros Hc. apply Hne. f_equal. lia.
Qed.

Lemma apply_stores_app ss1 ss2 C :
  apply_stores (ss1 ++ ss2) C = apply_stores ss2 (apply_stores ss1 C).
Proof. unfold apply_stores. by rewrite foldl_app. Qed.

Lemma rect_apply_stores m n ss C : rect m n C -> rect m n (apply_stores ss C).
Proof.
  revert C. induction ss as [| [[r c] v] ss IH]; intros C HC; [done |].
  simpl. apply IH. by apply rect_set2.
Qed.

(** A cell that some store targets, all of whose stores carry the same
    value, holds that value afterwards, whatever the order of the stores. *)
Lemma apply_stores_get m n ss C r c v :
  rect m n C -> 0 <= r < m -> 0 <= c < n ->
  (forall v', (r, c, v') ∈ ss -> v' = v) ->
  (exists v', (r, c, v') ∈ ss) ->
  get2 (apply_stores ss C) r c = v.
Proof.
  intros HC Hr Hc. induction ss as [| [[r' c'] v'] ss IH] using rev_ind.
  - intros _ [? H]. by apply elem_of_nil in H.
  - intros Hall Hex. rewrite apply_stores_app. simpl.
    destruct (decide ((r', c') = (r, c))) as [Heq | Hne].
    + inversion Heq; subst r' c'.
      rewrite (get2_set2_eq m n) by (auto using rect_apply_stores).
      apply Hall. apply elem_of_app. right. by left.
    + rewrite get2_set2_ne by done. apply IH.
      * intros v0 H0. apply Hall. apply elem_of_app. by left.
      * destruct Hex as [v0 H0]. apply elem_of_app in H0 as [H0 | H0]; [eauto |].
        apply list_elem_of_singleton in H0. congruence.
Qed.

(** A cell no store targets keeps its contents. *)
Lemma apply_stores_frame ss C r c :
  (forall v', (r, c, v') ∉ ss) -> get2 (apply_stores ss C) r c = get2 C r c.
Proof.
  induction ss as [| [[r' c'] v'] ss IH] using rev_ind; intros Hno; [done |].
  rewrite apply_stores_app. simpl.
  rewrite get2_set2_ne.
  - apply IH. intros v0 H0. apply (Hno v0). apply elem_of_app. by left.
  - intros Heq. inversion Heq; subst. apply (Hno v'). apply elem_of_app. right. by left.
Qed.

Lemma elem_of_concat {T} (x : T) (ls : list (list T)) :
  x ∈ concat ls <-> exists l, x ∈ l /\ l ∈ ls.
Proof.
  induction ls as [| l ls IH]; simpl.
  - split; [intros H; by apply elem_of_nil in H |].
    intros (l & _ & H). by apply elem_of_nil in H.
  - rewrite elem_of_app, IH. split.
    + intros [H | (l' & H1 & H2)]; [exists l; split; [done | by left] |].
      exists l'. split; [done | by right].
    + intros (l' & H1 & H2). apply elem_of_cons in H2 as [-> | H2]; [by left |].
      right. eauto.
Qed.

Lemma elem_of_tl_store bm bn rows cols val mask (s : store) :
  s ∈ tl_store bm bn rows cols val mask <->
  exists i j, 0 <= i < bm /\ 0 <= j < bn /\ mask i = true /\
              s = (rows i, cols j, val i j).
Proof.
  unfold tl_store. rewrite elem_of_concat. split.
  - intros (l & Hs & Hl). apply list_elem_of_fmap in Hl as (i & -> & Hi).
    apply elem_of_arange in Hi. destruct (mask i) eqn:Hm.
    + apply list_elem_of_fmap in Hs as (j & -> & Hj). apply elem_of_arange in Hj.
      exists i, j. done.
    + by apply elem_of_nil in Hs.
  - intros (i & j & Hi & Hj & Hm & ->).
    exists (map (fun j => (rows i, cols j, val i j)) (arange 0 bn)). split.
    + apply list_elem_of_fmap. exists j. split; [done |]. by apply elem_of_arange.
    + apply list_elem_of_fmap. exists i. rewrite Hm. split; [done |].
      by apply elem_of_arange.
Qed.

(** ** The loop over [k] computes the full dot product *)

Lemma masked_block_sum (h : Z -> Qc) (K s : Z) (len : nat) :
  0 <= K -> 0 <= s ->
  (sumq (arange 0 (Z.min K s)) h +
   sumq (arange 0 (Z.of_nat len)) (fun kk => if (kk <? K - s)%Z then h (kk + s)%Z else 0))%Qc
  = sumq (arange 0 (Z.min K (s + Z.of_nat len))) h.
Proof.
  intros HK Hs. induction len as [| len IH].
  - rewrite (arange_nil 0 (Z.of_nat 0)) by lia. rewrite Z.add_0_r.
    change (sumq [] _) with 0%Qc. ring.
  - rewrite sumq_snoc. rewrite Qcplus_assoc, IH.
    destruct (Z.ltb_spec (Z.of_nat len) (K - s)).
    + replace (Z.min K (s + Z.of_nat len)) with (Z.of_nat (Z.to_nat (s + Z.of_nat len))) by lia.
      replace (Z.min K (s + Z.of_nat (S len)))
        with (Z.of_nat (S (Z.to_nat (s + Z.of_nat len)))) by lia.
      rewrite sumq_snoc. do 2 f_equal. lia.
    + replace (Z.min K (s + Z.of_nat (S len))) with (Z.min K (s + Z.of_nat len)) by lia.
      ring.
Qed.

Lemma k_loop_acc (A : tensor2) (B : tensor3) (K : Z) (cfg : Config)
    (am : Z -> Z) (mask : Z -> bool) (bn : Z -> Z) (e : Z) (n : nat) :
  0 < BLOCK_SIZE_K cfg -> 0 <= K ->
  let st := foldl (k_step A B K cfg am mask bn e) (fun _ _ => 0%Qc, 0)
                  (arange 0 (Z.of_nat n)) in
  snd st = Z.of_nat n * BLOCK_SIZE_K cfg /\
  forall i j, mask i = true ->
    fst st i j = sumq (arange 0 (Z.min K (Z.of_nat n * BLOCK_SIZE_K cfg)))
                      (fun x => (get2 A (am i) x * get3 B e (bn j) x)%Qc).
Proof.
  intros HBK HK. induction n as [| n IH].
  - simpl. split; [done |]. intros i j _. by rewrite Z.min_r by lia.
  - rewrite arange_nat_snoc, foldl_app. simpl.
    destruct (foldl _ _ _) as [acc adv]. simpl in IH. destruct IH as [-> IH].
    unfold k_step. simpl. split; [lia |].
    intros i j Hi. unfold tl_dot. rewrite (IH i j Hi), Hi. simpl.
    set (h := fun x => (get2 A (am i) x * get3 B e (bn j) x)%Qc).
    pose proof (masked_block_sum h K (Z.of_nat n * BLOCK_SIZE_K cfg)
                  (Z.to_nat (BLOCK_SIZE_K cfg)) HK ltac:(lia)) as Hm.
    rewrite Z2Nat.id in Hm by lia.
    rewrite (sumq_ext (arange 0 (BLOCK_SIZE_K cfg)) _ (fun kk =>
      if kk <? K - Z.of_nat n * BLOCK_SIZE_K cfg
      then h (kk + Z.of_nat n * BLOCK_SIZE_K cfg) else 0%Qc)).
    2:{ intros kk _. unfold h. destruct (_ <? _); [done | ring]. }
    rewrite Hm. f_equal. f_equal. lia.
Qed.

Lemma k_loop_full (A : tensor2) (B : tensor3) (K : Z) (cfg : Config)
    (am : Z -> Z) (mask : Z -> bool) (bn : Z -> Z) (e i j : Z) :
  0 < BLOCK_SIZE_K cfg -> 0 <= K -> mask i = true ->
  fst (foldl (k_step A B K cfg am mask bn e) (fun _ _ => 0%Qc, 0)
             (arange 0 (cdiv K (BLOCK_SIZE_K cfg)))) i j
  = sumq (arange 0 K) (fun x => (get2 A (am i) x * get3 B e (bn j) x)%Qc).
Proof.
  intros HBK HK Hi.
  pose proof (cdiv_nonneg K _ HK HBK). pose proof (cdiv_covers K _ HBK).
  destruct (k_loop_acc A B K cfg am mask bn e (Z.to_nat (cdiv K (BLOCK_SIZE_K cfg))) HBK HK)
    as [_ Hacc].
  rewrite Z2Nat.id in Hacc by lia. rewrite (Hacc i j Hi).
  by rewrite Z.min_l by lia.
Qed.

(** ** The stores of one program *)

Section KernelStores.
Variables (A : tensor2) (B : tensor3).
Variables (SortedIdx ExpStart ExpEnd : list Z) (Weights : list Qc).
Variables (N K : Z) (cfg : Config) (M_NP2 : Z).
Variables (ENABLE_WEIGHTS : bool) (top_k expert_offset : Z).
Variables (reindex_a reindex_c : bool).

Hypothesis HGM : GROUP_SIZE_M cfg = 1.
Hypothesis HBM : 0 < BLOCK_SIZE_M cfg.
Hypothesis HBN : 0 < BLOCK_SIZE_N cfg.
Hypothesis HBK : 0 < BLOCK_SIZE_K cfg.
Hypothesis HK : 0 <= K.
Hypothesis HNP2 : 0 < M_NP2.

Let kernel := fused_moe_kernel A B SortedIdx ExpStart ExpEnd Weights N K cfg M_NP2
                ENABLE_WEIGHTS top_k expert_offset reindex_a reindex_c.
Let value := proj_value A B SortedIdx Weights K ENABLE_WEIGHTS top_k reindex_a.
Let npm := cdiv M_NP2 (BLOCK_SIZE_M cfg).

(** Every store of a program goes to the destination row of a position of
    its expert's segment, inside the tiled row range, and carries the
    projection value of that position and column. *)
Lemma kernel_stores_sound pid e (s : store) :
  0 <= pid -> s ∈ kernel pid e ->
  exists p n,
    zget ExpStart (e + expert_offset) 0 <= p < zget ExpEnd (e + expert_offset) 0 /\
    p < zget ExpStart (e + expert_offset) 0 + npm * BLOCK_SIZE_M cfg /\
    0 <= n < N /\
    s = (dest_row SortedIdx reindex_c p, n, value e p n).
Proof.
  intros Hpid. unfold kernel, fused_moe_kernel.
  set (es := zget ExpStart (e + expert_offset) 0).
  set (ee := zget ExpEnd (e + expert_offset) 0).
  destruct (Z.leb_spec (ee - es) 0); [intros Hnil; by apply elem_of_nil in Hnil |].
  unfold tile_coords. rewrite HGM. simpl. fold npm.
  assert (0 < npm) by (apply cdiv_pos; lia).
  rewrite Z.rem_mod_nonneg, Z.quot_div_nonneg by lia.
  pose proof (Z.mod_pos_bound pid npm ltac:(lia)).
  pose proof (Z.div_pos pid npm ltac:(lia) ltac:(lia)).
  set (pm := pid mod npm) in *. set (pn := pid / npm) in *.
  destruct (Z.geb_spec (pm * BLOCK_SIZE_M cfg) (ee - es));
    [intros Hnil; by apply elem_of_nil in Hnil |].
  destruct (Z.geb_spec (pn * BLOCK_SIZE_N cfg) N);
    [intros Hnil; by apply elem_of_nil in Hnil |]. simpl.
  rewrite elem_of_tl_store. intros (i & j & Hi & Hj & Hm & ->).
  apply Z.ltb_lt in Hm.
  exists (es + pm * BLOCK_SIZE_M cfg + i), (Z.rem (pn * BLOCK_SIZE_N cfg + j) N).
  assert (0 <= pm * BLOCK_SIZE_M cfg) by nia.
  assert (0 <= pn * BLOCK_SIZE_N cfg) by nia.
  split; [lia |]. split; [nia |].
  rewrite Z.rem_mod_nonneg by lia.
  split; [apply Z.mod_pos_bound; lia |].
  unfold dest_row, value, proj_value, src_row.
  apply Z.ltb_lt in Hm. rewrite Hm. f_equal.
  destruct ENABLE_WEIGHTS; cbv beta;
    (rewrite k_loop_full by (done || (cbv beta; exact Hm)));
    cbv beta; rewrite ?Hm, ?Z.rem_mod_nonneg by lia; done.
Qed.

(** Conversely, every position of the segment inside the tiled row range
    is stored, in every column, by the program of its tile. *)
Lemma kernel_stores_complete e p n :
  zget ExpStart (e + expert_offset) 0 <= p < zget ExpEnd (e + expert_offset) 0 ->
  p < zget ExpStart (e + expert_offset) 0 + npm * BLOCK_SIZE_M cfg ->
  0 <= n < N ->
  let pid := n / BLOCK_SIZE_N cfg * npm
             + (p - zget ExpStart (e + expert_offset) 0) / BLOCK_SIZE_M cfg in
  0 <= pid < npm * cdiv N (BLOCK_SIZE_N cfg) /\
  (dest_row SortedIdx reindex_c p, n, value e p n) ∈ kernel pid e.
Proof.
  set (es := zget ExpStart (e + expert_offset) 0).
  set (ee := zget ExpEnd (e + expert_offset) 0).
  intros Hp Hp' Hn pid.
  assert (0 < npm) by (apply cdiv_pos; lia).
  set (BM := BLOCK_SIZE_M cfg) in *. set (BN := BLOCK_SIZE_N cfg) in *.
  pose proof (Z.div_mod (p - es) BM ltac:(lia)) as Hdm.
  pose proof (Z.mod_pos_bound (p - es) BM HBM) as Hmb.
  pose proof (Z.div_mod n BN ltac:(lia)) as Hdn.
  pose proof (Z.mod_pos_bound n BN HBN) as Hnb.
  pose proof (cdiv_covers N BN HBN) as HcN.
  assert (0 <= (p - es) / BM < npm) as Hpm.
  { split; [apply Z.div_pos; lia |]. apply Z.div_lt_upper_bound; lia. }
  assert (0 <= n / BN < cdiv N BN) as Hpn.
  { split; [apply Z.div_pos; lia |]. apply Z.div_lt_upper_bound; nia. }
  assert (pid mod npm = (p - es) / BM) as Hmod.
  { unfold pid. rewrite Z.add_comm, Z_mod_plus_full. apply Z.mod_small. lia. }
  assert (pid / npm = n / BN) as Hdiv.
  { unfold pid. rewrite Z.add_comm, Z_div_plus_full by lia.
    rewrite Z.div_small by lia. lia. }
  split; [unfold pid; nia |].
  unfold kernel, fused_moe_kernel. fold es ee.
  destruct (Z.leb_spec (ee - es) 0); [lia |].
  unfold tile_coords. rewrite HGM. simpl. fold npm BM BN.
  assert (0 <= pid) by (unfold pid; nia).
  rewrite Z.rem_mod_nonneg, Z.quot_div_nonneg by lia.
  change (cdiv M_NP2 BM) with npm. rewrite Hmod, Hdiv.
  destruct (Z.geb_spec ((p - es) / BM * BM) (ee - es)); [nia |].
  destruct (Z.geb_spec (n / BN * BN) N); [nia |]. simpl.
  rewrite elem_of_tl_store. exists ((p - es) mod BM), (n mod BN).
  split; [lia |]. split; [lia |].
  replace (es + (p - es) / BM * BM + (p - es) mod BM) with p by lia.
  replace (n / BN * BN + n mod BN) with n by lia.
  rewrite Z.rem_mod_nonneg, Z.mod_small by lia.
  assert ((p <? ee) = true) as Hm by (apply Z.ltb_lt; lia).
  split; [done |].
  unfold dest_row, value, proj_value, src_row. rewrite Hm. f_equal.
  assert (es + (p - es) / BM * BM + (p - es) mod BM = p) as Hpe by lia.
  assert (Z.rem (n / BN * BN + (n mod BN)) N = n) as Hne
    by (rewrite Z.rem_mod_nonneg, Z.mod_small by lia; lia).
  destruct ENABLE_WEIGHTS; cbv beta;
    (rewrite k_loop_full by (done || (cbv beta; rewrite Hpe; exact Hm)));
    cbv beta; rewrite ?Hpe, ?Hne, ?Hm; done.
Qed.

(** The tile coordinates of the ungrouped mapping. *)
Lemma tile_coords_ungrouped pid :
  0 <= pid ->
  tile_coords N cfg M_NP2 pid = (pid mod npm, pid / npm) /\ 0 <= pid mod npm < npm.
Proof.
  intros Hpid. assert (0 < npm) by (apply cdiv_pos; lia).
  unfold tile_coords. rewrite HGM. simpl. fold npm.
  rewrite Z.rem_mod_nonneg, Z.quot_div_nonneg by lia.
  split; [done |]. apply Z.mod_pos_bound. lia.
Qed.

Lemma tile_coords_onto pm pn :
  0 <= pm < npm -> 0 <= pn < cdiv N (BLOCK_SIZE_N cfg) ->
  0 <= pn * npm + pm < npm * cdiv N (BLOCK_SIZE_N cfg) /\
  tile_coords N cfg M_NP2 (pn * npm + pm) = (pm, pn).
Proof.
  intros Hpm Hpn. assert (0 <= pn * npm + pm) as Hpid by nia.
  split; [nia |]. destruct (tile_coords_ungrouped _ Hpid) as [-> _]. f_equal.
  - rewrite Z.add_comm, Z_mod_plus_full. apply Z.mod_small. lia.
  - rewrite Z.add_comm, Z_div_plus_full by lia. rewrite Z.div_small by lia. lia.
Qed.

(** A store reaches the row of segment position [p] only from the row
    tile that contains [p]. *)
Lemma kernel_stores_row_tile pid e (s : store) :
  0 <= pid -> s ∈ kernel pid e ->
  exists p,
    zget ExpStart (e + expert_offset) 0 <= p < zget ExpEnd (e + expert_offset) 0 /\
    p < zget ExpStart (e + expert_offset) 0 + npm * BLOCK_SIZE_M cfg /\
    fst (fst s) = dest_row SortedIdx reindex_c p /\
    fst (tile_coords N cfg M_NP2 pid)
    = (p - zget ExpStart (e + expert_offset) 0) / BLOCK_SIZE_M cfg.
Proof.
  intros Hpid. destruct (tile_coords_ungrouped pid Hpid) as [Htc Hpm].
  unfold kernel, fused_moe_kernel. rewrite Htc.
  set (es := zget ExpStart (e + expert_offset) 0).
  set (ee := zget ExpEnd (e + expert_offset) 0).
  destruct (Z.leb_spec (ee - es) 0); [intros Hnil; by apply elem_of_nil in Hnil |].
  destruct (_ || _); [intros Hnil; by apply elem_of_nil in Hnil |].
  rewrite elem_of_tl_store. intros (i & j & Hi & Hj & Hm & ->).
  apply Z.ltb_lt in Hm.
  exists (es + pid mod npm * BLOCK_SIZE_M cfg + i).
  assert (0 <= pid mod npm * BLOCK_SIZE_M cfg) by nia.
  split; [lia |]. split; [nia |]. split.
  - simpl. unfold dest_row. apply Z.ltb_lt in Hm. by rewrite Hm.
  - simpl.
    replace (es + pid mod npm * BLOCK_SIZE_M cfg + i - es)
      with (i + pid mod npm * BLOCK_SIZE_M cfg) by lia.
    rewrite Z_div_plus by lia. rewrite Z.div_small by lia. lia.
Qed.
End KernelStores.

(** ** Block reductions of the segment scan *)

Lemma occ_snoc g e (n : nat) :
  occ g e (Z.of_nat (S n)) = occ g e (Z.of_nat n) + Z.b2z (g (Z.of_nat n) =? e).
Proof. unfold occ. by rewrite sumz_snoc. Qed.

Lemma occ_nonneg g e (n : Z) : 0 <= occ g e n.
Proof.
  unfold occ, sumz. induction (arange 0 n) as [| x l IH]; simpl; [lia |].
  destruct (g x =? e); simpl; lia.
Qed.

Lemma occ_zero g e (n : Z) :
  (forall p, 0 <= p < n -> g p <> e) -> occ g e n = 0.
Proof.
  intros H. unfold occ.
  assert (forall x, x ∈ arange 0 n -> g x <> e) as H'
    by (intros x Hx; apply H; by apply elem_of_arange).
  unfold sumz. induction (arange 0 n) as [| x l IH]; simpl; [done |].
  rewrite IH by (intros y Hy; apply H'; by right).
  destruct (Z.eqb_spec (g x) e) as [Heq |]; [| done].
  exfalso. apply (H' x); [by left | done].
Qed.

Lemma occ_pos_witness g e (n : nat) :
  0 < occ g e (Z.of_nat n) -> exists p, 0 <= p < Z.of_nat n /\ g p = e.
Proof.
  induction n as [| n IH].
  - unfold occ. rewrite arange_nil by lia. simpl. lia.
  - rewrite occ_snoc. destruct (Z.eqb_spec (g (Z.of_nat n)) e) as [Heq |]; simpl.
    + intros _. exists (Z.of_nat n). lia.
    + rewrite Z.add_0_r. intros H. destruct (IH H) as (p & Hp & Hg).
      exists p. lia.
Qed.

(** The masked count of one block is the difference of two prefix counts. *)
Lemma masked_block_count (g : Z -> Z) (e other len s : Z) (n : nat) :
  other <> e -> 0 <= s ->
  occ g e (Z.min len s) +
  sumz (arange 0 (Z.of_nat n))
       (fun i => Z.b2z ((if s + i <? len then g (s + i) else other) =? e))
  = occ g e (Z.min len (s + Z.of_nat n)).
Proof.
  intros Hne Hs. induction n as [| n IH].
  - rewrite arange_nil by lia. simpl. by rewrite !Z.add_0_r.
  - rewrite sumz_snoc, Z.add_assoc, IH. cbv beta.
    destruct (Z.ltb_spec (s + Z.of_nat n) len).
    + replace (Z.min len (s + Z.of_nat n)) with (Z.of_nat (Z.to_nat (s + Z.of_nat n))) by lia.
      replace (Z.min len (s + Z.of_nat (S n)))
        with (Z.of_nat (S (Z.to_nat (s + Z.of_nat n)))) by lia.
      rewrite occ_snoc. by rewrite Z2Nat.id by lia.
    + replace (Z.min len (s + Z.of_nat (S n))) with (Z.min len (s + Z.of_nat n)) by lia.
      destruct (Z.eqb_spec other e); [done | simpl; lia].
Qed.

(** [tl.argmax] returns a lane of the maximum, and no earlier lane reaches
    it. *)
Lemma tl_argmax_spec (n : Z) (f : Z -> Z) :
  0 < n ->
  let r := tl_argmax n f in
  0 <= r < n /\ (forall i, 0 <= i < n -> f i <= f r) /\ (forall i, 0 <= i < r -> f i < f r).
Proof.
  intros Hn. unfold tl_argmax.
  assert (forall m : nat,
    let st := foldl (fun best i => if snd best <? f i then (i, f i) else best)
                    (0, f 0) (arange 1 (1 + Z.of_nat m)) in
    snd st = f (fst st) /\ 0 <= fst st < 1 + Z.of_nat m /\
    (forall i, 0 <= i < 1 + Z.of_nat m -> f i <= f (fst st)) /\
    (forall i, 0 <= i < fst st -> f i < f (fst st))) as Hinv.
  { induction m as [| m IH].
    - rewrite arange_nil by lia. simpl. repeat split; try lia.
      intros i Hi. replace i with 0 by lia. lia.
    - replace (1 + Z.of_nat (S m)) with (1 + Z.of_nat m + 1) by lia.
      rewrite arange_snoc, foldl_app by lia. simpl.
      destruct (foldl _ _ _) as [r v]. simpl in IH. destruct IH as (-> & Hr & Hmax & Hlt).
      simpl. destruct (Z.ltb_spec (f r) (f (1 + Z.of_nat m))); simpl.
      + repeat split; try lia.
        * intros i Hi. destruct (decide (i = 1 + Z.of_nat m)) as [-> |]; [lia |].
          specialize (Hmax i). lia.
        * intros i Hi. specialize (Hmax i). lia.
      + repeat split; try lia; [| exact Hlt]. intros i Hi.
        destruct (decide (i = 1 + Z.of_nat m)) as [-> |]; [lia |].
        apply Hmax. lia. }
  specialize (Hinv (Z.to_nat (n - 1))).
  replace (1 + Z.of_nat (Z.to_nat (n - 1))) with n in Hinv by lia.
  simpl in Hinv. destruct Hinv as (_ & ? & ? & ?). done.
Qed.

(** On a 0/1 block with a set lane, [tl.argmax] is the first set lane. *)
Lemma tl_argmax_first (n : Z) (m : Z -> bool) i0 :
  0 <= i0 < n -> m i0 = true ->
  let r := tl_argmax n (fun i => Z.b2z (m i)) in
  0 <= r < n /\ m r = true /\ forall i, 0 <= i < r -> m i = false.
Proof.
  intros Hi0 Hm0.
  destruct (tl_argmax_spec n (fun i => Z.b2z (m i)) ltac:(lia)) as (Hr & Hmax & Hlt).
  simpl. split; [done |].
  specialize (Hmax i0 Hi0). simpl in Hmax. rewrite Hm0 in Hmax.
  assert (m (tl_argmax n (fun i => Z.b2z (m i))) = true) as Hmr.
  { destruct (m (tl_argmax _ _)); [done | simpl in Hmax; lia]. }
  split; [done |]. intros i Hi. specialize (Hlt i Hi). simpl in Hlt.
  rewrite Hmr in Hlt. destruct (m i); [simpl in Hlt; lia | done].
Qed.

(** ** The segment scan: [_start_end_kernel] *)

Lemma sumz_ext l f g : (forall x, x ∈ l -> f x = g x) -> sumz l f = sumz l g.
Proof.
  unfold sumz. induction l as [| x l IH]; intros H; simpl; [done |].
  rewrite H by left. rewrite IH; [done |]. intros y Hy. apply H. by right.
Qed.

Lemma occ_zero_inv g e (n : nat) :
  occ g e (Z.of_nat n) = 0 -> forall p, 0 <= p < Z.of_nat n -> g p <> e.
Proof.
  induction n as [| n IH]; intros H0 p Hp; [lia |].
  rewrite occ_snoc in H0. pose proof (occ_nonneg g e (Z.of_nat n)).
  destruct (Z.eqb_spec (g (Z.of_nat n)) e) as [| Hne]; simpl in H0; [lia |].
  destruct (decide (p = Z.of_nat n)) as [-> |]; [done |].
  apply IH; lia.
Qed.

Lemma occ_mono g e (n m : nat) :
  (n <= m)%nat -> occ g e (Z.of_nat n) <= occ g e (Z.of_nat m).
Proof.
  induction 1 as [| m Hle IH]; [lia |].
  rewrite occ_snoc. destruct (_ =? _); simpl; lia.
Qed.

Lemma sumz_b2z_nonneg l (m : Z -> bool) : 0 <= sumz l (fun i => Z.b2z (m i)).
Proof.
  unfold sumz. induction l as [| x l IH]; simpl; [lia |].
  destruct (m x); simpl; lia.
Qed.

Lemma tl_argmax_ext n f f' : (forall i, f i = f' i) -> tl_argmax n f = tl_argmax n f'.
Proof.
  intros Hext. unfold tl_argmax. rewrite (Hext 0). generalize (0, f' 0).
  induction (arange 1 n) as [| x l IH]; intros st; simpl; [done |].
  by rewrite (Hext x), IH.
Qed.

Section Scan.
Variables (TopkIdx SortedIdx : list Z) (len num_experts BLOCK e : Z).
Hypothesis Hlen : 0 <= len.
Hypothesis HBLOCK : 0 < BLOCK.
Hypothesis He : num_experts <> e.

Let g := sorted_key TopkIdx SortedIdx.
Let step := start_end_step TopkIdx SortedIdx len num_experts BLOCK e.

Lemma scan_invariant (b : nat) :
  let st := foldl step (-1, 0) (map (fun i => 0 + BLOCK * i) (arange 0 (Z.of_nat b))) in
  snd st = occ g e (Z.min len (Z.of_nat b * BLOCK)) /\
  (snd st = 0 -> fst st = -1) /\
  (0 < snd st ->
   0 <= fst st < len /\ g (fst st) = e /\ forall p, 0 <= p < fst st -> g p <> e).
Proof.
  induction b as [| b IH].
  - rewrite arange_nil by lia. simpl. rewrite Z.min_r by lia.
    unfold occ. rewrite arange_nil by lia. simpl. split; [done |]. split; [done | lia].
  - rewrite arange_nat_snoc, map_app, foldl_app. simpl.
    destruct (foldl _ _ _) as [es cnt]. simpl in IH. destruct IH as (Hcnt & Hz & Hpos).
    rewrite Z.add_0_l.
    set (s := BLOCK * Z.of_nat b).
    set (m := fun i => (if s + i <? len then g (s + i) else num_experts) =? e).
    assert (step (es, cnt) s =
            (if (0 <? cnt + sumz (arange 0 BLOCK) (fun i => Z.b2z (m i))) && (es <? 0)
             then s + tl_argmax BLOCK (fun i => Z.b2z (m i)) else es,
             cnt + sumz (arange 0 BLOCK) (fun i => Z.b2z (m i)))) as ->.
    { assert (forall i,
        ((if s + i <? len
          then zget TopkIdx (if s + i <? len then zget SortedIdx (s + i) 0 else 0) 0
          else num_experts) =? e) = m i) as Hm.
      { intros i. unfold m, g, sorted_key. by destruct (s + i <? len). }
      unfold step, start_end_step, tl_sum.
      rewrite (sumz_ext _ _ (fun i => Z.b2z (m i))) by (intros i _; by rewrite Hm).
      rewrite (tl_argmax_ext _ _ (fun i => Z.b2z (m i))) by (intros i; by rewrite Hm).
      done. }
    assert (0 <= s) as Hs0 by (unfold s; nia).
    pose proof (masked_block_count g e num_experts len s (Z.to_nat BLOCK) He Hs0) as Hblk.
    rewrite Z2Nat.id in Hblk by lia. fold m in Hblk.
    replace (Z.min len (Z.of_nat b * BLOCK)) with (Z.min len s) in Hcnt by (unfold s; lia).
    replace (Z.min len (Z.of_nat (S b) * BLOCK)) with (Z.min len (s + BLOCK))
      by (unfold s; lia).
    rewrite <- Hcnt in Hblk.
    set (blk := sumz (arange 0 BLOCK) (fun i => Z.b2z (m i))) in *.
    assert (0 <= blk) as Hblk0 by apply sumz_b2z_nonneg.
    pose proof (occ_nonneg g e (Z.min len s)) as Hcnt0. rewrite <- Hcnt in Hcnt0.
    simpl. split; [done |].
    destruct (Z.ltb_spec 0 (cnt + blk)) as [Hnew | Hnew]; simpl.
    + destruct (Z.ltb_spec es 0) as [Hneg | Hnneg]; simpl.
      * (* first block with a match *)
        assert (cnt = 0) as Hc0.
        { destruct (Z.lt_ge_cases 0 cnt) as [Hc | Hc]; [| lia].
          destruct (Hpos Hc) as (? & _). lia. }
        split; [lia |]. intros _.
        assert (exists i0, 0 <= i0 < BLOCK /\ m i0 = true) as (i0 & Hi0 & Hmi0).
        { assert (0 < occ (fun i => if s + i <? len then g (s + i) else num_experts)
                        e (Z.of_nat (Z.to_nat BLOCK))) as Hocc.
          { rewrite Z2Nat.id by lia. change (0 < blk). lia. }
          apply occ_pos_witness in Hocc as (p & Hp & Hgp).
          exists p. split; [lia |]. unfold m. by apply Z.eqb_eq. }
        destruct (tl_argmax_first BLOCK m i0 Hi0 Hmi0) as (Hr & Hmr & Hfirst).
        set (r := tl_argmax BLOCK (fun i => Z.b2z (m i))) in *.
        assert (s + r < len /\ g (s + r) = e) as [Hin Hgr].
        { unfold m in Hmr. destruct (Z.ltb_spec (s + r) len).
          - split; [done |]. by apply Z.eqb_eq.
          - apply Z.eqb_eq in Hmr. done. }
        split; [lia |]. split; [done |]. intros p Hp.
        destruct (Z.lt_ge_cases p s) as [Hlo | Hhi].
        -- rewrite Hc0 in Hcnt. symmetry in Hcnt.
           replace (Z.min len s) with (Z.of_nat (Z.to_nat (Z.min len s))) in Hcnt by lia.
           apply (occ_zero_inv _ _ _ Hcnt). lia.
        -- specialize (Hfirst (p - s) ltac:(lia)). unfold m in Hfirst.
           replace (s + (p - s)) with p in Hfirst by lia.
           destruct (Z.ltb_spec p len); [| lia]. by apply Z.eqb_neq.
      * split; [intros; lia |]. intros _.
        destruct (Z.lt_ge_cases 0 cnt) as [Hc | Hc]; [by apply Hpos |].
        assert (cnt = 0) as Hc0 by lia. specialize (Hz Hc0). lia.
    + split; [| lia]. intros _. apply Hz. lia.
Qed.

(** What program [e] stores: the segment length is the number of sorted
    positions holding [e]; the start is the first of them, or 0 if there is
    none. *)
Lemma start_end_kernel_spec :
  let se := _start_end_kernel TopkIdx SortedIdx len num_experts BLOCK e in
  snd se = fst se + occ g e len /\
  (occ g e len = 0 -> fst se = 0) /\
  (0 < occ g e len ->
   0 <= fst se < len /\ g (fst se) = e /\ forall p, 0 <= p < fst se -> g p <> e).
Proof.
  unfold _start_end_kernel, range_step.
  pose proof (cdiv_nonneg len BLOCK Hlen HBLOCK) as Hnb.
  pose proof (cdiv_covers len BLOCK HBLOCK) as Hcov. unfold cdiv in Hnb, Hcov.
  replace (len - 0 + BLOCK - 1) with (len + BLOCK - 1) by lia.
  pose proof (scan_invariant (Z.to_nat ((len + BLOCK - 1) / BLOCK))) as Hinv.
  rewrite Z2Nat.id in Hinv by lia. fold step.
  destruct (foldl _ _ _) as [es cnt]. simpl in Hinv. destruct Hinv as (Hcnt & Hz & Hpos).
  rewrite Z.min_l in Hcnt by lia. rewrite <- Hcnt.
  destruct (Z.ltb_spec es 0); simpl.
  - split; [done |]. split; [intros; lia |]. intros Hc. destruct (Hpos Hc). lia.
  - split; [done |]. split.
    + intros Hc. specialize (Hz Hc). lia.
    + done.
Qed.
End Scan.

(** In an ascending sequence the positions holding [e] are exactly
    [[f0, f0 + count)], where [f0] is the first of them. *)
Lemma sorted_run (g : Z -> Z) (len e f0 : Z) :
  (forall p q, 0 <= p <= q -> q < len -> g p <= g q) ->
  0 <= f0 < len -> g f0 = e -> (forall p, 0 <= p < f0 -> g p <> e) ->
  f0 + occ g e len <= len /\
  forall p, 0 <= p < len -> (g p = e <-> f0 <= p < f0 + occ g e len).
Proof.
  intros Hmono Hf0 Hgf0 Hbefore.
  assert (forall d : nat, f0 + Z.of_nat d <= len ->
    let c := occ g e (f0 + Z.of_nat d) in
    c <= Z.of_nat d /\
    (forall p, f0 <= p < f0 + c -> g p = e) /\
    (forall p, f0 + c <= p < f0 + Z.of_nat d -> g p <> e)) as Hinv.
  { induction d as [| d IH]; intros Hd.
    - simpl. rewrite Z.add_0_r.
      rewrite (occ_zero g e f0) by done.
      split; [lia |]. split; intros; lia.
    - specialize (IH ltac:(lia)). simpl in IH. destruct IH as (Hle & Hin & Hout).
      replace (f0 + Z.of_nat (S d)) with (Z.of_nat (S (Z.to_nat (f0 + Z.of_nat d)))) by lia.
      simpl. rewrite occ_snoc. rewrite !Z2Nat.id by lia.
      set (c := occ g e (f0 + Z.of_nat d)) in *.
      pose proof (occ_nonneg g e (f0 + Z.of_nat d)) as Hc0. fold c in Hc0.
      destruct (Z.eqb_spec (g (f0 + Z.of_nat d)) e) as [Heq | Hne]; simpl.
      + assert (c = Z.of_nat d) as Hcd.
        { destruct (Z.lt_ge_cases c (Z.of_nat d)) as [Hlt |]; [| lia].
          exfalso. apply (Hout (f0 + c)); [lia |].
          pose proof (Hmono f0 (f0 + c) ltac:(lia) ltac:(lia)).
          pose proof (Hmono (f0 + c) (f0 + Z.of_nat d) ltac:(lia) ltac:(lia)). lia. }
        split; [lia |]. split.
        * intros p Hp. destruct (decide (p = f0 + Z.of_nat d)) as [-> |]; [done |].
          apply Hin. lia.
        * intros p Hp. lia.
      + rewrite Z.add_0_r. split; [lia |]. split; [done |].
        intros p Hp. destruct (decide (p = f0 + Z.of_nat d)) as [-> |]; [done |].
        apply Hout. lia. }
  specialize (Hinv (Z.to_nat (len - f0)) ltac:(lia)).
  replace (f0 + Z.of_nat (Z.to_nat (len - f0))) with len in Hinv by lia.
  simpl in Hinv. destruct Hinv as (Hle & Hin & Hout).
  split; [lia |]. intros p Hp. split.
  - intros Hgp. destruct (Z.lt_ge_cases p f0) as [Hlo |].
    + by destruct (Hbefore p ltac:(lia)).
    + destruct (Z.lt_ge_cases p (f0 + occ g e len)); [lia |].
      by destruct (Hout p ltac:(lia)).
  - intros Hp'. by apply Hin.
Qed.

(** ** Consequences of the [argsort] contract *)

Lemma StronglySorted_lookup_le (l : list Z) (i j : nat) (x y : Z) :
  StronglySorted Z.le l -> (i <= j)%nat -> l !! i = Some x -> l !! j = Some y -> x <= y.
Proof.
  intros Hs. revert i j. induction Hs as [| a l Hs IH Hall]; intros i j Hij Hi Hj.
  - by rewrite lookup_nil in Hi.
  - destruct i as [| i], j as [| j]; simpl in *; try lia.
    + inversion Hi; inversion Hj; lia.
    + inversion Hi; subst. rewrite Forall_lookup in Hall. by apply (Hall j).
    + apply (IH i j); [lia | done | done].
Qed.

Lemma map_zget_arange {T} (l : list T) (d : T) :
  map (fun p => zget l p d) (arange 0 (size0 l)) = l.
Proof.
  apply list_eq. intros i. rewrite list_lookup_fmap. unfold size0.
  destruct (l !! i) as [x |] eqn:E.
  - rewrite lookup_arange by (apply lookup_lt_Some in E; lia). simpl.
    f_equal. by apply zget_lookup.
  - rewrite (lookup_ge_None_2 (arange _ _)); [done |].
    rewrite length_arange. apply lookup_ge_None_1 in E. lia.
Qed.

Lemma sumz_Permutation l l' f : l ≡ₚ l' -> sumz l f = sumz l' f.
Proof. unfold sumz. induction 1; simpl; lia. Qed.

Lemma sumz_map (h : Z -> Z) l f : sumz (map h l) f = sumz l (fun x => f (h x)).
Proof. unfold sumz. induction l as [| x l IH]; simpl; [done | by rewrite IH]. Qed.

Lemma zget_lt_length {T} (l : list T) (p : Z) (d : T) :
  0 <= p < size0 l -> l !! Z.to_nat p = Some (zget l p d).
Proof.
  intros Hp. unfold size0 in Hp. rewrite zget_nonneg by lia.
  destruct (lookup_lt_is_Some_2 l (Z.to_nat p)) as [x Hx]; [lia |]. by rewrite Hx.
Qed.

Lemma zget_ge_length {T} (l : list T) (p : Z) (d : T) :
  size0 l <= p -> zget l p d = d.
Proof.
  intros Hp. unfold size0 in Hp. unfold zget. destruct (p <? 0); [done |].
  rewrite lookup_ge_None_2; [done | lia].
Qed.

Section Argsort.
Variable argsort : list Z -> list Z.
Hypothesis Hargsort : argsort_spec argsort.
Variable keys : list Z.

Let SI := argsort keys.
Let L := size0 keys.
Let g := sorted_key keys SI.

Lemma argsort_size : size0 SI = L.
Proof.
  destruct (Hargsort keys) as [Hperm _]. unfold size0, SI, L.
  rewrite (Permutation_length Hperm), length_arange. unfold size0. lia.
Qed.

Lemma argsort_range p : 0 <= p < L -> 0 <= zget SI p 0 < L.
Proof.
  intros Hp. destruct (Hargsort keys) as [Hperm _].
  apply elem_of_arange. unfold L. rewrite <- Hperm.
  apply (list_elem_of_lookup_2 _ (Z.to_nat p)). apply zget_lt_length.
  by rewrite argsort_size.
Qed.

Lemma argsort_inj p q :
  0 <= p < L -> 0 <= q < L -> zget SI p 0 = zget SI q 0 -> p = q.
Proof.
  intros Hp Hq Heq. destruct (Hargsort keys) as [Hperm _].
  assert (NoDup SI) as Hnd by (unfold SI; rewrite Hperm; apply NoDup_arange).
  pose proof (zget_lt_length SI p 0 ltac:(by rewrite argsort_size)) as H1.
  pose proof (zget_lt_length SI q 0 ltac:(by rewrite argsort_size)) as H2.
  rewrite Heq in H1. pose proof (NoDup_lookup _ _ _ _ Hnd H1 H2). lia.
Qed.

Lemma argsort_surj q : 0 <= q < L -> exists p, 0 <= p < L /\ zget SI p 0 = q.
Proof.
  intros Hq. destruct (Hargsort keys) as [Hperm _].
  assert (q ∈ SI) as Hin by (unfold SI; rewrite Hperm; by apply elem_of_arange).
  apply list_elem_of_lookup_1 in Hin as [i Hi].
  exists (Z.of_nat i). pose proof (lookup_lt_Some _ _ _ Hi).
  pose proof argsort_size as Hsz. unfold size0 in Hsz.
  split; [lia |]. by apply zget_lookup.
Qed.

Lemma argsort_mono p q : 0 <= p <= q -> q < L -> g p <= g q.
Proof.
  intros Hpq Hq. destruct (Hargsort keys) as [_ Hsorted].
  apply Sorted.Sorted_StronglySorted in Hsorted; [| intros x y z; lia].
  pose proof argsort_size as Hsz.
  apply (StronglySorted_lookup_le _ (Z.to_nat p) (Z.to_nat q) _ _ Hsorted); [lia | |].
  - rewrite list_lookup_fmap. fold SI. by rewrite (zget_lt_length SI p 0) by lia.
  - rewrite list_lookup_fmap. fold SI. by rewrite (zget_lt_length SI q 0) by lia.
Qed.

Lemma argsort_count e : occ g e L = count_id e keys.
Proof.
  destruct (Hargsort keys) as [Hperm _]. unfold occ, count_id.
  transitivity (sumz SI (fun i => Z.b2z (zget keys i 0 =? e))).
  - transitivity (sumz (map (fun p => zget SI p 0) (arange 0 L))
                       (fun i => Z.b2z (zget keys i 0 =? e))); [by rewrite sumz_map |].
    rewrite <- argsort_size. by rewrite map_zget_arange.
  - unfold SI. rewrite (sumz_Permutation _ _ _ Hperm).
    rewrite <- (sumz_map (fun i => zget keys i 0) (arange 0 (size0 keys))
                  (fun x => Z.b2z (x =? e))).
    by rewrite map_zget_arange.
Qed.
End Argsort.

(** ** The segment table *)

Lemma zset_size {T} (l : list T) i v : size0 (zset l i v) = size0 l.
Proof. unfold zset, size0. destruct (i <? 0); [done |]. by rewrite length_insert. Qed.

Lemma zget_zset_eq {T} (l : list T) i v d : 0 <= i < size0 l -> zget (zset l i v) i d = v.
Proof.
  intros Hi. unfold size0 in Hi. unfold zget, zset.
  destruct (Z.ltb_spec i 0); [lia |]. by rewrite list_lookup_insert_eq by lia.
Qed.

Lemma zget_zset_ne {T} (l : list T) i j v d : i <> j -> zget (zset l i v) j d = zget l j d.
Proof.
  intros Hne. unfold zget, zset. destruct (Z.ltb_spec j 0); [done |].
  destruct (Z.ltb_spec i 0); [done |]. rewrite list_lookup_insert_ne; [done | lia].
Qed.

Lemma start_end_table (f : Z -> Z * Z) (n : Z) (es0 ee0 : list Z) :
  size0 es0 = n -> size0 ee0 = n ->
  let tabs := foldl (fun '(es, ee) exp_id =>
                       let '(s, e) := f exp_id in (zset es exp_id s, zset ee exp_id e))
                    (es0, ee0) (arange 0 n) in
  size0 (fst tabs) = n /\ size0 (snd tabs) = n /\
  forall e, 0 <= e < n -> zget (fst tabs) e 0 = fst (f e) /\ zget (snd tabs) e 0 = snd (f e).
Proof.
  intros Hes Hee.
  assert (forall m : nat, Z.of_nat m <= n ->
    let tabs := foldl (fun '(es, ee) exp_id =>
                         let '(s, e) := f exp_id in (zset es exp_id s, zset ee exp_id e))
                      (es0, ee0) (arange 0 (Z.of_nat m)) in
    size0 (fst tabs) = n /\ size0 (snd tabs) = n /\
    forall e, 0 <= e < Z.of_nat m ->
      zget (fst tabs) e 0 = fst (f e) /\ zget (snd tabs) e 0 = snd (f e)) as Hinv.
  { induction m as [| m IH]; intros Hm.
    - rewrite arange_nil by lia. simpl. repeat split; try done; lia.
    - rewrite arange_nat_snoc, foldl_app. simpl.
      specialize (IH ltac:(lia)). destruct (foldl _ _ _) as [es ee]. simpl in IH.
      destruct IH as (Hs1 & Hs2 & IH). destruct (f (Z.of_nat m)) as [s t] eqn:Ef. simpl.
      rewrite !zset_size. split; [done |]. split; [done |].
      intros e He. destruct (decide (e = Z.of_nat m)) as [-> |].
      + rewrite !zget_zset_eq by lia. by rewrite Ef.
      + rewrite !zget_zset_ne by done. apply IH. lia. }
  destruct (Z.le_gt_cases 0 n).
  - specialize (Hinv (Z.to_nat n) ltac:(lia)). rewrite Z2Nat.id in Hinv by lia. done.
  - rewrite arange_nil by lia. simpl. repeat split; try done; lia.
Qed.

(** ** Running the host code *)

Lemma bind_inr {T U} (m : Run T) (f : T -> Run U) tr tr' x :
  m tr = (tr', inr x) -> bind m f tr = f x tr'.
Proof. intros H. unfold bind. by rewrite H. Qed.

Lemma bind_inl {T U} (m : Run T) (f : T -> Run U) tr tr' err :
  m tr = (tr', inl err) -> bind m f tr = (tr', inl err).
Proof. intros H. unfold bind. by rewrite H. Qed.

Lemma check_shape_ok shape tr :
  Forall (fun d => 0 <= d) shape -> check_shape shape tr = (tr, inr tt).
Proof.
  intros H. unfold check_shape.
  replace (forallb _ shape) with true; [done |].
  symmetry. apply forallb_forall. intros d Hd.
  rewrite List.Forall_forall in H. by apply Z.leb_le, H.
Qed.

Lemma check_shape_neg shape tr :
  Exists (fun d => d < 0) shape -> check_shape shape tr = (tr, inl (NegativeDimension shape)).
Proof.
  intros H. unfold check_shape.
  replace (forallb _ shape) with false; [done |].
  symmetry. apply not_true_is_false. intros Hall.
  rewrite forallb_forall in Hall. apply List.Exists_exists in H as (d & Hd & Hneg).
  apply Hall, Z.leb_le in Hd. lia.
Qed.

Section SortedIdxRun.
Variable argsort : list Z -> list Z.
Variable uninit_int : nat -> Z -> Z -> Z.
Hypothesis Hargsort : argsort_spec argsort.

Lemma get_start_end_run (keys sorted_idx : list Z) (ne : Z) tr :
  0 <= ne ->
  exists es ee,
    get_start_end uninit_int keys sorted_idx ne tr
    = (tr ++ [EvAlloc [2; ne] false] ++ [EvStartEnd ne], inr (es, ee)) /\
    size0 es = ne /\ size0 ee = ne /\
    forall e, 0 <= e < ne ->
      (zget es e 0, zget ee e 0)
      = _start_end_kernel keys sorted_idx (size0 sorted_idx) ne 128 e.
Proof.
  intros Hne. unfold get_start_end, new_empty2, bind.
  rewrite check_shape_ok by (repeat constructor; lia).
  unfold allocations, emit, ret. simpl.
  set (f := _start_end_kernel keys sorted_idx (size0 sorted_idx) ne 128).
  set (n := length (List.filter is_alloc tr)).
  pose proof (start_end_table f ne (map (uninit_int n 0) (arange 0 ne))
                (map (uninit_int n 1) (arange 0 ne))) as Htab.
  unfold size0 in Htab at 1 2. rewrite !length_map, !length_arange in Htab.
  specialize (Htab ltac:(lia) ltac:(lia)). simpl in Htab.
  destruct (foldl _ _ _) as [es ee]. simpl in Htab. destruct Htab as (Hs1 & Hs2 & Htab).
  exists es, ee. rewrite <- app_assoc. split; [done |]. split; [done |]. split; [done |].
  intros e He. destruct (Htab e He) as [-> ->]. by destruct (f e).
Qed.

Lemma get_sorted_idx_run (topk_ids : list (list Z)) (ne : Z) tr :
  0 <= ne ->
  let keys := concat topk_ids in
  exists es ee,
    _get_sorted_idx argsort uninit_int topk_ids ne tr
    = (tr ++ [EvAlloc [2; ne] false] ++ [EvStartEnd ne], inr (argsort keys, es, ee)) /\
    segments (sorted_key keys (argsort keys)) (size0 keys) ne es ee.
Proof.
  intros Hne keys. unfold _get_sorted_idx. fold keys.
  destruct (get_start_end_run keys (argsort keys) ne tr Hne)
    as (es & ee & Hrun & Hs1 & Hs2 & Htab).
  exists es, ee. rewrite (bind_inr _ _ _ _ _ Hrun). split; [done |].
  split; [done |]. split; [done |]. intros e He.
  specialize (Htab e He). rewrite (argsort_size argsort Hargsort keys) in Htab.
  set (g := sorted_key keys (argsort keys)). set (L := size0 keys) in *.
  assert (0 <= L) as HL by (unfold L, size0; lia).
  pose proof (start_end_kernel_spec keys (argsort keys) L ne 128 e HL ltac:(lia) ltac:(lia))
    as Hspec.
  rewrite <- Htab in Hspec. simpl in Hspec. fold g in Hspec.
  destruct Hspec as (Hend & Hzero & Hpos).
  pose proof (occ_nonneg g e L) as Hocc.
  destruct (Z.lt_ge_cases 0 (occ g e L)) as [Hc | Hc].
  - destruct (Hpos Hc) as (Hs & Hgs & Hbefore).
    destruct (sorted_run g L e (zget es e 0)
                (argsort_mono argsort Hargsort keys) Hs Hgs Hbefore) as [Hle Hiff].
    split; [lia |]. split; [done |]. split; [lia |]. split; [lia |].
    intros p Hp. rewrite Hend. symmetry. by apply Hiff.
  - assert (occ g e L = 0) as H0 by lia. specialize (Hzero H0).
    split; [lia |]. split; [done |]. split; [lia |]. split; [done |].
    intros p Hp. rewrite Hend, Hzero, H0. split; [lia |].
    intros Hgp. exfalso.
    replace L with (Z.of_nat (Z.to_nat L)) in H0 by lia.
    apply (occ_zero_inv g e _ H0 p); [lia | done].
Qed.
End SortedIdxRun.

(** ** One launch of the projection kernel *)

Lemma zget_outside {T} (l : list T) (i : Z) (d : T) :
  ~ (0 <= i < size0 l) -> zget l i d = d.
Proof.
  intros H. destruct (Z.lt_ge_cases i 0).
  - unfold zget. destruct (Z.ltb_spec i 0); [done | lia].
  - apply zget_ge_length. lia.
Qed.

Lemma autotune_config_ok autotune n k m :
  autotune_spec autotune -> config_ok (autotune n k m).
Proof.
  intros H. specialize (H n k m). unfold get_cuda_autotune_config in H.
  repeat (apply elem_of_cons in H as [-> | H]; [by repeat split |]).
  by apply elem_of_nil in H.
Qed.

Section Launch.
Variables (A : tensor2) (B : tensor3) (C : tensor2).
Variables (SI es ee : list Z) (weights : tensor2).
Variables (cfg : Config) (M_NP2 : Z) (enable_weights : bool).
Variables (top_k off : Z) (reindex_a reindex_c : bool).
Variables (E N K : Z) (g : Z -> Z) (L ne : Z).
Variable schedule : list store -> list store.

Hypothesis Hshape : shape3 B = (E, N, K).
Hypothesis Hcfg : config_ok cfg.
Hypothesis HNP2 : 0 < M_NP2.
Hypothesis Hseg : segments g L ne es ee.
Hypothesis Hsched : schedule_spec schedule.
Hypothesis HC : rect L N C.
Hypothesis Hdest_range : forall p, 0 <= p < L -> 0 <= dest_row SI reindex_c p < L.
Hypothesis Hdest_inj : forall p q, 0 <= p < L -> 0 <= q < L ->
  dest_row SI reindex_c p = dest_row SI reindex_c q -> p = q.
(** No local expert owns more positions than the tiled row range. *)
Hypothesis Hfit : forall e, 0 <= e < E -> 0 <= e + off < ne -> occ g (e + off) L <= M_NP2.

Let stores := launch_stores A B SI es ee weights cfg M_NP2 enable_weights top_k off
                reindex_a reindex_c.
Let value := proj_value A B SI (concat weights) K enable_weights top_k reindex_a.
Let npm := cdiv M_NP2 (BLOCK_SIZE_M cfg).

Lemma K_nonneg : 0 <= K.
Proof. unfold shape3 in Hshape. inversion Hshape. unfold size0. lia. Qed.

Lemma elem_of_launch_stores (s : store) :
  s ∈ stores <->
  exists e pid, 0 <= e < E /\
    0 <= pid < npm * cdiv N (BLOCK_SIZE_N cfg) /\
    s ∈ fused_moe_kernel A B SI es ee (concat weights) N K cfg M_NP2 enable_weights
          top_k off reindex_a reindex_c pid e.
Proof.
  unfold stores, launch_stores, launch_grid. rewrite Hshape.
  rewrite elem_of_concat. split.
  - intros (l & Hs & Hl). apply list_elem_of_fmap in Hl as ([e pid] & -> & Hin).
    apply list_elem_of_In, in_prod_iff in Hin as [He Hpid].
    apply list_elem_of_In, elem_of_arange in He.
    apply list_elem_of_In, elem_of_arange in Hpid.
    exists e, pid. done.
  - intros (e & pid & He & Hpid & Hs). eexists. split; [exact Hs |].
    apply list_elem_of_fmap. exists (e, pid). split; [done |].
    apply list_elem_of_In, in_prod_iff.
    split; apply list_elem_of_In, elem_of_arange; done.
Qed.

(** A local expert whose table entry is missing has an empty segment. *)
Lemma segment_bounds e p :
  zget es (e + off) 0 <= p < zget ee (e + off) 0 ->
  0 <= e + off < ne /\ 0 <= p < L /\ g p = e + off.
Proof.
  intros Hp. destruct Hseg as (Hs1 & Hs2 & Htab).
  destruct (decide (0 <= e + off < ne)) as [Hin | Hout].
  - destruct (Htab _ Hin) as (H0 & Hend & HL & _ & Hiff).
    split; [done |]. assert (0 <= p < L) as HpL by lia.
    split; [done |]. by apply Hiff.
  - rewrite !zget_outside in Hp by (rewrite ?Hs1, ?Hs2; done). lia.
Qed.

Lemma launch_sound (s : store) :
  s ∈ stores ->
  exists e p n, 0 <= e < E /\ 0 <= p < L /\ g p = e + off /\ 0 <= n < N /\
                s = (dest_row SI reindex_c p, n, value e p n).
Proof.
  intros Hs. apply elem_of_launch_stores in Hs as (e & pid & He & Hpid & Hs).
  destruct Hcfg as (HGM & HBM & HBN & HBK).
  apply (kernel_stores_sound _ _ _ _ _ _ _ _ _ _ _ _ _ _ _ HGM HBM HBN HBK K_nonneg HNP2)
    in Hs as (p & n & Hp & _ & Hn & ->); [| lia].
  destruct (segment_bounds e p Hp) as (_ & HpL & Hg).
  exists e, p, n. done.
Qed.

Lemma launch_complete p n :
  0 <= p < L -> 0 <= g p < ne -> 0 <= g p - off < E -> 0 <= n < N ->
  (dest_row SI reindex_c p, n, value (g p - off) p n) ∈ stores.
Proof.
  intros Hp Hgp He Hn. destruct Hcfg as (HGM & HBM & HBN & HBK).
  destruct Hseg as (Hs1 & Hs2 & Htab).
  destruct (Htab _ Hgp) as (H0 & Hend & HL & _ & Hiff).
  pose proof (proj2 (Hiff p Hp) eq_refl) as Hin.
  pose proof (Hfit (g p - off) He ltac:(by replace (g p - off + off) with (g p) by lia))
    as Hocc.
  replace (g p - off + off) with (g p) in Hocc by lia.
  pose proof (cdiv_covers M_NP2 _ HBM) as Hcov. fold npm in Hcov.
  apply elem_of_launch_stores.
  assert (g p - off + off = g p) as Hgo by lia.
  edestruct (kernel_stores_complete A B SI es ee (concat weights) N K cfg M_NP2
               enable_weights top_k off reindex_a reindex_c HGM HBM HBN HBK K_nonneg HNP2
               (g p - off) p n) as [Hpid Hstore].
  { rewrite Hgo. done. }
  { rewrite Hgo. fold npm. lia. }
  { done. }
  eexists _, _. split; [exact He |]. split; [exact Hpid | exact Hstore].
Qed.

Let launched : tensor2 := apply_stores (schedule stores) C.

Lemma launched_rect : rect L N launched.
Proof. by apply rect_apply_stores. Qed.

(** Every row of a resident expert's segment receives its projection. *)
Lemma launched_cell p n :
  0 <= p < L -> 0 <= g p < ne -> 0 <= g p - off < E -> 0 <= n < N ->
  get2 launched (dest_row SI reindex_c p) n = value (g p - off) p n.
Proof.
  intros Hp Hgp He Hn. unfold launched.
  apply (apply_stores_get L N); [done | by apply Hdest_range | done | |].
  - intros v' Hv'. rewrite (Hsched stores) in Hv'.
    apply launch_sound in Hv' as (e' & p' & n' & He' & Hp' & Hg' & Hn' & Heq).
    inversion Heq as [[Hrow Hcol Hval]].
    apply Hdest_inj in Hrow; [| done | done]. subst p' n'.
    by replace e' with (g p - off) by lia.
  - eexists. rewrite (Hsched stores). by apply launch_complete.
Qed.

(** The rows of experts that are not resident are left alone. *)
Lemma launched_frame p n :
  0 <= p < L -> ~ (0 <= g p - off < E) ->
  get2 launched (dest_row SI reindex_c p) n = get2 C (dest_row SI reindex_c p) n.
Proof.
  intros Hp He. unfold launched. apply apply_stores_frame.
  intros v' Hv'. rewrite (Hsched stores) in Hv'.
  apply launch_sound in Hv' as (e' & p' & n' & He' & Hp' & Hg' & Hn' & Heq).
  inversion Heq as [[Hrow Hcol Hval]].
  apply Hdest_inj in Hrow; [| done | done]. subst p'. lia.
Qed.
End Launch.

(** ** Shapes, flat views and the reference's building blocks *)

Lemma lor_lower a b : 0 <= a -> 0 <= b -> a <= Z.lor a b.
Proof.
  intros Ha Hb. pose proof (Z.add_lor_land a b).
  assert (forall a' b' : N, Z.land (Z.of_N a') (Z.of_N b') <= Z.of_N b') as Hland.
  { intros a' b'. rewrite <- N2Z.inj_land. apply N2Z.inj_le, N.land_le_r. }
  specialize (Hland (Z.to_N a) (Z.to_N b)). rewrite !Z2N.id in Hland by lia.
  lia.
Qed.

(** [next_power_of_2] does not shrink a token count. *)
Lemma next_power_of_2_ge n : 0 <= n -> n <= next_power_of_2 n.
Proof.
  intros Hn. destruct (decide (n = 0)) as [-> | Hne]; [done |].
  unfold next_power_of_2.
  assert (forall a k, 0 <= a -> a <= Z.lor a (Z.shiftr a k)) as Hstep.
  { intros a k Ha. apply lor_lower; [done |]. by apply Z.shiftr_nonneg. }
  set (x0 := n - 1). assert (0 <= x0) as H0 by (unfold x0; lia).
  set (x1 := Z.lor x0 (Z.shiftr x0 1)). pose proof (Hstep x0 1 H0) as H1. fold x1 in H1.
  set (x2 := Z.lor x1 (Z.shiftr x1 2)). pose proof (Hstep x1 2 ltac:(lia)) as H2. fold x2 in H2.
  set (x3 := Z.lor x2 (Z.shiftr x2 4)). pose proof (Hstep x2 4 ltac:(lia)) as H3. fold x3 in H3.
  set (x4 := Z.lor x3 (Z.shiftr x3 8)). pose proof (Hstep x3 8 ltac:(lia)) as H4. fold x4 in H4.
  set (x5 := Z.lor x4 (Z.shiftr x4 16)). pose proof (Hstep x4 16 ltac:(lia)) as H5. fold x5 in H5.
  pose proof (Hstep x5 32 ltac:(lia)) as H6.
  unfold x0 in *. lia.
Qed.

Lemma count_id_nonneg e l : 0 <= count_id e l.
Proof. apply sumz_b2z_nonneg. Qed.

Lemma count_id_absent e l : e ∉ l -> count_id e l = 0.
Proof.
  unfold count_id, sumz. induction l as [| x l IH]; intros H; simpl; [done |].
  apply not_elem_of_cons in H as [Hne Hl]. rewrite (IH Hl).
  destruct (Z.eqb_spec x e); [congruence | done].
Qed.

Lemma count_id_NoDup e l : NoDup l -> count_id e l <= 1.
Proof.
  induction 1 as [| x l Hx Hnd IH]; [done |].
  change (count_id e (x :: l)) with (Z.b2z (x =? e) + count_id e l).
  destruct (Z.eqb_spec x e) as [-> |]; simpl; [| lia].
  rewrite count_id_absent by done. lia.
Qed.

(** With distinct expert ids per token, no expert is assigned more slots
    than there are tokens. *)
Lemma count_id_distinct_rows e (rows : list (list Z)) :
  Forall NoDup rows -> count_id e (concat rows) <= size0 rows.
Proof.
  unfold size0. induction 1 as [| r rows Hr Hrows IH]; [done |].
  simpl. unfold count_id in *. rewrite sumz_app.
  pose proof (count_id_NoDup e r Hr). unfold count_id in *. lia.
Qed.

Lemma lookup_concat_rect {T} (k : nat) (rows : list (list T)) (t s : nat) :
  Forall (fun r => length r = k) rows -> (s < k)%nat ->
  concat rows !! (t * k + s)%nat = rows !! t ≫= fun r => r !! s.
Proof.
  intros Hall Hs. revert t. induction Hall as [| r rows Hr Hrows IH]; intros t.
  - by rewrite !lookup_nil.
  - simpl. destruct t as [| t]; simpl.
    + rewrite lookup_app_l by lia. done.
    + rewrite lookup_app_r by lia. rewrite <- IH. f_equal. lia.
Qed.

Lemma size0_concat_rect {T} (k : Z) (rows : list (list T)) :
  Forall (fun r => size0 r = k) rows -> size0 (concat rows) = size0 rows * k.
Proof.
  unfold size0. induction 1 as [| r rows Hr Hrows IH]; simpl; [done |].
  rewrite length_app. lia.
Qed.

(** Flat addressing of a contiguous 2-d tensor. *)
Lemma zget_concat {T} (k : Z) (rows : list (list T)) (t s : Z) (d : T) :
  Forall (fun r => size0 r = k) rows -> 0 <= t < size0 rows -> 0 <= s < k ->
  zget (concat rows) (t * k + s) d = zget (zget rows t []) s d.
Proof.
  intros Hall Ht Hs. unfold size0 in *.
  rewrite !zget_nonneg by nia.
  replace (Z.to_nat (t * k + s)) with (Z.to_nat t * Z.to_nat k + Z.to_nat s)%nat by nia.
  rewrite (lookup_concat_rect (Z.to_nat k)); [| | lia].
  - destruct (rows !! Z.to_nat t); done.
  - eapply List.Forall_impl; [| exact Hall]. intros r Hr. simpl in Hr. lia.
Qed.

Lemma rect_flatten (m k n : Z) (T : tensor3) :
  cube m k n T -> rect (m * k) n (flatten T).
Proof.
  intros [Hm Hall]. unfold flatten. split.
  - rewrite (size0_concat_rect k); [by rewrite Hm |].
    eapply List.Forall_impl; [| exact Hall]. by intros r [Hr _].
  - clear Hm. induction Hall as [| r T [_ Hr] _ IH]; simpl; [done |].
    by apply Forall_app.
Qed.

Lemma flatten_unflatten (m k : Z) (T : tensor2) :
  0 <= m -> 0 <= k -> size0 T = m * k -> flatten (unflatten m k T) = T.
Proof.
  intros Hm Hk Hsz. unfold flatten, unflatten.
  assert (forall j : nat,
    concat (map (fun t => take (Z.to_nat k) (drop (t * Z.to_nat k)%nat T)) (seq 0 j))
    = take (j * Z.to_nat k)%nat T) as Hpre.
  { induction j as [| j IH]; [done |].
    rewrite seq_S, map_app, concat_app, IH. simpl. rewrite app_nil_r.
    rewrite take_take_drop. f_equal. lia. }
  rewrite Hpre. apply take_ge. unfold size0 in Hsz. nia.
Qed.

Lemma unflatten_lookup (m k : Z) (T : tensor2) (t : nat) :
  Z.of_nat t < m ->
  unflatten m k T !! t = Some (take (Z.to_nat k) (drop (t * Z.to_nat k)%nat T)).
Proof.
  intros Ht. unfold unflatten. rewrite list_lookup_fmap, lookup_seq_lt by lia. done.
Qed.

Lemma size0_unflatten m k T : 0 <= m -> size0 (unflatten m k T) = m.
Proof. intros Hm. unfold size0, unflatten. rewrite length_map, length_seq. lia. Qed.

(** A row is determined by its cells. *)
Lemma row_ext (L N : Z) (C : tensor2) (p : Z) (F : Z -> Qc) :
  rect L N C -> 0 <= p < L ->
  (forall n, 0 <= n < N -> get2 C p n = F n) ->
  zget C p [] = map F (arange 0 N).
Proof.
  intros HC Hp Hcells. pose proof (rect_row _ _ _ _ HC Hp) as Hlen.
  unfold get2 in Hcells. set (row := zget C p []) in *.
  rewrite <- (map_zget_arange row 0%Qc). rewrite Hlen.
  apply map_ext_in. intros n Hn. apply (list_elem_of_In (arange 0 N) n), elem_of_arange in Hn.
  by apply Hcells.
Qed.

Lemma sumq_map (h : Z -> Z) l f : sumq (map h l) f = sumq l (fun x => f (h x)).
Proof. unfold sumq. induction l as [| x l IH]; simpl; [done | by rewrite IH]. Qed.

Lemma sumq_zero l f : (forall x, x ∈ l -> f x = 0%Qc) -> sumq l f = 0%Qc.
Proof.
  unfold sumq. induction l as [| x l IH]; intros H; simpl; [done |].
  rewrite H by left. rewrite IH; [ring |]. intros y Hy. apply H. by right.
Qed.

Lemma sumq_shift (n : nat) f :
  sumq (arange 0 (Z.of_nat (S n))) f
  = (f 0%Z + sumq (arange 0 (Z.of_nat n)) (fun k => f (k + 1)%Z))%Qc.
Proof.
  unfold arange. rewrite !Z.sub_0_r, !Nat2Z.id. simpl.
  unfold sumq at 1. simpl. f_equal.
  rewrite <- seq_shift, map_map. unfold sumq.
  induction (seq 0 n) as [| x l IH]; simpl; [done |].
  rewrite IH. do 2 f_equal. lia.
Qed.

Lemma zget_cons_succ {T} (a : T) (l : list T) (k : Z) (d : T) :
  0 <= k -> zget (a :: l) (k + 1) d = zget l k d.
Proof.
  intros Hk. rewrite !zget_nonneg by lia.
  replace (Z.to_nat (k + 1)) with (S (Z.to_nat k)) by lia. done.
Qed.

(** The list dot product reads [row] in full and [x] with zero padding. *)
Lemma dot_sumq (x row : list Qc) :
  dot x row = sumq (arange 0 (size0 row)) (fun k => (zget x k 0 * zget row k 0)%Qc).
Proof.
  unfold dot. revert x. induction row as [| b row IH]; intros x.
  - rewrite zip_with_nil_r. done.
  - unfold size0. simpl length. rewrite sumq_shift. destruct x as [| a x].
    + assert (forall k, zget (@nil Qc) k 0%Qc = 0%Qc) as Hnil.
      { intros k. unfold zget. by destruct (k <? 0). }
      simpl. rewrite Hnil, sumq_zero; [ring |]. intros k _. rewrite Hnil. ring.
    + simpl. rewrite IH. f_equal. apply sumq_ext. intros k Hk.
      apply elem_of_arange in Hk. by rewrite !zget_cons_succ by lia.
Qed.

(** [linear] row by row. *)
Lemma linear_rows (N K : Z) (W : tensor2) (x : list Qc) :
  rect N K W ->
  linear W x = map (fun n => sumq (arange 0 K) (fun k => (zget x k 0 * get2 W n k)%Qc))
                   (arange 0 N).
Proof.
  intros [HN Hall]. unfold linear.
  rewrite <- (map_zget_arange W []) at 1. rewrite HN, map_map.
  apply map_ext_in. intros n Hn.
  apply (list_elem_of_In (arange 0 N) n), elem_of_arange in Hn.
  rewrite dot_sumq. rewrite (rect_row N K W n); [done | done | lia].
Qed.

(** ** The concrete collaborators meet their contracts *)

Section InsertionSort.
Variables (strict : bool) (keys : list Z).
Let key := fun i => zget keys i 0.

Lemma insert_idx_perm i l : insert_idx strict keys i l ≡ₚ i :: l.
Proof.
  induction l as [| j l IH]; simpl; [done |].
  destruct (if strict then _ else _); [done |].
  rewrite IH. apply Permutation_swap.
Qed.

Lemma insert_idx_hd a i l :
  a <= key i -> HdRel Z.le a (map key l) -> HdRel Z.le a (map key (insert_idx strict keys i l)).
Proof.
  intros Hai Hl. destruct l as [| j l]; simpl; [by constructor |].
  destruct (if strict then _ else _); simpl; constructor; [done |].
  by inversion Hl.
Qed.

Lemma insert_idx_sorted i l :
  Sorted Z.le (map key l) -> Sorted Z.le (map key (insert_idx strict keys i l)).
Proof.
  induction l as [| j l IH]; intros Hs; simpl.
  - repeat constructor.
  - inversion Hs as [| ? ? Hs' Hhd]; subst.
    destruct (if strict then _ else _) eqn:Hc; simpl.
    + constructor; [done |]. constructor. fold (key i) (key j) in Hc.
      destruct strict; [apply Z.ltb_lt in Hc | apply Z.leb_le in Hc]; lia.
    + constructor; [by apply IH |]. apply insert_idx_hd; [| done].
      fold (key i) (key j) in Hc.
      destruct strict; [apply Z.ltb_ge in Hc | apply Z.leb_gt in Hc]; lia.
Qed.

Lemma insertion_sort_spec (idx : list Z) :
  foldr (insert_idx strict keys) [] idx ≡ₚ idx /\
  Sorted Z.le (map key (foldr (insert_idx strict keys) [] idx)).
Proof.
  induction idx as [| i idx [IHp IHs]]; simpl.
  - split; [done | constructor].
  - split; [by rewrite insert_idx_perm, IHp | by apply insert_idx_sorted].
Qed.
End InsertionSort.

Lemma stable_argsort_spec : argsort_spec stable_argsort.
Proof. intros keys. apply insertion_sort_spec. Qed.

Lemma reversing_argsort_spec : argsort_spec reversing_argsort.
Proof. intros keys. apply insertion_sort_spec. Qed.

Lemma first_config_spec : autotune_spec first_config.
Proof. intros n k m. by left. Qed.

Lemma second_config_spec : autotune_spec second_config.
Proof. intros n k m. right. by left. Qed.

Lemma in_order_spec : schedule_spec in_order.
Proof. by intros ss. Qed.

Lemma reverse_spec : schedule_spec reverse.
Proof. intros ss. apply reverse_Permutation. Qed.

(** ** Allocation and launch as runs *)

Lemma size0_replicate {T} (n : Z) (x : T) : 0 <= n -> size0 (replicate (Z.to_nat n) x) = n.
Proof. intros Hn. unfold size0. rewrite length_replicate. lia. Qed.

Lemma size0_map_arange {T} (f : Z -> T) (n : Z) : 0 <= n -> size0 (map f (arange 0 n)) = n.
Proof. intros Hn. unfold size0. rewrite length_map, length_arange. lia. Qed.

Lemma Forall_map_arange {T} (P : T -> Prop) (f : Z -> T) (n : Z) :
  (forall i, P (f i)) -> Forall P (map f (arange 0 n)).
Proof. intros H. apply Forall_fmap, Forall_forall. intros i _. apply H. Qed.

Lemma zget_map_arange {T} (f : Z -> T) (n i : Z) (d : T) :
  0 <= i < n -> zget (map f (arange 0 n)) i d = f i.
Proof.
  intros Hi. rewrite zget_nonneg by lia.
  rewrite list_lookup_fmap, lookup_arange by lia. simpl. f_equal. lia.
Qed.

Section Allocation.
Variable uninit : nat -> Z -> Z -> Z -> Qc.

Lemma make_intermediate_run (a b c : Z) (zeros : bool) tr :
  0 <= a -> 0 <= b -> 0 <= c ->
  exists T,
    _make_intermediate uninit (a, b, c) zeros tr = (tr ++ [EvAlloc [a; b; c] zeros], inr T) /\
    cube a b c T /\
    (zeros = true -> forall i j k, get3 T i j k = 0%Qc) /\
    (zeros = false -> forall i j k, 0 <= i < a -> 0 <= j < b -> 0 <= k < c ->
       get3 T i j k = uninit (length (List.filter is_alloc tr)) i j k).
Proof.
  intros Ha Hb Hc. unfold _make_intermediate, torch_zeros, torch_empty, bind.
  destruct zeros.
  - rewrite check_shape_ok by (repeat constructor; lia).
    unfold emit, ret. simpl. eexists. split; [done |]. split; [| split; [| done]].
    + split; [by apply size0_replicate |]. apply Forall_replicate.
      split; [by apply size0_replicate |]. apply Forall_replicate.
      by apply size0_replicate.
    + intros _ i j k. unfold get3, get2.
      assert (forall {T} (n : nat) (x : T) (i : Z), zget (replicate n x) i x = x) as Hrep.
      { intros T n x i0. unfold zget. destruct (i0 <? 0); [done |].
        destruct (replicate n x !! Z.to_nat i0) eqn:E; [| done].
        apply lookup_replicate in E as [-> _]. done. }
      assert (forall {T} (n : nat) (x : list T) (i : Z),
                zget (replicate n x) i [] = x \/ zget (replicate n x) i [] = []) as Hrep'.
      { intros T n x i0. unfold zget. destruct (i0 <? 0); [by right |].
        destruct (replicate n x !! Z.to_nat i0) eqn:E; [| by right].
        apply lookup_replicate in E as [-> _]. by left. }
      assert (forall k0, zget (@nil Qc) k0 0%Qc = 0%Qc) as Hnil.
      { intros k0. unfold zget. by destruct (k0 <? 0). }
      assert (forall j0, zget (@nil (list Qc)) j0 [] = []) as Hnil'.
      { intros j0. unfold zget. by destruct (j0 <? 0). }
      destruct (Hrep' _ (Z.to_nat a) (replicate (Z.to_nat b) (replicate (Z.to_nat c) 0%Qc)) i)
        as [-> | ->]; [| by rewrite Hnil', Hnil].
      destruct (Hrep' _ (Z.to_nat b) (replicate (Z.to_nat c) 0%Qc) j)
        as [-> | ->]; [| by rewrite Hnil].
      apply Hrep.
  - rewrite check_shape_ok by (repeat constructor; lia).
    unfold allocations, emit, ret. simpl. eexists. split; [done |].
    split; [| split; [done |]].
    + split; [by apply size0_map_arange |]. apply Forall_map_arange. intros i.
      split; [by apply size0_map_arange |]. apply Forall_map_arange. intros j.
      by apply size0_map_arange.
    + intros _ i j k Hi Hj Hk. unfold get3, get2.
      by rewrite !zget_map_arange by done.
Qed.
End Allocation.

Lemma launcher_run autotune schedule (A : tensor2) (B : tensor3) (C : tensor2)
    (SI es ee : list Z) (weights : tensor2) (ew : bool) (top_k num_tokens off : Z)
    (ra rc : bool) tr :
  let M_NP2 := Z.max 64 (next_power_of_2 num_tokens) in
  let cfg := autotune (snd (fst (shape3 B))) (snd (shape3 B)) M_NP2 in
  fused_moe_kernel_launcher autotune schedule A B C SI es ee weights ew top_k
    (Some num_tokens) off ra rc tr
  = (tr ++ [EvFusedMoe cfg ew top_k num_tokens off ra rc],
     inr (apply_stores
            (schedule (launch_stores A B SI es ee weights cfg M_NP2 ew top_k off ra rc)) C)).
Proof.
  unfold fused_moe_kernel_launcher. destruct (shape3 B) as [[E N] K]. done.
Qed.

(** ** A call of [fused_moe], step by step *)

Section FusedRun.
Variable argsort : list Z -> list Z.
Variable uninit : nat -> Z -> Z -> Z -> Qc.
Variable uninit_int : nat -> Z -> Z -> Z.
Variable silu_and_mul_row : list Qc -> list Qc.
Variable autotune : Z -> Z -> Z -> Config.
Variable schedule : list store -> list store.
Hypothesis Hargsort : argsort_spec argsort.

Variables (hidden_states : tensor2) (w1 w2 : tensor3) (topk_weights : tensor2).
Variables (topk_ids : list (list Z)) (topk expert_offset : Z).
Variables (num_experts : option Z) (renormalize : bool).

Variables (E N K1 E2 N2 K2 : Z).
Hypothesis Hs1 : shape3 w1 = (E, N, K1).
Hypothesis Hs2 : shape3 w2 = (E2, N2, K2).

Let M := size0 hidden_states.
Let ne := match num_experts with None => E | Some n => n end.
Let W := _renormalize topk_weights renormalize.
Let keys := concat topk_ids.
Let SI := argsort keys.
Let M_NP2 := Z.max 64 (next_power_of_2 M).
Let cfg1 := autotune N K1 M_NP2.
Let cfg2 := autotune N2 K2 M_NP2.
Let call := fused_moe argsort uninit uninit_int silu_and_mul_row autotune schedule
              hidden_states w1 w2 topk_weights topk_ids topk expert_offset
              num_experts renormalize.

Lemma fused_moe_run tr :
  0 <= topk -> 0 <= ne ->
  exists es ee c1 c2,
    segments (sorted_key keys SI) (size0 keys) ne es ee /\
    cube M topk N c1 /\ cube M topk N2 c2 /\
    (ne <> E -> (forall i j k, get3 c1 i j k = 0%Qc) /\ (forall i j k, get3 c2 i j k = 0%Qc)) /\
    (ne = E ->
     let n0 := length (List.filter is_alloc tr) in
     (forall i j k, 0 <= i < M -> 0 <= j < topk -> 0 <= k < N ->
        get3 c1 i j k = uninit (S n0) i j k) /\
     (forall i j k, 0 <= i < M -> 0 <= j < topk -> 0 <= k < N2 ->
        get3 c2 i j k = uninit (S (S n0)) i j k)) /\
    let C1 := apply_stores
                (schedule (launch_stores hidden_states w1 SI es ee W cfg1 M_NP2
                             false topk expert_offset true false)) (flatten c1) in
    let gate := flatten (unflatten M topk (silu_and_mul silu_and_mul_row C1)) in
    let C2 := apply_stores
                (schedule (launch_stores gate w2 SI es ee W cfg2 M_NP2
                             true 1 expert_offset false true)) (flatten c2) in
    call tr
    = (tr ++ [EvAlloc [2; ne] false; EvStartEnd ne;
              EvAlloc [M; topk; N] (negb (ne =? E));
              EvFusedMoe cfg1 false topk M expert_offset true false;
              EvAlloc [M; topk; N2] (negb (ne =? E));
              EvFusedMoe cfg2 true 1 M expert_offset false true],
       inr (sum_dim1 N2 (unflatten M topk C2))).
Proof.
  intros Htopk Hne. unfold call, fused_moe. rewrite Hs1, Hs2. simpl. fold ne M.
  destruct (get_sorted_idx_run argsort uninit_int Hargsort topk_ids ne tr Hne)
    as (es & ee & Hrun & Hseg).
  rewrite (bind_inr _ _ _ _ _ Hrun).
  assert (0 <= M) as HM by (unfold M, size0; lia).
  assert (0 <= N) as HN.
  { unfold shape3 in Hs1. inversion Hs1. unfold size0. lia. }
  assert (0 <= N2) as HN2.
  { unfold shape3 in Hs2. inversion Hs2. unfold size0. lia. }
  destruct (make_intermediate_run uninit M topk N (negb (ne =? E))
              (tr ++ [EvAlloc [2; ne] false] ++ [EvStartEnd ne]) HM Htopk HN)
    as (c1 & Hrun1 & Hc1 & Hz1 & Hu1).
  rewrite (bind_inr _ _ _ _ _ Hrun1).
  rewrite (bind_inr _ _ _ _ _ (launcher_run _ _ _ _ _ _ _ _ _ _ _ _ _ _ _ _)).
  rewrite Hs1. simpl. fold M_NP2 cfg1 keys SI W.
  match goal with |- context [bind _ _ ?t] => set (tr2 := t) end.
  destruct (make_intermediate_run uninit M topk N2 (negb (ne =? E)) tr2 HM Htopk HN2)
    as (c2 & Hrun2 & Hc2 & Hz2 & Hu2).
  rewrite (bind_inr _ _ _ _ _ Hrun2).
  rewrite (bind_inr _ _ _ _ _ (launcher_run _ _ _ _ _ _ _ _ _ _ _ _ _ _ _ _)).
  rewrite Hs2. simpl. fold M_NP2 cfg2.
  exists es, ee, c1, c2. split; [done |]. split; [done |]. split; [done |].
  split.
  { intros Hd. assert (negb (ne =? E) = true) as Hzf
      by (by destruct (Z.eqb_spec ne E)).
    split; [by apply Hz1 | by apply Hz2]. }
  split.
  { intros Hd. assert (negb (ne =? E) = false) as Hzf
      by (by destruct (Z.eqb_spec ne E)).
    specialize (Hu1 Hzf). specialize (Hu2 Hzf). unfold tr2 in Hu2.
    split; intros i j k Hi Hj Hk; [rewrite Hu1 by done | rewrite Hu2 by done];
      f_equal; repeat (rewrite ?List.filter_app, ?length_app; simpl);
      rewrite ?Hzf; simpl; lia. }
  unfold ret, tr2. rewrite <- !app_assoc. done.
Qed.
End FusedRun.

(** ** The two passes on a well-formed call *)

Lemma zget_in_range {T} (P : T -> Prop) (l : list T) (i : Z) (d : T) :
  Forall P l -> 0 <= i < size0 l -> P (zget l i d).
Proof.
  intros Hall Hi. rewrite Forall_lookup in Hall.
  apply (Hall (Z.to_nat i)). by apply zget_lt_length.
Qed.

Lemma Forall_concat {T} (P : T -> Prop) (ls : list (list T)) :
  Forall (Forall P) ls -> Forall P (concat ls).
Proof. induction 1; simpl; [done | by apply Forall_app]. Qed.

Lemma zget_silu_and_mul act (C : tensor2) (p : Z) :
  0 <= p < size0 C -> zget (silu_and_mul act C) p [] = act (zget C p []).
Proof.
  intros Hp. unfold silu_and_mul. rewrite !zget_nonneg by lia.
  rewrite list_lookup_fmap. rewrite (zget_lt_length C p []) by done. simpl.
  by rewrite zget_nonneg by lia.
Qed.

Section Passes.
Variable argsort : list Z -> list Z.
Variable silu_and_mul_row : list Qc -> list Qc.
Variable schedule : list store -> list store.
Hypothesis Hargsort : argsort_spec argsort.
Hypothesis Hsched : schedule_spec schedule.

Variables (hidden_states : tensor2) (w1 w2 : tensor3) (topk_weights : tensor2).
Variables (topk_ids : list (list Z)) (topk : Z).
Variables (E N K1 E2 N2 K2 : Z).
Hypothesis Hs1 : shape3 w1 = (E, N, K1).
Hypothesis Hs2 : shape3 w2 = (E2, N2, K2).
Hypothesis Hvalid :
  valid_call silu_and_mul_row hidden_states w1 w2 topk_weights topk_ids topk.

Variables (cfg1 cfg2 : Config).
Hypothesis Hcfg1 : config_ok cfg1.
Hypothesis Hcfg2 : config_ok cfg2.

Let M := size0 hidden_states.
Let keys := concat topk_ids.
Let SI := argsort keys.
Let L := M * topk.
Let g := sorted_key keys SI.
Let M_NP2 := Z.max 64 (next_power_of_2 M).

Variables (es ee : list Z) (c1 c2 : tensor3).
Hypothesis Hseg : segments g L E es ee.
Hypothesis Hc1 : cube M topk N c1.
Hypothesis Hc2 : cube M topk N2 c2.

Let C1 := apply_stores
            (schedule (launch_stores hidden_states w1 SI es ee topk_weights cfg1 M_NP2
                         false topk 0 true false)) (flatten c1).
Let gate := flatten (unflatten M topk (silu_and_mul silu_and_mul_row C1)).
Let C2 := apply_stores
            (schedule (launch_stores gate w2 SI es ee topk_weights cfg2 M_NP2
                         true 1 0 false true)) (flatten c2).

Lemma valid_unpack :
  0 <= topk /\ rect M K1 hidden_states /\ cube E N K1 w1 /\ cube E N2 K2 w2 /\
  rect M topk topk_weights /\ size0 topk_ids = M /\
  Forall (fun r => size0 r = topk) topk_ids /\
  Forall (Forall (fun e => 0 <= e < E)) topk_ids /\ Forall NoDup topk_ids /\
  (forall row, size0 row = N -> size0 (silu_and_mul_row row) = K2).
Proof. unfold valid_call in Hvalid. by rewrite Hs1, Hs2 in Hvalid. Qed.

Lemma keys_size : size0 keys = L.
Proof.
  destruct valid_unpack as (_ & _ & _ & _ & _ & Hi1 & Hi2 & _).
  unfold keys, L. by rewrite (size0_concat_rect topk), Hi1.
Qed.

Lemma M_nonneg : 0 <= M.
Proof. unfold M, size0. lia. Qed.

Lemma key_range p : 0 <= p < L -> 0 <= g p < E.
Proof.
  intros Hp. destruct valid_unpack as (_ & _ & _ & _ & _ & _ & _ & Hr & _).
  unfold g, sorted_key. apply (zget_in_range (fun e => 0 <= e < E)).
  - by apply Forall_concat.
  - rewrite keys_size. rewrite <- keys_size in Hp |- *.
    by apply (argsort_range argsort Hargsort keys).
Qed.

Lemma segment_fits e : 0 <= e < E -> 0 <= e + 0 < E -> occ g (e + 0) L <= M_NP2.
Proof.
  intros He _. destruct valid_unpack as (_ & _ & _ & _ & _ & Hi1 & _ & _ & Hnd & _).
  rewrite <- keys_size. unfold g, SI.
  rewrite (argsort_count argsort Hargsort keys).
  pose proof (count_id_distinct_rows (e + 0) topk_ids Hnd).
  pose proof (next_power_of_2_ge M M_nonneg). unfold keys, M_NP2. lia.
Qed.

Lemma C1_rect : rect L N C1.
Proof. apply rect_apply_stores. by apply rect_flatten. Qed.

(** First pass: the row at sorted position [p] is the gate/up projection
    of the token that owns flat assignment [sorted_idx[p]]. *)
Lemma C1_row p :
  0 <= p < L ->
  zget C1 p [] = linear (zget w1 (g p) []) (zget hidden_states (Z.quot (zget SI p 0) topk) []).
Proof.
  intros Hp. destruct valid_unpack as (Htopk & _ & Hw1 & _).
  pose proof (key_range p Hp) as Hgp.
  assert (rect N K1 (zget w1 (g p) [])) as Hrect.
  { destruct Hw1 as [HE Hall]. apply (zget_in_range (rect N K1)); [done | lia]. }
  rewrite (linear_rows N K1) by done.
  apply (row_ext L N); [apply C1_rect | done |].
  intros n Hn.
  pose proof (launched_cell hidden_states w1 (flatten c1) SI es ee topk_weights cfg1 M_NP2
                false topk 0 true false E N K1 g L E schedule Hs1 Hcfg1
                ltac:(unfold M_NP2; lia) Hseg Hsched ltac:(by apply rect_flatten)
                ltac:(done) ltac:(done) segment_fits p n Hp Hgp ltac:(lia) Hn) as Hcell.
  unfold dest_row in Hcell. fold C1 in Hcell. rewrite Hcell.
  unfold proj_value, src_row. replace (g p - 0) with (g p) by lia. done.
Qed.

Lemma gate_eq : gate = silu_and_mul silu_and_mul_row C1.
Proof.
  destruct valid_unpack as (Htopk & _). unfold gate.
  apply flatten_unflatten; [apply M_nonneg | done |].
  destruct C1_rect as [Hsz _]. unfold silu_and_mul, size0 in *. by rewrite length_map.
Qed.

Lemma C2_rect : rect L N2 C2.
Proof. apply rect_apply_stores. by apply rect_flatten. Qed.

(** Second pass: the row of flat assignment [sorted_idx[p]] is the down
    projection of the activated row [p], times that assignment's gating
    weight. *)
Lemma C2_row p :
  0 <= p < L ->
  zget C2 (zget SI p 0) []
  = map (fun v => (v * zget (concat topk_weights) (zget SI p 0%Z) 0)%Qc)
        (linear (zget w2 (g p) []) (silu_and_mul_row (zget C1 p []))).
Proof.
  intros Hp. destruct valid_unpack as (Htopk & _ & _ & Hw2 & _).
  pose proof (key_range p Hp) as Hgp.
  assert (rect N2 K2 (zget w2 (g p) [])) as Hrect.
  { destruct Hw2 as [HE Hall]. apply (zget_in_range (rect N2 K2)); [done | lia]. }
  rewrite (linear_rows N2 K2) by done. rewrite map_map.
  assert (forall q, 0 <= q < L -> 0 <= zget SI q 0 < L) as Hrange.
  { intros q Hq. rewrite <- keys_size in Hq |- *.
    by apply (argsort_range argsort Hargsort keys). }
  apply (row_ext L N2); [apply C2_rect | by apply Hrange |].
  intros n Hn.
  pose proof (launched_cell gate w2 (flatten c2) SI es ee topk_weights cfg2 M_NP2
                true 1 0 false true E2 N2 K2 g L E schedule Hs2 Hcfg2
                ltac:(unfold M_NP2; lia) Hseg Hsched ltac:(by apply rect_flatten)) as Hcell.
  assert (E2 = E) as HE2.
  { destruct Hw2 as [HE _]. pose proof Hs2 as Hs2'. unfold shape3 in Hs2'.
    inversion Hs2'. lia. }
  specialize (Hcell Hrange).
  unfold dest_row in Hcell. fold C2 in Hcell. rewrite Hcell; [| | | done | done | lia | done].
  - unfold proj_value, src_row. replace (g p - 0) with (g p) by lia.
    f_equal. apply sumq_ext. intros x _. f_equal.
    unfold get2. rewrite gate_eq, zget_silu_and_mul; [done |].
    by destruct C1_rect as [-> _].
  - intros q q' Hq Hq'. rewrite <- keys_size in Hq, Hq'.
    by apply (argsort_inj argsort Hargsort keys).
  - intros e He He'. apply segment_fits; lia.
Qed.

(** The row of flat assignment [(i, s)] after both passes is what the
    reference computes for token [i] and slot [s]. *)
Lemma C2_slot (i s : nat) x ws ids_i w e :
  hidden_states !! i = Some x -> topk_weights !! i = Some ws ->
  topk_ids !! i = Some ids_i -> ws !! s = Some w -> ids_i !! s = Some e ->
  C2 !! (i * Z.to_nat topk + s)%nat
  = Some (map (fun v => (v * w)%Qc) (expert_mlp silu_and_mul_row w1 w2 e x)).
Proof.
  intros Hx Hws Hids Hw He.
  destruct valid_unpack as (Htopk & Hh & Hw1 & Hw2 & HW & Hi1 & Hi2 & Hr & Hnd & Hact).
  pose proof (lookup_lt_Some _ _ _ Hx) as Hi. fold (size0 hidden_states) in Hi.
  pose proof (lookup_lt_Some _ _ _ He) as Hs.
  assert (size0 ids_i = topk) as Hlen.
  { rewrite Forall_lookup in Hi2. by apply (Hi2 i). }
  unfold size0 in Hlen.
  set (q := Z.of_nat i * topk + Z.of_nat s).
  assert (0 <= q < L) as Hq by (unfold q, L, M, size0; nia).
  replace (i * Z.to_nat topk + s)%nat with (Z.to_nat q) by (unfold q; nia).
  destruct C2_rect as [HC2 _].
  rewrite (zget_lt_length C2 q []) by lia. f_equal.
  rewrite <- keys_size in Hq.
  destruct (argsort_surj argsort Hargsort keys q Hq) as (p & Hp & Hpq).
  rewrite keys_size in Hp, Hq. fold SI in Hpq.
  rewrite <- Hpq, C2_row, C1_row by done. rewrite Hpq.
  assert (g p = e) as ->.
  { unfold g, sorted_key. rewrite Hpq. unfold keys, q.
    rewrite (zget_concat topk) by (rewrite ?Hi1; unfold M, size0; lia || done).
    rewrite (zget_lookup _ _ _ _ Hids). by apply zget_lookup. }
  assert (zget (concat topk_weights) q 0%Qc = w) as ->.
  { destruct HW as [HW1 HW2]. unfold q.
    rewrite (zget_concat topk) by (rewrite ?HW1; unfold M, size0; lia || done).
    rewrite (zget_lookup _ _ _ _ Hws). by apply zget_lookup. }
  assert (Z.quot q topk = Z.of_nat i) as ->.
  { rewrite Z.quot_div_nonneg by lia. unfold q.
    rewrite Z.add_comm, Z_div_plus by lia.
    rewrite Z.div_small by lia. lia. }
  rewrite (zget_lookup _ _ _ _ Hx). done.
Qed.

(** The reduction over the top-k axis yields the reference result. *)
Lemma reduced_eq_naive :
  sum_dim1 N2 (unflatten M topk C2)
  = naive_moe silu_and_mul_row hidden_states w1 w2 topk_weights topk_ids.
Proof.
  destruct valid_unpack as (Htopk & Hh & Hw1 & Hw2 & HW & Hi1 & Hi2 & Hr & Hnd & Hact).
  destruct HW as [HW1 HW2]. unfold M, size0 in *.
  apply list_eq. intros i. unfold sum_dim1, naive_moe.
  rewrite list_lookup_fmap.
  destruct (hidden_states !! i) as [x |] eqn:Hx.
  - pose proof (lookup_lt_Some _ _ _ Hx) as Hi.
    rewrite unflatten_lookup by (unfold size0; lia).
    destruct (lookup_lt_is_Some_2 topk_weights i) as [ws Hws]; [lia |].
    destruct (lookup_lt_is_Some_2 topk_ids i) as [ids_i Hids]; [lia |].
    symmetry. apply lookup_zip_with_Some. exists x, (ws, ids_i).
    split; [| split; [done |]].
    2:{ apply lookup_zip_with_Some. exists ws, ids_i. done. }
    simpl. unfold naive_token, vadd.
    assert (Z.to_nat N2 = length (zget w2 0 [])) as ->.
    { pose proof Hs2 as Hs2'. unfold shape3, size0 in Hs2'. inversion Hs2'. lia. }
    f_equal. apply list_eq. intros s.
    assert (length ws = Z.to_nat topk) as Hlw.
    { rewrite Forall_lookup in HW2. specialize (HW2 i ws Hws). simpl in HW2. lia. }
    assert (length ids_i = Z.to_nat topk) as Hli.
    { rewrite Forall_lookup in Hi2. specialize (Hi2 i ids_i Hids). simpl in Hi2. lia. }
    rewrite lookup_take, lookup_drop.
    destruct (decide (s < Z.to_nat topk)%nat) as [Hs | Hs].
    + destruct (lookup_lt_is_Some_2 ws s) as [w Hw]; [lia |].
      destruct (lookup_lt_is_Some_2 ids_i s) as [e He]; [lia |].
      rewrite (C2_slot i s x ws ids_i w e) by done.
      symmetry. apply lookup_zip_with_Some. exists w, e. done.
    + symmetry. apply lookup_ge_None_2. rewrite length_zip_with. lia.
  - pose proof (lookup_ge_None_1 _ _ Hx) as Hge.
    rewrite (lookup_ge_None_2 (unflatten _ _ _)).
    2:{ unfold unflatten. rewrite length_map, length_seq. lia. }
    symmetry. apply lookup_ge_None_2. rewrite length_zip_with. lia.
Qed.
End Passes.

(** * The claims *)

(** C1. On every well-formed call with default [expert_offset],
    [num_experts] and [renormalize] (distinct expert ids per token, gating
    weights given), whatever the sorting permutation, the tile configuration
    chosen by the autotuner, the order in which stores retire and the
    garbage in uninitialised buffers, [fused_moe] returns exactly the naive
    per-token, per-slot reference: gather the expert's [w1], multiply,
    activate, multiply by the expert's [w2], scale by the gating weight, sum
    over the top-k slots. *)
Theorem fused_moe_matches_naive
    (argsort : list Z -> list Z) (uninit : nat -> Z -> Z -> Z -> Qc)
    (uninit_int : nat -> Z -> Z -> Z) (silu_and_mul_row : list Qc -> list Qc)
    (autotune : Z -> Z -> Z -> Config) (schedule : list store -> list store)
    (hidden_states : tensor2) (w1 w2 : tensor3) (topk_weights : tensor2)
    (topk_ids : list (list Z)) (topk : Z) (tr : list event) :
  argsort_spec argsort -> autotune_spec autotune -> schedule_spec schedule ->
  valid_call silu_and_mul_row hidden_states w1 w2 topk_weights topk_ids topk ->
  snd (fused_moe argsort uninit uninit_int silu_and_mul_row autotune schedule
         hidden_states w1 w2 topk_weights topk_ids topk 0 None false tr)
  = inr (naive_moe silu_and_mul_row hidden_states w1 w2 topk_weights topk_ids).
Proof.
  intros Hargsort Hauto Hsched Hvalid.
  destruct (shape3 w1) as [[E N] K1] eqn:Hs1.
  destruct (shape3 w2) as [[E2 N2] K2] eqn:Hs2.
  pose proof (valid_unpack _ _ _ _ _ _ _ _ _ _ _ _ _ Hs1 Hs2 Hvalid) as Hv.
  destruct Hv as (Htopk & _).
  assert (0 <= E) as HE.
  { pose proof Hs1 as Hs1'. unfold shape3, size0 in Hs1'. inversion Hs1'. lia. }
  destruct (fused_moe_run argsort uninit uninit_int silu_and_mul_row autotune schedule
              Hargsort hidden_states w1 w2 topk_weights topk_ids topk 0 None false
              E N K1 E2 N2 K2 Hs1 Hs2 tr Htopk HE)
    as (es & ee & c1 & c2 & Hseg & Hc1 & Hc2 & _ & _ & Hrun).
  simpl in Hrun. rewrite Hrun. simpl. f_equal.
  rewrite (keys_size _ _ _ _ _ _ _ _ _ _ _ _ _ Hs1 Hs2 Hvalid) in Hseg.
  apply (reduced_eq_naive argsort silu_and_mul_row schedule Hargsort Hsched
           hidden_states w1 w2 topk_weights topk_ids topk E N K1 E2 N2 K2 Hs1 Hs2 Hvalid
           _ _ (autotune_config_ok _ _ _ _ Hauto) (autotune_config_ok _ _ _ _ Hauto)
           es ee c1 c2 Hseg Hc1 Hc2).
Qed.

(** C10. Renormalising twice equals renormalising once, for every weight
    tensor whose per-token rows have a nonzero sum: after one application
    each row sums to 1, so the second division is by 1. *)
Theorem renormalize_idempotent (topk_weights : tensor2) :
  Forall (fun row => vsum row <> 0%Qc) topk_weights ->
  Forall (fun row => vsum row = 1%Qc) (_renormalize topk_weights true) /\
  _renormalize (_renormalize topk_weights true) true = _renormalize topk_weights true.
Proof.
  intros Hnz. unfold _renormalize.
  assert (forall (s : Qc) row, vsum (map (fun w => (w / s)%Qc) row) = (vsum row / s)%Qc)
    as Hscale.
  { intros s row. unfold vsum. induction row as [| a row IH]; simpl.
    - unfold Qcdiv. ring.
    - rewrite IH. unfold Qcdiv. ring. }
  assert (forall row, vsum row <> 0%Qc ->
            vsum (map (fun w => (w / vsum row)%Qc) row) = 1%Qc) as Hone.
  { intros row Hrow. rewrite Hscale. by field. }
  split.
  - apply Forall_fmap. eapply List.Forall_impl; [| exact Hnz].
    intros row Hrow. by apply Hone.
  - rewrite map_map. apply map_ext_Forall.
    eapply List.Forall_impl; [| exact Hnz]. intros row Hrow. simpl.
    rewrite (Hone row Hrow), map_map. apply map_ext. intros w. field. split; [done |].
    done.
Qed.

(** C9. A program whose expert has an empty segment (after applying
    [expert_offset]) stops right after reading the two bounds: whatever [A],
    [B], [SortedIdx] and [Weights] hold -- even nothing at all -- it issues no
    store, so the destination is left as it was. *)
Theorem empty_segment_no_effect
    (ExpStart ExpEnd : list Z) (expert_offset exp_id : Z) :
  zget ExpEnd (exp_id + expert_offset) 0 - zget ExpStart (exp_id + expert_offset) 0 <= 0 ->
  forall (A : tensor2) (B : tensor3) (SortedIdx : list Z) (Weights : list Qc)
         (N K : Z) (cfg : Config) (M_NP2 : Z) (ENABLE_WEIGHTS : bool) (top_k : Z)
         (reindex_a reindex_c : bool) (pid : Z) (C : tensor2),
    fused_moe_kernel A B SortedIdx ExpStart ExpEnd Weights N K cfg M_NP2
      ENABLE_WEIGHTS top_k expert_offset reindex_a reindex_c pid exp_id = [] /\
    apply_stores
      (fused_moe_kernel A B SortedIdx ExpStart ExpEnd Weights N K cfg M_NP2
         ENABLE_WEIGHTS top_k expert_offset reindex_a reindex_c pid exp_id) C = C /\
    fused_moe_kernel A B SortedIdx ExpStart ExpEnd Weights N K cfg M_NP2
      ENABLE_WEIGHTS top_k expert_offset reindex_a reindex_c pid exp_id
    = fused_moe_kernel [] [] [] ExpStart ExpEnd [] N K cfg M_NP2
        ENABLE_WEIGHTS top_k expert_offset reindex_a reindex_c pid exp_id.
Proof.
  intros Hempty A B SortedIdx Weights N K cfg M_NP2 ew top_k ra rc pid C.
  assert (forall A' B' S' W',
            fused_moe_kernel A' B' S' ExpStart ExpEnd W' N K cfg M_NP2
              ew top_k expert_offset ra rc pid exp_id = []) as Hnil.
  { intros A' B' S' W'. unfold fused_moe_kernel.
    by destruct (Z.leb_spec
      (zget ExpEnd (exp_id + expert_offset) 0 - zget ExpStart (exp_id + expert_offset) 0) 0);
      [| lia]. }
  rewrite !Hnil. done.
Qed.

(** C2. For every assignment tensor and expert count [E], whatever sorting
    permutation [argsort] returns: [sorted_idx] is a bijection on [[0, L)];
    each expert's [[exp_start, exp_end)] lies inside [[0, L)] and holds
    exactly the sorted positions whose assigned expert is that expert; when
    every assigned id is one of the [E] experts, each position lies in
    exactly one range; and an expert with no assignment gets
    [exp_start = exp_end = 0]. *)
Theorem sorted_idx_partition
    (argsort : list Z -> list Z) (uninit_int : nat -> Z -> Z -> Z)
    (topk_ids : list (list Z)) (E : Z) (tr : list event) :
  argsort_spec argsort -> 0 <= E ->
  let keys := concat topk_ids in
  let L := size0 keys in
  exists sorted_idx exp_start exp_end tr',
    _get_sorted_idx argsort uninit_int topk_ids E tr
    = (tr', inr (sorted_idx, exp_start, exp_end)) /\
    sorted_idx ≡ₚ arange 0 L /\
    size0 exp_start = E /\ size0 exp_end = E /\
    (forall e, 0 <= e < E ->
       0 <= zget exp_start e 0 /\ zget exp_start e 0 <= zget exp_end e 0 /\
       zget exp_end e 0 <= L /\
       zget exp_end e 0 - zget exp_start e 0 = count_id e keys /\
       forall p, 0 <= p < L ->
         (zget exp_start e 0 <= p < zget exp_end e 0 <-> sorted_key keys sorted_idx p = e)) /\
    (Forall (fun id => 0 <= id < E) keys ->
     forall p, 0 <= p < L ->
       exists e, 0 <= e < E /\ zget exp_start e 0 <= p < zget exp_end e 0 /\
                 forall e', 0 <= e' < E -> zget exp_start e' 0 <= p < zget exp_end e' 0 ->
                            e' = e) /\
    (forall e, 0 <= e < E -> count_id e keys = 0 ->
       zget exp_start e 0 = 0 /\ zget exp_end e 0 = 0).
Proof.
  intros Hargsort HE keys L.
  destruct (get_sorted_idx_run argsort uninit_int Hargsort topk_ids E tr HE)
    as (es & ee & Hrun & Hseg).
  fold keys L in Hrun, Hseg.
  eexists (argsort keys), es, ee, _. split; [exact Hrun |].
  destruct Hseg as (Hs1 & Hs2 & Htab).
  split; [apply Hargsort |]. split; [done |]. split; [done |].
  assert (forall e, occ (sorted_key keys (argsort keys)) e L = count_id e keys) as Hcount
    by (intros e; apply (argsort_count argsort Hargsort keys)).
  split; [| split].
  - intros e He. destruct (Htab e He) as (H0 & Hend & HL & _ & Hiff).
    rewrite Hcount in Hend. pose proof (count_id_nonneg e keys).
    split; [done |]. split; [lia |]. split; [done |]. split; [lia | done].
  - intros Hvalid p Hp.
    set (e := sorted_key keys (argsort keys) p).
    assert (0 <= e < E) as He.
    { unfold e, sorted_key. apply (zget_in_range (fun id => 0 <= id < E)); [done |].
      by apply (argsort_range argsort Hargsort keys). }
    exists e. split; [done |].
    destruct (Htab e He) as (_ & _ & _ & _ & Hiff). split; [by apply Hiff |].
    intros e' He' Hin. destruct (Htab e' He') as (_ & _ & _ & _ & Hiff').
    symmetry. by apply Hiff'.
  - intros e He Hc. destruct (Htab e He) as (_ & Hend & _ & Hz & _).
    rewrite Hcount, Hc in Hend, Hz. specialize (Hz eq_refl). lia.
Qed.

(** C6. On every call that gets as far as allocating (non-negative [topk]
    and expert count), both intermediate buffers are allocated with
    [zeros = (num_experts != E)], [E] being the first dimension of [w1]:
    zero-filled when the two differ, and holding whatever the allocator
    leaves in [torch.empty] memory when they agree, which includes
    [num_experts = None]. *)
Theorem intermediate_zero_fill
    (argsort : list Z -> list Z) (uninit : nat -> Z -> Z -> Z -> Qc)
    (uninit_int : nat -> Z -> Z -> Z) (silu_and_mul_row : list Qc -> list Qc)
    (autotune : Z -> Z -> Z -> Config) (schedule : list store -> list store)
    (hidden_states : tensor2) (w1 w2 : tensor3) (topk_weights : tensor2)
    (topk_ids : list (list Z)) (topk expert_offset : Z) (num_experts : option Z)
    (renormalize : bool) (tr : list event) :
  let M := size0 hidden_states in
  let E := fst (fst (shape3 w1)) in
  let N := snd (fst (shape3 w1)) in
  let N2 := snd (fst (shape3 w2)) in
  let ne := match num_experts with None => E | Some n => n end in
  let W := _renormalize topk_weights renormalize in
  let SI := argsort (concat topk_ids) in
  let M_NP2 := Z.max 64 (next_power_of_2 M) in
  let n0 := length (List.filter is_alloc tr) in
  argsort_spec argsort -> 0 <= topk -> 0 <= ne ->
  exists es ee c1 c2 cfg1 cfg2,
    let C1 := apply_stores
                (schedule (launch_stores hidden_states w1 SI es ee W cfg1 M_NP2
                             false topk expert_offset true false)) (flatten c1) in
    let gate := flatten (unflatten M topk (silu_and_mul silu_and_mul_row C1)) in
    let C2 := apply_stores
                (schedule (launch_stores gate w2 SI es ee W cfg2 M_NP2
                             true 1 expert_offset false true)) (flatten c2) in
    fused_moe argsort uninit uninit_int silu_and_mul_row autotune schedule
      hidden_states w1 w2 topk_weights topk_ids topk expert_offset num_experts renormalize tr
    = (tr ++ [EvAlloc [2; ne] false; EvStartEnd ne;
              EvAlloc [M; topk; N] (negb (ne =? E));
              EvFusedMoe cfg1 false topk M expert_offset true false;
              EvAlloc [M; topk; N2] (negb (ne =? E));
              EvFusedMoe cfg2 true 1 M expert_offset false true],
       inr (sum_dim1 N2 (unflatten M topk C2))) /\
    cube M topk N c1 /\ cube M topk N2 c2 /\
    (negb (ne =? E) = true <-> ne <> E) /\
    (num_experts = None -> negb (ne =? E) = false) /\
    (ne <> E ->
       (forall i j k, get3 c1 i j k = 0%Qc) /\ (forall i j k, get3 c2 i j k = 0%Qc)) /\
    (ne = E ->
       (forall i j k, 0 <= i < M -> 0 <= j < topk -> 0 <= k < N ->
          get3 c1 i j k = uninit (S n0) i j k) /\
       (forall i j k, 0 <= i < M -> 0 <= j < topk -> 0 <= k < N2 ->
          get3 c2 i j k = uninit (S (S n0)) i j k)).
Proof.
  intros M E N N2 ne W SI M_NP2 n0 Hargsort Htopk Hne.
  unfold E, N, N2, ne in *.
  destruct (shape3 w1) as [[E' N'] K1] eqn:Hs1.
  destruct (shape3 w2) as [[E2 N2'] K2] eqn:Hs2. simpl in *.
  destruct (fused_moe_run argsort uninit uninit_int silu_and_mul_row autotune schedule
              Hargsort hidden_states w1 w2 topk_weights topk_ids topk expert_offset
              num_experts renormalize E' N' K1 E2 N2' K2 Hs1 Hs2 tr Htopk Hne)
    as (es & ee & c1 & c2 & _ & Hc1 & Hc2 & Hz & Hu & Hrun).
  eexists es, ee, c1, c2, _, _. split; [exact Hrun |].
  split; [done |]. split; [done |]. split.
  { destruct (Z.eqb_spec (match num_experts with Some n => n | None => E' end) E');
      simpl; split; intros; try done; try lia. }
  split.
  { intros ->. by rewrite Z.eqb_refl. }
  split; [exact Hz | exact Hu].
Qed.

(** C4. On every call that gets as far as launching: the first launch has
    gating off, [top_k = topk], reindex-on-read on and reindex-on-write off,
    so each of its stores goes to a sorted position [p] and carries the
    ungated product of the token row [sorted_idx[p] // topk] with a row of
    the expert's [w1]; the second launch has gating on, [top_k = 1],
    reindex-on-read off and reindex-on-write on, so each of its stores goes
    to the flat assignment row [sorted_idx[p]] and carries the product of
    activated row [p] with a row of the expert's [w2], times the gating
    weight at [sorted_idx[p]]; and the result is the sum of the second
    buffer over the top-k axis. *)
Theorem two_pass_structure
    (argsort : list Z -> list Z) (uninit : nat -> Z -> Z -> Z -> Qc)
    (uninit_int : nat -> Z -> Z -> Z) (silu_and_mul_row : list Qc -> list Qc)
    (autotune : Z -> Z -> Z -> Config) (schedule : list store -> list store)
    (hidden_states : tensor2) (w1 w2 : tensor3) (topk_weights : tensor2)
    (topk_ids : list (list Z)) (topk expert_offset : Z) (num_experts : option Z)
    (renormalize : bool) (tr : list event) :
  let M := size0 hidden_states in
  let E := fst (fst (shape3 w1)) in
  let N := snd (fst (shape3 w1)) in
  let K1 := snd (shape3 w1) in
  let E2 := fst (fst (shape3 w2)) in
  let N2 := snd (fst (shape3 w2)) in
  let K2 := snd (shape3 w2) in
  let ne := match num_experts with None => E | Some n => n end in
  let W := _renormalize topk_weights renormalize in
  let keys := concat topk_ids in
  let SI := argsort keys in
  let L := size0 keys in
  let M_NP2 := Z.max 64 (next_power_of_2 M) in
  argsort_spec argsort -> autotune_spec autotune -> 0 <= topk -> 0 <= ne ->
  exists es ee c1 c2 cfg1 cfg2,
    let pass1 := launch_stores hidden_states w1 SI es ee W cfg1 M_NP2
                   false topk expert_offset true false in
    let C1 := apply_stores (schedule pass1) (flatten c1) in
    let gate := flatten (unflatten M topk (silu_and_mul silu_and_mul_row C1)) in
    let pass2 := launch_stores gate w2 SI es ee W cfg2 M_NP2
                   true 1 expert_offset false true in
    let C2 := apply_stores (schedule pass2) (flatten c2) in
    fused_moe argsort uninit uninit_int silu_and_mul_row autotune schedule
      hidden_states w1 w2 topk_weights topk_ids topk expert_offset num_experts renormalize tr
    = (tr ++ [EvAlloc [2; ne] false; EvStartEnd ne;
              EvAlloc [M; topk; N] (negb (ne =? E));
              EvFusedMoe cfg1 false topk M expert_offset true false;
              EvAlloc [M; topk; N2] (negb (ne =? E));
              EvFusedMoe cfg2 true 1 M expert_offset false true],
       inr (sum_dim1 N2 (unflatten M topk C2))) /\
    (forall s : store, s ∈ pass1 ->
       exists e p n, 0 <= e < E /\ 0 <= p < L /\
         sorted_key keys SI p = e + expert_offset /\ 0 <= n < N /\
         s = (p, n,
              sumq (arange 0 K1)
                   (fun x => (get2 hidden_states (Z.quot (zget SI p 0%Z) topk) x
                              * get3 w1 e n x)%Qc))) /\
    (forall s : store, s ∈ pass2 ->
       exists e p n, 0 <= e < E2 /\ 0 <= p < L /\
         sorted_key keys SI p = e + expert_offset /\ 0 <= n < N2 /\
         s = (zget SI p 0, n,
              (sumq (arange 0 K2) (fun x => (get2 gate p x * get3 w2 e n x)%Qc)
               * zget (concat W) (zget SI p 0%Z) 0)%Qc)).
Proof.
  intros M E N K1 E2 N2 K2 ne W keys SI L M_NP2 Hargsort Hauto Htopk Hne.
  unfold E, N, K1, E2, N2, K2, ne in *.
  destruct (shape3 w1) as [[E' N'] K1'] eqn:Hs1.
  destruct (shape3 w2) as [[E2' N2'] K2'] eqn:Hs2. simpl in *.
  destruct (fused_moe_run argsort uninit uninit_int silu_and_mul_row autotune schedule
              Hargsort hidden_states w1 w2 topk_weights topk_ids topk expert_offset
              num_experts renormalize E' N' K1' E2' N2' K2' Hs1 Hs2 tr Htopk Hne)
    as (es & ee & c1 & c2 & Hseg & _ & _ & _ & _ & Hrun).
  eexists es, ee, c1, c2, _, _. split; [exact Hrun |].
  assert (0 < M_NP2) as HNP2 by (unfold M_NP2; lia).
  split.
  - intros s Hs.
    apply (launch_sound _ _ _ _ _ _ _ _ _ _ _ _ _ _ _ _ _ _ _ Hs1
             (autotune_config_ok _ _ _ _ Hauto) HNP2 Hseg) in Hs.
    destruct Hs as (e & p & n & He & Hp & Hg & Hn & ->). exists e, p, n. done.
  - intros s Hs.
    apply (launch_sound _ _ _ _ _ _ _ _ _ _ _ _ _ _ _ _ _ _ _ Hs2
             (autotune_config_ok _ _ _ _ Hauto) HNP2 Hseg) in Hs.
    destruct Hs as (e & p & n & He & Hp & Hg & Hn & ->). exists e, p, n. done.
Qed.

(** ** Errors of a call *)

Lemma make_intermediate_neg uninit (a b c : Z) (zeros : bool) tr :
  a < 0 \/ b < 0 \/ c < 0 ->
  _make_intermediate uninit (a, b, c) zeros tr = (tr, inl (NegativeDimension [a; b; c])).
Proof.
  intros H. unfold _make_intermediate, torch_zeros, torch_empty, bind.
  assert (Exists (fun d => d < 0) [a; b; c]) as Hex.
  { destruct H as [H | [H | H]];
      [apply Exists_cons_hd | apply Exists_cons_tl, Exists_cons_hd
       | apply Exists_cons_tl, Exists_cons_tl, Exists_cons_hd]; done. }
  destruct zeros; by rewrite check_shape_neg.
Qed.

(** C7, as the code has it.  [fused_moe] validates nothing itself; the only
    errors are the allocator's.  A negative expert count fails the
    allocation of the segment table, before anything is launched; a negative
    [topk] fails the allocation of the first intermediate buffer, after the
    segment kernel has been launched; every other call -- whatever the
    expert and feature dimensions of the operands, and also with
    [topk = 0] -- runs both projection launches and returns a tensor. *)
Theorem fused_moe_errors
    (argsort : list Z -> list Z) (uninit : nat -> Z -> Z -> Z -> Qc)
    (uninit_int : nat -> Z -> Z -> Z) (silu_and_mul_row : list Qc -> list Qc)
    (autotune : Z -> Z -> Z -> Config) (schedule : list store -> list store)
    (hidden_states : tensor2) (w1 w2 : tensor3) (topk_weights : tensor2)
    (topk_ids : list (list Z)) (topk expert_offset : Z) (num_experts : option Z)
    (renormalize : bool) (tr : list event) :
  let M := size0 hidden_states in
  let E := fst (fst (shape3 w1)) in
  let N := snd (fst (shape3 w1)) in
  let N2 := snd (fst (shape3 w2)) in
  let ne := match num_experts with None => E | Some n => n end in
  let call := fused_moe argsort uninit uninit_int silu_and_mul_row autotune schedule
                hidden_states w1 w2 topk_weights topk_ids topk expert_offset
                num_experts renormalize in
  argsort_spec argsort ->
  (ne < 0 -> call tr = (tr, inl (NegativeDimension [2; ne]))) /\
  (0 <= ne -> topk < 0 ->
   call tr = (tr ++ [EvAlloc [2; ne] false; EvStartEnd ne],
              inl (NegativeDimension [M; topk; N]))) /\
  (0 <= ne -> 0 <= topk ->
   exists cfg1 cfg2 out,
     call tr = (tr ++ [EvAlloc [2; ne] false; EvStartEnd ne;
                       EvAlloc [M; topk; N] (negb (ne =? E));
                       EvFusedMoe cfg1 false topk M expert_offset true false;
                       EvAlloc [M; topk; N2] (negb (ne =? E));
                       EvFusedMoe cfg2 true 1 M expert_offset false true],
                inr out)).
Proof.
  intros M E N N2 ne call Hargsort. unfold E, N, N2, ne, call in *.
  destruct (shape3 w1) as [[E' N'] K1] eqn:Hs1.
  destruct (shape3 w2) as [[E2 N2'] K2] eqn:Hs2. simpl.
  split; [| split].
  - intros Hneg. unfold fused_moe. rewrite Hs1.
    unfold _get_sorted_idx, get_start_end, new_empty2, bind.
    rewrite check_shape_neg; [done |]. apply Exists_cons_tl, Exists_cons_hd. done.
  - intros Hne Hneg. unfold fused_moe. rewrite Hs1.
    destruct (get_sorted_idx_run argsort uninit_int Hargsort topk_ids _ tr Hne)
      as (es & ee & Hrun & _).
    rewrite (bind_inr _ _ _ _ _ Hrun).
    rewrite (bind_inl _ _ _ _ _
               (make_intermediate_neg uninit (size0 hidden_states) topk N' _ _
                  (or_intror (or_introl Hneg)))).
    done.
  - intros Hne Htopk.
    destruct (fused_moe_run argsort uninit uninit_int silu_and_mul_row autotune schedule
                Hargsort hidden_states w1 w2 topk_weights topk_ids topk expert_offset
                num_experts renormalize E' N' K1 E2 N2' K2 Hs1 Hs2 tr Htopk Hne)
      as (es & ee & c1 & c2 & _ & _ & _ & _ & _ & Hrun).
    eexists _, _, _. exact Hrun.
Qed.

(** C7, as stated, fails.  A call whose input has two features while the
    experts contract over one returns a tensor; and a call with [topk = -1]
    does raise, but from the buffer allocation, after the segment kernel has
    been launched. *)
Lemma entry_validation_counterexample :
  (size0 (zget wide_hidden 0 []) = 2 /\ snd (shape3 narrow_w1) = 1 /\
   ~ fails_fast (fused_moe stable_argsort zero_uninit junk_uninit_int gate_mul_row
                   first_config in_order wide_hidden narrow_w1 narrow_w2
                   [[qz 1]] [[0]] 1 0 None false) [] /\
   match snd (fused_moe stable_argsort zero_uninit junk_uninit_int gate_mul_row
                first_config in_order wide_hidden narrow_w1 narrow_w2
                [[qz 1]] [[0]] 1 0 None false []) with
   | inr out => map (map this) out = [[90 # 1]]
   | inl _ => False
   end) /\
  (fused_moe stable_argsort zero_uninit junk_uninit_int gate_mul_row
     first_config in_order ex_hidden ex_w1 ex_w2 ex_weights ex_ids (-1) 0 None false []
   = ([EvAlloc [2; 3] false; EvStartEnd 3], inl (NegativeDimension [4; -1; 4])) /\
   ~ fails_fast (fused_moe stable_argsort zero_uninit junk_uninit_int gate_mul_row
                   first_config in_order ex_hidden ex_w1 ex_w2 ex_weights ex_ids
                   (-1) 0 None false) []).
Proof.
  split; [split; [done | split; [done | split]] | split].
  - intros [err H]. vm_compute in H. discriminate H.
  - vm_compute. reflexivity.
  - vm_compute. reflexivity.
  - intros [err H]. vm_compute in H. discriminate H.
Qed.

(** ** The segment table as a function of the assignment *)

Lemma argsort_sumz (argsort : list Z -> list Z) (keys : list Z) (h : Z -> Z) :
  argsort_spec argsort ->
  sumz (arange 0 (size0 keys)) (fun p => h (sorted_key keys (argsort keys) p))
  = sumz keys h.
Proof.
  intros Hargsort. destruct (Hargsort keys) as [Hperm _].
  transitivity (sumz (argsort keys) (fun i => h (zget keys i 0))).
  - transitivity (sumz (map (fun p => zget (argsort keys) p 0) (arange 0 (size0 keys)))
                       (fun i => h (zget keys i 0))); [by rewrite sumz_map |].
    rewrite <- (argsort_size argsort Hargsort keys). by rewrite map_zget_arange.
  - rewrite (sumz_Permutation _ _ _ Hperm).
    rewrite <- (sumz_map (fun i => zget keys i 0) (arange 0 (size0 keys)) h).
    by rewrite map_zget_arange.
Qed.

Lemma sorted_first_count (g : Z -> Z) (len e f0 : Z) :
  (forall p q, 0 <= p <= q -> q < len -> g p <= g q) ->
  0 <= f0 < len -> g f0 = e -> (forall p, 0 <= p < f0 -> g p <> e) ->
  sumz (arange 0 len) (fun p => Z.b2z (g p <? e)) = f0.
Proof.
  intros Hmono Hf0 Hg Hbefore.
  assert (forall n : nat, Z.of_nat n <= len ->
            sumz (arange 0 (Z.of_nat n)) (fun p => Z.b2z (g p <? e))
            = Z.min (Z.of_nat n) f0) as Hinv.
  { induction n as [| n IH]; intros Hn.
    - rewrite arange_nil by lia. simpl. lia.
    - rewrite sumz_snoc, IH by lia.
      destruct (Z.ltb_spec (g (Z.of_nat n)) e) as [Hlt | Hge]; simpl.
      + destruct (Z.lt_ge_cases (Z.of_nat n) f0); [lia |].
        pose proof (Hmono f0 (Z.of_nat n) ltac:(lia) ltac:(lia)). lia.
      + destruct (Z.lt_ge_cases (Z.of_nat n) f0) as [Hlo |]; [| lia].
        pose proof (Hmono (Z.of_nat n) f0 ltac:(lia) ltac:(lia)).
        pose proof (Hbefore (Z.of_nat n) ltac:(lia)). lia. }
  specialize (Hinv (Z.to_nat len) ltac:(lia)). rewrite Z2Nat.id in Hinv by lia. lia.
Qed.

Lemma list_by_index (l : list Z) (n : Z) (f : Z -> Z) :
  size0 l = n -> (forall i, 0 <= i < n -> zget l i 0 = f i) -> l = map f (arange 0 n).
Proof.
  intros Hn Hf. rewrite <- (map_zget_arange l 0) at 1. rewrite Hn.
  apply map_ext_in. intros i Hi.
  apply (list_elem_of_In (arange 0 n) i), elem_of_arange in Hi. by apply Hf.
Qed.

(** C5, as the code has it.  Whatever permutation [argsort] returns within
    its contract, [sorted_idx] is a permutation of the flat indices that
    lists them by ascending expert id; the order among equal ids is
    [argsort]'s choice.  The segment bounds do not depend on that choice:
    an expert that occurs starts at the number of assignments with a smaller
    id and spans as many positions as it has assignments, an expert that
    does not occur gets 0 and 0. *)
Theorem sorted_idx_ascending
    (argsort : list Z -> list Z) (uninit_int : nat -> Z -> Z -> Z)
    (topk_ids : list (list Z)) (E : Z) (tr : list event) :
  argsort_spec argsort -> 0 <= E ->
  let keys := concat topk_ids in
  let L := size0 keys in
  let start := fun e => if 0 <? count_id e keys then count_lt e keys else 0 in
  exists sorted_idx tr',
    _get_sorted_idx argsort uninit_int topk_ids E tr
    = (tr', inr (sorted_idx,
                 map start (arange 0 E),
                 map (fun e => start e + count_id e keys) (arange 0 E))) /\
    sorted_idx ≡ₚ arange 0 L /\
    (forall p q, 0 <= p <= q -> q < L ->
       sorted_key keys sorted_idx p <= sorted_key keys sorted_idx q).
Proof.
  intros Hargsort HE keys L start.
  destruct (get_sorted_idx_run argsort uninit_int Hargsort topk_ids E tr HE)
    as (es & ee & Hrun & Hseg).
  fold keys L in Hrun, Hseg.
  set (g := sorted_key keys (argsort keys)) in *.
  pose proof (argsort_mono argsort Hargsort keys) as Hmono. fold L g in Hmono.
  destruct Hseg as (Hs1 & Hs2 & Htab).
  assert (forall e, 0 <= e < E -> zget es e 0 = start e) as Hstart.
  { intros e He. destruct (Htab e He) as (H0 & Hend & HL & Hz & Hiff).
    unfold start. rewrite <- (argsort_count argsort Hargsort keys e). fold L g.
    destruct (Z.ltb_spec 0 (occ g e L)) as [Hpos | Hzero].
    - unfold count_lt. rewrite <- (argsort_sumz argsort keys _ Hargsort). fold L g.
      symmetry. apply sorted_first_count; [done | lia | |].
      + apply Hiff; lia.
      + intros p Hp Hgp. apply Hiff in Hgp; lia.
    - apply Hz. pose proof (occ_nonneg g e L). lia. }
  assert (es = map start (arange 0 E)) as Hes by (by apply list_by_index).
  assert (ee = map (fun e => start e + count_id e keys) (arange 0 E)) as Hee.
  { apply list_by_index; [done |]. intros e He.
    destruct (Htab e He) as (_ & Hend & _).
    rewrite Hend, (Hstart e He). f_equal. apply (argsort_count argsort Hargsort keys). }
  eexists (argsort keys), _. rewrite <- Hes, <- Hee.
  split; [exact Hrun |]. split; [apply Hargsort | exact Hmono].
Qed.

(** C5, as stated, fails.  [reversing_argsort] meets the contract of
    [argsort], and on two slots of one expert it lists flat index 1 before
    flat index 0. *)
Lemma stable_order_counterexample :
  argsort_spec reversing_argsort /\
  exists sorted_idx exp_start exp_end tr',
    _get_sorted_idx reversing_argsort junk_uninit_int [[0; 0]] 1 []
    = (tr', inr (sorted_idx, exp_start, exp_end)) /\
    exists j j', 0 <= j < j' /\ j' < size0 sorted_idx /\
      sorted_key [0; 0] sorted_idx j = sorted_key [0; 0] sorted_idx j' /\
      ~ (zget sorted_idx j 0 < zget sorted_idx j' 0).
Proof.
  split; [apply reversing_argsort_spec |].
  exists [1; 0], [0], [2], [EvAlloc [2; 1] false; EvStartEnd 1].
  split; [by vm_compute |].
  exists 0, 1. vm_compute. repeat split; done.
Qed.

(** C3. Every launch runs [cdiv(max(64, next_power_of_2(num_tokens)),
    BLOCK_SIZE_M)] row tiles per expert.  Every store of a program goes to
    the row of a position of its expert's segment that lies in the program's
    own row tile, so a row is written from exactly one row tile; a segment
    no longer than [max(64, next_power_of_2(num_tokens))] is written in
    full, which distinct expert ids per token guarantee; and with one token
    naming the same expert in 129 slots, position 128 of the segment is
    written by no program, under any configuration of the autotuner. *)
Theorem launcher_row_tiles
    (autotune : Z -> Z -> Z -> Config) (schedule : list store -> list store)
    (A : tensor2) (B : tensor3) (C : tensor2) (SI es ee : list Z) (weights : tensor2)
    (ew : bool) (top_k : Z) (num_tokens : option Z) (off : Z) (ra rc : bool)
    (tr : list event) :
  let nt := match num_tokens with None => size0 A | Some n => n end in
  let M_NP2 := Z.max 64 (next_power_of_2 nt) in
  let E := fst (fst (shape3 B)) in
  let N := snd (fst (shape3 B)) in
  let K := snd (shape3 B) in
  let cfg := autotune N K M_NP2 in
  let BM := BLOCK_SIZE_M cfg in
  let row_tiles := cdiv M_NP2 BM in
  let col_tiles := cdiv N (BLOCK_SIZE_N cfg) in
  let kernel := fused_moe_kernel A B SI es ee (concat weights) N K cfg M_NP2
                  ew top_k off ra rc in
  autotune_spec autotune ->
  (* the launch *)
  fused_moe_kernel_launcher autotune schedule A B C SI es ee weights ew top_k
    num_tokens off ra rc tr
  = (tr ++ [EvFusedMoe cfg ew top_k nt off ra rc],
     inr (apply_stores
            (schedule
               (concat (map (fun '(e, pid) => kernel pid e)
                            (list_prod (arange 0 E) (arange 0 (row_tiles * col_tiles))))))
            C)) /\
  (* its row tiles *)
  (forall pid, 0 <= pid < row_tiles * col_tiles ->
     0 <= fst (tile_coords N cfg M_NP2 pid) < row_tiles) /\
  (forall pm pn, 0 <= pm < row_tiles -> 0 <= pn < col_tiles ->
     exists pid, 0 <= pid < row_tiles * col_tiles /\
                 tile_coords N cfg M_NP2 pid = (pm, pn)) /\
  (* what a program stores *)
  (forall pid e (s : store), 0 <= pid -> s ∈ kernel pid e ->
     exists p, zget es (e + off) 0 <= p < zget ee (e + off) 0 /\
               p < zget es (e + off) 0 + row_tiles * BM /\
               fst (fst s) = dest_row SI rc p /\
               fst (tile_coords N cfg M_NP2 pid) = (p - zget es (e + off) 0) / BM) /\
  (* a segment that fits is written in full *)
  (forall e p n,
     zget es (e + off) 0 <= p < zget ee (e + off) 0 ->
     zget ee (e + off) 0 - zget es (e + off) 0 <= M_NP2 -> 0 <= n < N ->
     exists pid, 0 <= pid < row_tiles * col_tiles /\
       fst (tile_coords N cfg M_NP2 pid) = (p - zget es (e + off) 0) / BM /\
       (dest_row SI rc p, n,
        proj_value A B SI (concat weights) K ew top_k ra e p n) ∈ kernel pid e) /\
  (* distinct ids per token make every segment of the table fit *)
  (forall argsort uninit_int (topk_ids : list (list Z)) ne tr0 tr1 sorted_idx exp_start exp_end,
     argsort_spec argsort -> size0 topk_ids = nt -> Forall NoDup topk_ids ->
     _get_sorted_idx argsort uninit_int topk_ids ne tr0
     = (tr1, inr (sorted_idx, exp_start, exp_end)) ->
     forall e, 0 <= e < ne ->
       zget exp_end e 0 - zget exp_start e 0 = count_id e (concat topk_ids) /\
       zget exp_end e 0 - zget exp_start e 0 <= M_NP2) /\
  (* one token, 129 slots, all for expert 0 *)
  (_get_sorted_idx stable_argsort junk_uninit_int [replicate 129 0] 1 []
   = ([EvAlloc [2; 1] false; EvStartEnd 1], inr (arange 0 129, [0], [129])) /\
   Z.max 64 (next_power_of_2 1) = 64 /\
   forall s : store,
     s ∈ launch_stores [[qz 1]] [[[qz 1]]] (arange 0 129) [0] [129]
           [replicate 129 (qz 1)] (autotune 1 1 64) 64 false 129 0 true false ->
     fst (fst s) <> 128).
Proof.
  intros nt M_NP2 E N K cfg BM row_tiles col_tiles kernel Hauto.
  pose proof (autotune_config_ok autotune N K M_NP2 Hauto) as (HGM & HBM & HBN & HBK).
  fold cfg in HGM, HBM, HBN, HBK.
  assert (0 < M_NP2) as HNP2 by (unfold M_NP2; lia).
  assert (0 <= K) as HK by (unfold K, shape3, size0; simpl; lia).
  split; [| split; [| split; [| split; [| split; [| split]]]]].
  - unfold fused_moe_kernel_launcher, launch_stores, launch_grid.
    unfold kernel, row_tiles, col_tiles, BM, cfg, M_NP2, nt, E, N, K.
    destruct (shape3 B) as [[E' N'] K']. simpl. destruct num_tokens; done.
  - intros pid Hpid.
    destruct (tile_coords_ungrouped N cfg M_NP2 HGM HBM HNP2 pid ltac:(lia)) as [-> Hr].
    done.
  - intros pm pn Hpm Hpn.
    destruct (tile_coords_onto N cfg M_NP2 HGM HBM HNP2 pm pn Hpm Hpn) as [Hr Htc].
    eexists. split; [exact Hr | exact Htc].
  - intros pid e s Hpid Hs.
    by apply (kernel_stores_row_tile A B SI es ee (concat weights) N K cfg M_NP2 ew top_k
                off ra rc HGM HBM HNP2 pid e s Hpid).
  - intros e p n Hp Hfit Hn.
    pose proof (cdiv_covers M_NP2 BM HBM) as Hcov. fold row_tiles in Hcov.
    destruct (kernel_stores_complete A B SI es ee (concat weights) N K cfg M_NP2 ew top_k
                off ra rc HGM HBM HBN HBK HK HNP2 e p n Hp ltac:(fold BM row_tiles; lia) Hn)
      as [Hpid Hstore].
    eexists. split; [exact Hpid |]. split; [| exact Hstore].
    destruct (tile_coords_ungrouped N cfg M_NP2 HGM HBM HNP2 _ (proj1 Hpid)) as [-> _].
    simpl. fold BM row_tiles.
    assert (0 < row_tiles) by (apply cdiv_pos; lia).
    assert (0 <= (p - zget es (e + off) 0) / BM < row_tiles).
    { split; [apply Z.div_pos; lia |]. apply Z.div_lt_upper_bound; lia. }
    rewrite Z.add_comm, Z_mod_plus_full. apply Z.mod_small. lia.
  - intros argsort uninit_int topk_ids ne tr0 tr1 sorted_idx exp_start exp_end
      Hargsort Hsz Hnd Hrun e He.
    destruct (get_sorted_idx_run argsort uninit_int Hargsort topk_ids ne tr0 ltac:(lia))
      as (es' & ee' & Hrun' & _ & _ & Htab).
    rewrite Hrun' in Hrun. inversion Hrun; subst.
    destruct (Htab e He) as (_ & Hend & _).
    rewrite (argsort_count argsort Hargsort (concat topk_ids)) in Hend.
    pose proof (count_id_distinct_rows e topk_ids Hnd).
    assert (0 <= nt) by (rewrite <- Hsz; unfold size0; lia).
    pose proof (next_power_of_2_ge nt ltac:(lia)). unfold M_NP2. lia.
  - split; [by vm_compute |]. split; [done |].
    intros s Hs.
    set (cfg' := autotune 1 1 64) in *.
    pose proof (autotune_config_ok autotune 1 1 64 Hauto) as (HGM' & HBM' & HBN' & HBK').
    fold cfg' in HGM', HBM', HBN', HBK'.
    assert (cdiv 64 (BLOCK_SIZE_M cfg') * BLOCK_SIZE_M cfg' <= 128) as Htiles.
    { pose proof (Hauto 1 1 64) as Hin. fold cfg' in Hin.
      unfold get_cuda_autotune_config in Hin.
      repeat (apply elem_of_cons in Hin as [-> | Hin]; [by vm_compute |]).
      by apply elem_of_nil in Hin. }
    apply (elem_of_launch_stores [[qz 1]] [[[qz 1]]] _ _ _ _ _ _ _ _ _ _ _ 1 1 1 eq_refl)
      in Hs as (e & pid & He & Hpid & Hs).
    apply (kernel_stores_row_tile _ _ _ _ _ _ _ _ _ 64 _ _ _ _ _ HGM' HBM' eq_refl)
      in Hs as (p & Hp & Hbound & Hrow & _); [| lia].
    rewrite Hrow. unfold dest_row.
    assert (zget [0] (e + 0) 0 = 0) as Hz.
    { unfold zget. destruct (e + 0 <? 0); [done |].
      by destruct (Z.to_nat (e + 0)) as [| [| ?]]. }
    rewrite Hz in Hbound. lia.
Qed.

(** * The theorems at concrete operands *)

Lemma gate_mul_row_width (row : list Qc) :
  size0 row = 4 -> size0 (gate_mul_row row) = 2.
Proof.
  unfold size0. intros H.
  destruct row as [| a [| b [| c [| d [| e row]]]]]; simpl in H; try lia.
  reflexivity.
Qed.

Lemma ex_valid_call : valid_call gate_mul_row ex_hidden ex_w1 ex_w2 ex_weights ex_ids 2.
Proof.
  unfold valid_call.
  change (shape3 ex_w1) with (3, 4, 8). change (shape3 ex_w2) with (3, 8, 2).
  change (size0 ex_hidden) with 4. unfold rect, cube.
  repeat split; try lia; try exact gate_mul_row_width; compute_done.
Qed.

(** The fused result on the example, evaluated. *)
Example fused_moe_example :
  match snd (fused_moe reversing_argsort junk_uninit junk_uninit_int gate_mul_row
               second_config reverse ex_hidden ex_w1 ex_w2 ex_weights ex_ids
               2 0 None false []) with
  | inr out => map (map this) out
               = map (map this) (naive_moe gate_mul_row ex_hidden ex_w1 ex_w2 ex_weights ex_ids)
  | inl _ => False
  end.
Proof. vm_compute. reflexivity. Qed.

Lemma fused_moe_matches_naive_witness :
  (argsort_spec stable_argsort /\ autotune_spec first_config /\ schedule_spec reverse /\
   valid_call gate_mul_row ex_hidden ex_w1 ex_w2 ex_weights ex_ids 2) /\
  snd (fused_moe stable_argsort junk_uninit junk_uninit_int gate_mul_row first_config reverse
         ex_hidden ex_w1 ex_w2 ex_weights ex_ids 2 0 None false [])
  = inr (naive_moe gate_mul_row ex_hidden ex_w1 ex_w2 ex_weights ex_ids).
Proof.
  split.
  - split; [exact stable_argsort_spec |]. split; [exact first_config_spec |].
    split; [exact reverse_spec | exact ex_valid_call].
  - apply fused_moe_matches_naive;
      [exact stable_argsort_spec | exact first_config_spec | exact reverse_spec
       | exact ex_valid_call].
Defined.

Lemma sorted_idx_partition_witness :
  let argsort := stable_argsort in
  let uninit_int := junk_uninit_int in
  let topk_ids := ex_ids in
  let E := 3 in
  let tr := @nil event in
  (argsort_spec argsort /\ 0 <= E) /\
  let keys := concat topk_ids in
  let L := size0 keys in
  exists sorted_idx exp_start exp_end tr',
    _get_sorted_idx argsort uninit_int topk_ids E tr
    = (tr', inr (sorted_idx, exp_start, exp_end)) /\
    sorted_idx ≡ₚ arange 0 L /\
    size0 exp_start = E /\ size0 exp_end = E /\
    (forall e, 0 <= e < E ->
       0 <= zget exp_start e 0 /\ zget exp_start e 0 <= zget exp_end e 0 /\
       zget exp_end e 0 <= L /\
       zget exp_end e 0 - zget exp_start e 0 = count_id e keys /\
       forall p, 0 <= p < L ->
         (zget exp_start e 0 <= p < zget exp_end e 0 <-> sorted_key keys sorted_idx p = e)) /\
    (Forall (fun id => 0 <= id < E) keys ->
     forall p, 0 <= p < L ->
       exists e, 0 <= e < E /\ zget exp_start e 0 <= p < zget exp_end e 0 /\
                 forall e', 0 <= e' < E -> zget exp_start e' 0 <= p < zget exp_end e' 0 ->
                            e' = e) /\
    (forall e, 0 <= e < E -> count_id e keys = 0 ->
       zget exp_start e 0 = 0 /\ zget exp_end e 0 = 0).
Proof.
  intros argsort uninit_int topk_ids E tr.
  assert (0 <= E) as HE by (unfold E; lia).
  split; [split; [exact stable_argsort_spec | exact HE] |].
  exact (sorted_idx_partition argsort uninit_int topk_ids E tr stable_argsort_spec HE).
Defined.

Lemma sorted_idx_ascending_witness :
  let argsort := reversing_argsort in
  let uninit_int := junk_uninit_int in
  let topk_ids := ex_ids in
  let E := 4 in
  let tr := @nil event in
  (argsort_spec argsort /\ 0 <= E) /\
  let keys := concat topk_ids in
  let L := size0 keys in
  let start := fun e => if 0 <? count_id e keys then count_lt e keys else 0 in
  exists sorted_idx tr',
    _get_sorted_idx argsort uninit_int topk_ids E tr
    = (tr', inr (sorted_idx,
                 map start (arange 0 E),
                 map (fun e => start e + count_id e keys) (arange 0 E))) /\
    sorted_idx ≡ₚ arange 0 L /\
    (forall p q, 0 <= p <= q -> q < L ->
       sorted_key keys sorted_idx p <= sorted_key keys sorted_idx q).
Proof.
  intros argsort uninit_int topk_ids E tr.
  assert (0 <= E) as HE by (unfold E; lia).
  split; [split; [exact reversing_argsort_spec | exact HE] |].
  exact (sorted_idx_ascending argsort uninit_int topk_ids E tr reversing_argsort_spec HE).
Defined.

Lemma empty_segment_no_effect_witness :
  let ExpStart := [0; 3; 6; 0] in
  let ExpEnd := [3; 6; 8; 0] in
  let expert_offset := 1 in
  let exp_id := 2 in
  zget ExpEnd (exp_id + expert_offset) 0 - zget ExpStart (exp_id + expert_offset) 0 <= 0 /\
  forall (A : tensor2) (B : tensor3) (SortedIdx : list Z) (Weights : list Qc)
         (N K : Z) (cfg : Config) (M_NP2 : Z) (ENABLE_WEIGHTS : bool) (top_k : Z)
         (reindex_a reindex_c : bool) (pid : Z) (C : tensor2),
    fused_moe_kernel A B SortedIdx ExpStart ExpEnd Weights N K cfg M_NP2
      ENABLE_WEIGHTS top_k expert_offset reindex_a reindex_c pid exp_id = [] /\
    apply_stores
      (fused_moe_kernel A B SortedIdx ExpStart ExpEnd Weights N K cfg M_NP2
         ENABLE_WEIGHTS top_k expert_offset reindex_a reindex_c pid exp_id) C = C /\
    fused_moe_kernel A B SortedIdx ExpStart ExpEnd Weights N K cfg M_NP2
      ENABLE_WEIGHTS top_k expert_offset reindex_a reindex_c pid exp_id
    = fused_moe_kernel [] [] [] ExpStart ExpEnd [] N K cfg M_NP2
        ENABLE_WEIGHTS top_k expert_offset reindex_a reindex_c pid exp_id.
Proof.
  intros ExpStart ExpEnd expert_offset exp_id.
  assert (zget ExpEnd (exp_id + expert_offset) 0
          - zget ExpStart (exp_id + expert_offset) 0 <= 0) as Hempty by (vm_compute; discriminate).
  split; [exact Hempty |].
  exact (empty_segment_no_effect ExpStart ExpEnd expert_offset exp_id Hempty).
Defined.

Lemma ex_weights_nonzero : Forall (fun row => vsum row <> 0%Qc) ex_weights.
Proof.
  repeat constructor; intros H; apply (f_equal this) in H; vm_compute in H; discriminate H.
Qed.

Lemma renormalize_idempotent_witness :
  Forall (fun row => vsum row <> 0%Qc) ex_weights /\
  Forall (fun row => vsum row = 1%Qc) (_renormalize ex_weights true) /\
  _renormalize (_renormalize ex_weights true) true = _renormalize ex_weights true.
Proof.
  split; [exact ex_weights_nonzero |].
  exact (renormalize_idempotent ex_weights ex_weights_nonzero).
Defined.

Lemma intermediate_zero_fill_witness :
  let argsort := stable_argsort in
  let uninit := junk_uninit in
  let uninit_int := junk_uninit_int in
  let silu_and_mul_row := gate_mul_row in
  let autotune := first_config in
  let schedule := in_order in
  let hidden_states := ex_hidden in
  let w1 := ex_w1 in
  let w2 := ex_w2 in
  let topk_weights := ex_weights in
  let topk_ids := ex_ids in
  let topk := 2 in
  let expert_offset := 0 in
  let num_experts := Some 4 in
  let renormalize := false in
  let tr := @nil event in
  let M := size0 hidden_states in
  let E := fst (fst (shape3 w1)) in
  let N := snd (fst (shape3 w1)) in
  let N2 := snd (fst (shape3 w2)) in
  let ne := match num_experts with None => E | Some n => n end in
  let W := _renormalize topk_weights renormalize in
  let SI := argsort (concat topk_ids) in
  let M_NP2 := Z.max 64 (next_power_of_2 M) in
  let n0 := length (List.filter is_alloc tr) in
  (argsort_spec argsort /\ 0 <= topk /\ 0 <= ne) /\
  exists es ee c1 c2 cfg1 cfg2,
    let C1 := apply_stores
                (schedule (launch_stores hidden_states w1 SI es ee W cfg1 M_NP2
                             false topk expert_offset true false)) (flatten c1) in
    let gate := flatten (unflatten M topk (silu_and_mul silu_and_mul_row C1)) in
    let C2 := apply_stores
                (schedule (launch_stores gate w2 SI es ee W cfg2 M_NP2
                             true 1 expert_offset false true)) (flatten c2) in
    fused_moe argsort uninit uninit_int silu_and_mul_row autotune schedule
      hidden_states w1 w2 topk_weights topk_ids topk expert_offset num_experts renormalize tr
    = (tr ++ [EvAlloc [2; ne] false; EvStartEnd ne;
              EvAlloc [M; topk; N] (negb (ne =? E));
              EvFusedMoe cfg1 false topk M expert_offset true false;
              EvAlloc [M; topk; N2] (negb (ne =? E));
              EvFusedMoe cfg2 true 1 M expert_offset false true],
       inr (sum_dim1 N2 (unflatten M topk C2))) /\
    cube M topk N c1 /\ cube M topk N2 c2 /\
    (negb (ne =? E) = true <-> ne <> E) /\
    (num_experts = None -> negb (ne =? E) = false) /\
    (ne <> E ->
       (forall i j k, get3 c1 i j k = 0%Qc) /\ (forall i j k, get3 c2 i j k = 0%Qc)) /\
    (ne = E ->
       (forall i j k, 0 <= i < M -> 0 <= j < topk -> 0 <= k < N ->
          get3 c1 i j k = uninit (S n0) i j k) /\
       (forall i j k, 0 <= i < M -> 0 <= j < topk -> 0 <= k < N2 ->
          get3 c2 i j k = uninit (S (S n0)) i j k)).
Proof.
  intros argsort uninit uninit_int silu_and_mul_row autotune schedule hidden_states w1 w2
    topk_weights topk_ids topk expert_offset num_experts renormalize tr.
  intros M E N N2 ne W SI M_NP2 n0.
  assert (0 <= topk) as Htopk by (unfold topk; lia).
  assert (0 <= ne) as Hne by (vm_compute; discriminate).
  split; [split; [exact stable_argsort_spec | split; [exact Htopk | exact Hne]] |].
  exact (intermediate_zero_fill argsort uninit uninit_int silu_and_mul_row autotune schedule
           hidden_states w1 w2 topk_weights topk_ids topk expert_offset num_experts
           renormalize tr stable_argsort_spec Htopk Hne).
Defined.

Lemma two_pass_structure_witness :
  let argsort := reversing_argsort in
  let uninit := junk_uninit in
  let uninit_int := junk_uninit_int in
  let silu_and_mul_row := gate_mul_row in
  let autotune := second_config in
  let schedule := reverse in
  let hidden_states := ex_hidden in
  let w1 := ex_w1 in
  let w2 := ex_w2 in
  let topk_weights := ex_weights in
  let topk_ids := ex_ids in
  let topk := 2 in
  let expert_offset := 0 in
  let num_experts := @None Z in
  let renormalize := true in
  let tr := @nil event in
  let M := size0 hidden_states in
  let E := fst (fst (shape3 w1)) in
  let N := snd (fst (shape3 w1)) in
  let K1 := snd (shape3 w1) in
  let E2 := fst (fst (shape3 w2)) in
  let N2 := snd (fst (shape3 w2)) in
  let K2 := snd (shape3 w2) in
  let ne := match num_experts with None => E | Some n => n end in
  let W := _renormalize topk_weights renormalize in
  let keys := concat topk_ids in
  let SI := argsort keys in
  let L := size0 keys in
  let M_NP2 := Z.max 64 (next_power_of_2 M) in
  (argsort_spec argsort /\ autotune_spec autotune /\ 0 <= topk /\ 0 <= ne) /\
  exists es ee c1 c2 cfg1 cfg2,
    let pass1 := launch_stores hidden_states w1 SI es ee W cfg1 M_NP2
                   false topk expert_offset true false in
    let C1 := apply_stores (schedule pass1) (flatten c1) in
    let gate := flatten (unflatten M topk (silu_and_mul silu_and_mul_row C1)) in
    let pass2 := launch_stores gate w2 SI es ee W cfg2 M_NP2
                   true 1 expert_offset false true in
    let C2 := apply_stores (schedule pass2) (flatten c2) in
    fused_moe argsort uninit uninit_int silu_and_mul_row autotune schedule
      hidden_states w1 w2 topk_weights topk_ids topk expert_offset num_experts renormalize tr
    = (tr ++ [EvAlloc [2; ne] false; EvStartEnd ne;
              EvAlloc [M; topk; N] (negb (ne =? E));
              EvFusedMoe cfg1 false topk M expert_offset true false;
              EvAlloc [M; topk; N2] (negb (ne =? E));
              EvFusedMoe cfg2 true 1 M expert_offset false true],
       inr (sum_dim1 N2 (unflatten M topk C2))) /\
    (forall s : store, s ∈ pass1 ->
       exists e p n, 0 <= e < E /\ 0 <= p < L /\
         sorted_key keys SI p = e + expert_offset /\ 0 <= n < N /\
         s = (p, n,
              sumq (arange 0 K1)
                   (fun x => (get2 hidden_states (Z.quot (zget SI p 0%Z) topk) x
                              * get3 w1 e n x)%Qc))) /\
    (forall s : store, s ∈ pass2 ->
       exists e p n, 0 <= e < E2 /\ 0 <= p < L /\
         sorted_key keys SI p = e + expert_offset /\ 0 <= n < N2 /\
         s = (zget SI p 0, n,
              (sumq (arange 0 K2) (fun x => (get2 gate p x * get3 w2 e n x)%Qc)
               * zget (concat W) (zget SI p 0%Z) 0)%Qc)).
Proof.
  intros argsort uninit uninit_int silu_and_mul_row autotune schedule hidden_states w1 w2
    topk_weights topk_ids topk expert_offset num_experts renormalize tr.
  intros M E N K1 E2 N2 K2 ne W keys SI L M_NP2.
  assert (0 <= topk) as Htopk by (unfold topk; lia).
  assert (0 <= ne) as Hne by (vm_compute; discriminate).
  split; [split; [exact reversing_argsort_spec
                 | split; [exact second_config_spec | split; [exact Htopk | exact Hne]]] |].
  exact (two_pass_structure argsort uninit uninit_int silu_and_mul_row autotune schedule
           hidden_states w1 w2 topk_weights topk_ids topk expert_offset num_experts
           renormalize tr reversing_argsort_spec second_config_spec Htopk Hne).
Defined.

Lemma fused_moe_errors_witness :
  let argsort := stable_argsort in
  let uninit := junk_uninit in
  let uninit_int := junk_uninit_int in
  let silu_and_mul_row := gate_mul_row in
  let autotune := first_config in
  let schedule := in_order in
  let hidden_states := wide_hidden in
  let w1 := narrow_w1 in
  let w2 := narrow_w2 in
  let topk_weights := [[qz 1]] in
  let topk_ids := [[0]] in
  let topk := 1 in
  let expert_offset := 0 in
  let num_experts := @None Z in
  let renormalize := false in
  let tr := @nil event in
  let M := size0 hidden_states in
  let E := fst (fst (shape3 w1)) in
  let N := snd (fst (shape3 w1)) in
  let N2 := snd (fst (shape3 w2)) in
  let ne := match num_experts with None => E | Some n => n end in
  let call := fused_moe argsort uninit uninit_int silu_and_mul_row autotune schedule
                hidden_states w1 w2 topk_weights topk_ids topk expert_offset
                num_experts renormalize in
  argsort_spec argsort /\
  (ne < 0 -> call tr = (tr, inl (NegativeDimension [2; ne]))) /\
  (0 <= ne -> topk < 0 ->
   call tr = (tr ++ [EvAlloc [2; ne] false; EvStartEnd ne],
              inl (NegativeDimension [M; topk; N]))) /\
  (0 <= ne -> 0 <= topk ->
   exists cfg1 cfg2 out,
     call tr = (tr ++ [EvAlloc [2; ne] false; EvStartEnd ne;
                       EvAlloc [M; topk; N] (negb (ne =? E));
                       EvFusedMoe cfg1 false topk M expert_offset true false;
                       EvAlloc [M; topk; N2] (negb (ne =? E));
                       EvFusedMoe cfg2 true 1 M expert_offset false true],
                inr out)).
Proof.
  intros argsort uninit uninit_int silu_and_mul_row autotune schedule hidden_states w1 w2
    topk_weights topk_ids topk expert_offset num_experts renormalize tr.
  intros M E N N2 ne call.
  split; [exact stable_argsort_spec |].
  exact (fused_moe_errors argsort uninit uninit_int silu_and_mul_row autotune schedule
           hidden_states w1 w2 topk_weights topk_ids topk expert_offset num_experts
           renormalize tr stable_argsort_spec).
Defined.

Lemma launcher_row_tiles_witness :
  let autotune := second_config in
  let schedule := in_order in
  let A := ex_hidden in
  let B := ex_w1 in
  let C := replicate 8 (replicate 4 (qz 0)) in
  let SI := [0; 3; 6; 2; 5; 7; 1; 4] in
  let es := [0; 3; 6] in
  let ee := [3; 6; 8] in
  let weights := ex_weights in
  let ew := false in
  let top_k := 2 in
  let num_tokens := @None Z in
  let off := 0 in
  let ra := true in
  let rc := false in
  let tr := @nil event in
  let nt := match num_tokens with None => size0 A | Some n => n end in
  let M_NP2 := Z.max 64 (next_power_of_2 nt) in
  let E := fst (fst (shape3 B)) in
  let N := snd (fst (shape3 B)) in
  let K := snd (shape3 B) in
  let cfg := autotune N K M_NP2 in
  let BM := BLOCK_SIZE_M cfg in
  let row_tiles := cdiv M_NP2 BM in
  let col_tiles := cdiv N (BLOCK_SIZE_N cfg) in
  let kernel := fused_moe_kernel A B SI es ee (concat weights) N K cfg M_NP2
                  ew top_k off ra rc in
  autotune_spec autotune /\
  fused_moe_kernel_launcher autotune schedule A B C SI es ee weights ew top_k
    num_tokens off ra rc tr
  = (tr ++ [EvFusedMoe cfg ew top_k nt off ra rc],
     inr (apply_stores
            (schedule
               (concat (map (fun '(e, pid) => kernel pid e)
                            (list_prod (arange 0 E) (arange 0 (row_tiles * col_tiles))))))
            C)) /\
  (forall pid, 0 <= pid < row_tiles * col_tiles ->
     0 <= fst (tile_coords N cfg M_NP2 pid) < row_tiles) /\
  (forall pm pn, 0 <= pm < row_tiles -> 0 <= pn < col_tiles ->
     exists pid, 0 <= pid < row_tiles * col_tiles /\
                 tile_coords N cfg M_NP2 pid = (pm, pn)) /\
  (forall pid e (s : store), 0 <= pid -> s ∈ kernel pid e ->
     exists p, zget es (e + off) 0 <= p < zget ee (e + off) 0 /\
               p < zget es (e + off) 0 + row_tiles * BM /\
               fst (fst s) = dest_row SI rc p /\
               fst (tile_coords N cfg M_NP2 pid) = (p - zget es (e + off) 0) / BM) /\
  (forall e p n,
     zget es (e + off) 0 <= p < zget ee (e + off) 0 ->
     zget ee (e + off) 0 - zget es (e + off) 0 <= M_NP2 -> 0 <= n < N ->
     exists pid, 0 <= pid < row_tiles * col_tiles /\
       fst (tile_coords N cfg M_NP2 pid) = (p - zget es (e + off) 0) / BM /\
       (dest_row SI rc p, n,
        proj_value A B SI (concat weights) K ew top_k ra e p n) ∈ kernel pid e) /\
  (forall argsort uninit_int (topk_ids : list (list Z)) ne tr0 tr1 sorted_idx exp_start exp_end,
     argsort_spec argsort -> size0 topk_ids = nt -> Forall NoDup topk_ids ->
     _get_sorted_idx argsort uninit_int topk_ids ne tr0
     = (tr1, inr (sorted_idx, exp_start, exp_end)) ->
     forall e, 0 <= e < ne ->
       zget exp_end e 0 - zget exp_start e 0 = count_id e (concat topk_ids) /\
       zget exp_end e 0 - zget exp_start e 0 <= M_NP2) /\
  (_get_sorted_idx stable_argsort junk_uninit_int [replicate 129 0] 1 []
   = ([EvAlloc [2; 1] false; EvStartEnd 1], inr (arange 0 129, [0], [129])) /\
   Z.max 64 (next_power_of_2 1) = 64 /\
   forall s : store,
     s ∈ launch_stores [[qz 1]] [[[qz 1]]] (arange 0 129) [0] [129]
           [replicate 129 (qz 1)] (autotune 1 1 64) 64 false 129 0 true false ->
     fst (fst s) <> 128).
Proof.
  intros autotune schedule A B C SI es ee weights ew top_k num_tokens off ra rc tr.
  intros nt M_NP2 E N K cfg BM row_tiles col_tiles kernel.
  split; [exact second_config_spec |].
  exact (launcher_row_tiles autotune schedule A B C SI es ee weights ew top_k num_tokens
           off ra rc tr second_config_spec).
Defined.
(** * Further properties of the code *)

(** ** The grouped tile mapping *)

Section Tiles.
Variables (N : Z) (cfg : Config) (M_NP2 : Z).
Hypothesis HGM : 0 < GROUP_SIZE_M cfg.
Hypothesis HBM : 0 < BLOCK_SIZE_M cfg.
Hypothesis HNP2 : 0 < M_NP2.

Let npm := cdiv M_NP2 (BLOCK_SIZE_M cfg).
Let npn := cdiv N (BLOCK_SIZE_N cfg).
Let G := GROUP_SIZE_M cfg.

Lemma npm_pos : 0 < npm.
Proof. by apply cdiv_pos. Qed.

(** The band a program falls into: its first row tile lies inside the
    grid, so the band is never empty. *)
Lemma group_first pid :
  0 <= pid < npm * npn ->
  0 < npn /\ 0 <= pid / (G * npn) /\ pid / (G * npn) * G < npm.
Proof.
  intros Hpid. pose proof npm_pos as Hnpm.
  assert (0 < npn) as Hnpn by nia.
  assert (0 < G * npn) as HW by (unfold G; nia).
  pose proof (Z.div_pos pid (G * npn) ltac:(lia) HW) as Hg.
  pose proof (Z.mul_div_le pid (G * npn) HW) as Hle.
  split; [done |]. split; [done |]. nia.
Qed.

Lemma tile_coords_grouped pid :
  0 <= pid < npm * npn -> G <> 1 ->
  let g := pid / (G * npn) in
  let gs := Z.min (npm - g * G) G in
  0 < gs /\
  tile_coords N cfg M_NP2 pid = (g * G + pid mod gs, pid mod (G * npn) / gs).
Proof.
  intros Hpid HG g gs. destruct (group_first pid Hpid) as (Hnpn & Hg & Hfirst).
  fold g in Hg, Hfirst.
  assert (0 < gs) as Hgs by (unfold gs, G; lia).
  split; [done |].
  unfold tile_coords. fold npm npn G.
  destruct (Z.eqb_spec G 1) as [| _]; [done |].
  assert (0 < G * npn) as HW by (unfold G; nia).
  rewrite (Z.quot_div_nonneg pid (G * npn)) by lia. fold g. fold gs.
  rewrite (Z.rem_mod_nonneg pid gs) by lia.
  rewrite (Z.rem_mod_nonneg pid (G * npn)) by lia.
  rewrite Z.quot_div_nonneg; [done | | done].
  apply Z.mod_pos_bound. lia.
Qed.

Lemma tile_coords_range pid :
  0 <= pid < npm * npn ->
  0 <= fst (tile_coords N cfg M_NP2 pid) < npm /\
  0 <= snd (tile_coords N cfg M_NP2 pid) < npn.
Proof.
  intros Hpid. pose proof npm_pos as Hnpm.
  destruct (group_first pid Hpid) as (Hnpn & Hg & Hfirst).
  destruct (Z.eq_dec G 1) as [HG | HG].
  - unfold tile_coords. fold npm npn G. rewrite HG. simpl.
    rewrite Z.rem_mod_nonneg, Z.quot_div_nonneg by lia.
    pose proof (Z.mod_pos_bound pid npm Hnpm).
    pose proof (Z.div_pos pid npm ltac:(lia) Hnpm).
    assert (pid / npm < npn) by (apply Z.div_lt_upper_bound; lia).
    lia.
  - destruct (tile_coords_grouped pid Hpid HG) as [Hgs ->]. simpl.
    set (g := pid / (G * npn)) in *. set (gs := Z.min (npm - g * G) G) in *.
    assert (0 < G * npn) as HW by (unfold G; nia).
    pose proof (Z.mod_pos_bound pid gs Hgs) as Hm.
    pose proof (Z.mod_pos_bound pid (G * npn) HW) as Hr.
    pose proof (Z.div_mod pid (G * npn) ltac:(lia)) as Hdm. fold g in Hdm.
    split; [unfold gs in *; lia |].
    split; [apply Z.div_pos; lia |].
    apply Z.div_lt_upper_bound; [done |].
    unfold gs. destruct (Z.min_spec (npm - g * G) G) as [[_ ->] | [_ ->]]; nia.
Qed.

Lemma tile_coords_inj pid pid' :
  0 <= pid < npm * npn -> 0 <= pid' < npm * npn ->
  tile_coords N cfg M_NP2 pid = tile_coords N cfg M_NP2 pid' -> pid = pid'.
Proof.
  intros Hpid Hpid' Heq. pose proof npm_pos as Hnpm.
  destruct (Z.eq_dec G 1) as [HG | HG].
  - unfold tile_coords in Heq. fold npm npn G in Heq. rewrite HG in Heq. simpl in Heq.
    rewrite !Z.rem_mod_nonneg, !Z.quot_div_nonneg in Heq by lia.
    inversion Heq as [[Hm Hd]].
    rewrite (Z.div_mod pid npm), (Z.div_mod pid' npm) by lia. by rewrite Hm, Hd.
  - destruct (tile_coords_grouped pid Hpid HG) as [Hgs Hc].
    destruct (tile_coords_grouped pid' Hpid' HG) as [Hgs' Hc'].
    rewrite Hc, Hc' in Heq. clear Hc Hc'.
    destruct (group_first pid Hpid) as (Hnpn & Hg & Hfirst).
    destruct (group_first pid' Hpid') as (_ & Hg' & Hfirst').
    set (g := pid / (G * npn)) in *. set (g' := pid' / (G * npn)) in *.
    set (gs := Z.min (npm - g * G) G) in *. set (gs' := Z.min (npm - g' * G) G) in *.
    assert (0 < G * npn) as HW by (unfold G; nia).
    inversion Heq as [[Hm Hd]].
    pose proof (Z.mod_pos_bound pid gs Hgs) as Hb.
    pose proof (Z.mod_pos_bound pid' gs' Hgs') as Hb'.
    assert (g = g') as Hgg by (unfold gs, gs' in *; nia).
    assert (gs = gs') as Hss by (unfold gs, gs'; by rewrite Hgg).
    rewrite <- Hss in *. rewrite <- Hgg in *.
    assert (pid mod gs = pid' mod gs) as Hmm by lia.
    pose proof (Z.div_mod pid (G * npn) ltac:(lia)) as Hdm. fold g in Hdm.
    pose proof (Z.div_mod pid' (G * npn) ltac:(lia)) as Hdm'. fold g' in Hdm'.
    rewrite <- Hgg in Hdm'.
    set (r := pid mod (G * npn)) in *. set (r' := pid' mod (G * npn)) in *.
    pose proof (Z.div_mod r gs ltac:(lia)) as Hr.
    pose proof (Z.div_mod r' gs ltac:(lia)) as Hr'.
    pose proof (Z.mod_pos_bound r gs Hgs) as Hrb.
    pose proof (Z.mod_pos_bound r' gs Hgs) as Hrb'.
    pose proof (Z.div_mod pid gs ltac:(lia)) as Hp.
    pose proof (Z.div_mod pid' gs ltac:(lia)) as Hp'.
    rewrite <- Hd in Hr'.
    assert (pid / gs = pid' / gs) by nia.
    lia.
Qed.

Lemma tile_coords_surj pm pn :
  0 <= pm < npm -> 0 <= pn < npn ->
  exists pid, 0 <= pid < npm * npn /\ tile_coords N cfg M_NP2 pid = (pm, pn).
Proof.
  intros Hpm Hpn. pose proof npm_pos as Hnpm.
  destruct (Z.eq_dec G 1) as [HG | HG].
  - exists (pn * npm + pm). split; [nia |].
    unfold tile_coords. fold npm npn G. rewrite HG. simpl.
    rewrite Z.rem_mod_nonneg, Z.quot_div_nonneg by nia.
    f_equal.
    + rewrite Z.add_comm, Z.mod_add by lia. apply Z.mod_small. lia.
    + rewrite Z.add_comm, Z.div_add by lia. rewrite Z.div_small by lia. lia.
  - set (g := pm / G).
    assert (0 < G) as HGpos by done.
    pose proof (Z.div_mod pm G ltac:(lia)) as Hdm. fold g in Hdm.
    pose proof (Z.mod_pos_bound pm G HGpos) as Hmb.
    assert (0 <= g) as Hg by (apply Z.div_pos; lia).
    set (gs := Z.min (npm - g * G) G).
    assert (0 < gs) as Hgs by (unfold gs; lia).
    assert (pm mod G < gs) as Ht' by (unfold gs; lia).
    set (c := G * npn * g).
    set (t := (pm mod G - c) mod gs).
    pose proof (Z.mod_pos_bound (pm mod G - c) gs Hgs) as Htb. fold t in Htb.
    set (pid := c + (pn * gs + t)).
    assert (0 < G * npn) as HW by nia.
    assert (0 <= pn * gs + t < G * npn) as Hrb by (unfold gs in *; nia).
    assert (pid / (G * npn) = g) as Hq.
    { unfold pid, c. rewrite (Z.mul_comm (G * npn) g), Z.add_comm, Z.div_add by lia.
      rewrite Z.div_small by done. lia. }
    assert (pid mod (G * npn) = pn * gs + t) as Hr.
    { unfold pid, c. rewrite (Z.mul_comm (G * npn) g), Z.add_comm, Z.mod_add by lia.
      by apply Z.mod_small. }
    assert (0 <= pid < npm * npn) as Hpid by (unfold pid, c, gs in *; nia).
    exists pid. split; [done |].
    destruct (tile_coords_grouped pid Hpid HG) as [_ ->].
    rewrite Hq, Hr. fold gs. f_equal.
    + assert (pid mod gs = pm mod G) as ->; [| lia].
      unfold pid. rewrite Z.add_assoc, (Z.add_comm c), <- Z.add_assoc.
      rewrite Z.add_comm, Z.mod_add by lia.
      unfold t. rewrite Z.add_mod_idemp_r by lia.
      replace (c + (pm mod G - c)) with (pm mod G) by lia.
      apply Z.mod_small. lia.
    + rewrite Z.add_comm, Z.div_add by lia. rewrite Z.div_small by lia. lia.
Qed.
End Tiles.

(** ** Buffers determined by their cells, launches by their store sets *)

Lemma rect_ext (m n : Z) (C C' : tensor2) :
  rect m n C -> rect m n C' ->
  (forall r c, 0 <= r < m -> 0 <= c < n -> get2 C r c = get2 C' r c) ->
  C = C'.
Proof.
  intros HC HC' Hcell.
  rewrite <- (map_zget_arange C []), <- (map_zget_arange C' []).
  destruct HC as [Hm Hrows]. destruct HC' as [Hm' Hrows']. rewrite Hm, Hm'.
  apply map_ext_in. intros p Hp. apply (list_elem_of_In (arange 0 m) p), elem_of_arange in Hp.
  rewrite (row_ext m n C p (get2 C' p)); [| done | lia | by intros; apply Hcell].
  symmetry. by apply (row_ext m n C' p (get2 C' p)).
Qed.

(** Store lists with the same elements, no two of which disagree on a
    cell, leave the same buffer. *)
Lemma apply_stores_same (m n : Z) (ss ss' : list store) (C : tensor2) :
  rect m n C ->
  (forall s, s ∈ ss <-> s ∈ ss') ->
  (forall r c v v', (r, c, v) ∈ ss -> (r, c, v') ∈ ss -> v = v') ->
  apply_stores ss C = apply_stores ss' C.
Proof.
  intros HC Hsame Hcons.
  apply (rect_ext m n); [by apply rect_apply_stores | by apply rect_apply_stores |].
  intros r c Hr Hc.
  destruct (decide (Exists (fun s : store => fst s = (r, c)) ss)) as [Hex | Hno].
  - apply List.Exists_exists in Hex. destruct Hex as ([[r' c'] v] & Hin & Heq).
    apply list_elem_of_In in Hin. simpl in Heq. inversion Heq. subst r' c'.
    rewrite (apply_stores_get m n ss C r c v); [| done | done | done | | by exists v].
    2:{ intros v' Hv'. by apply (Hcons r c). }
    symmetry. apply (apply_stores_get m n); [done | done | done | | ].
    + intros v' Hv'. apply Hsame in Hv'. by apply (Hcons r c).
    + exists v. by apply Hsame.
  - rewrite !apply_stores_frame; [done | |].
    + intros v' Hv'. apply Hsame in Hv'. apply Hno, List.Exists_exists.
      exists (r, c, v'). split; [by apply list_elem_of_In | done].
    + intros v' Hv'. apply Hno, List.Exists_exists.
      exists (r, c, v'). split; [by apply list_elem_of_In | done].
Qed.

Section LaunchConsistent.
Variables (A : tensor2) (B : tensor3).
Variables (SI es ee : list Z) (weights : tensor2).
Variables (cfg : Config) (M_NP2 : Z) (enable_weights : bool).
Variables (top_k off : Z) (reindex_a reindex_c : bool).
Variables (g : Z -> Z) (L ne : Z).

Hypothesis Hcfg : config_ok cfg.
Hypothesis HNP2 : 0 < M_NP2.
Hypothesis Hseg : segments g L ne es ee.
Hypothesis Hdest_inj : forall p q, 0 <= p < L -> 0 <= q < L ->
  dest_row SI reindex_c p = dest_row SI reindex_c q -> p = q.

Let stores := launch_stores A B SI es ee weights cfg M_NP2 enable_weights top_k off
                reindex_a reindex_c.

Lemma launch_consistent r c v v' :
  (r, c, v) ∈ stores -> (r, c, v') ∈ stores -> v = v'.
Proof.
  intros Hv Hv'. destruct (shape3 B) as [[E N] K] eqn:Hshape.
  destruct (launch_sound A B SI es ee weights cfg M_NP2 enable_weights top_k off
              reindex_a reindex_c E N K g L ne Hshape Hcfg HNP2 Hseg _ Hv)
    as (e & p & n & He & Hp & Hg & Hn & Heq).
  destruct (launch_sound A B SI es ee weights cfg M_NP2 enable_weights top_k off
              reindex_a reindex_c E N K g L ne Hshape Hcfg HNP2 Hseg _ Hv')
    as (e' & p' & n' & He' & Hp' & Hg' & Hn' & Heq').
  inversion Heq as [[Hr Hc Hval]]. inversion Heq' as [[Hr' Hc' Hval']].
  assert (p = p') as <- by (apply Hdest_inj; [done | done | congruence]).
  assert (e = e') as <- by lia.
  congruence.
Qed.

Lemma launch_schedule_irrelevant (C : tensor2) (m n : Z)
    (schedule schedule' : list store -> list store) :
  schedule_spec schedule -> schedule_spec schedule' -> rect m n C ->
  apply_stores (schedule stores) C = apply_stores (schedule' stores) C.
Proof.
  intros Hs Hs' HC. apply (apply_stores_same m n); [done | |].
  - intros s. by rewrite (Hs stores), (Hs' stores).
  - intros r c v v'. rewrite !(Hs stores). apply launch_consistent.
Qed.
End LaunchConsistent.

(** ** Programs that compute the same tile *)

Lemma kernel_tile_eq (A : tensor2) (B : tensor3) (SortedIdx ExpStart ExpEnd : list Z)
    (Weights : list Qc) (N K : Z) (cfg cfg' : Config) (M_NP2 : Z) (ENABLE_WEIGHTS : bool)
    (top_k expert_offset : Z) (reindex_a reindex_c : bool) (pid pid' exp_id : Z) :
  BLOCK_SIZE_M cfg' = BLOCK_SIZE_M cfg -> BLOCK_SIZE_N cfg' = BLOCK_SIZE_N cfg ->
  BLOCK_SIZE_K cfg' = BLOCK_SIZE_K cfg ->
  tile_coords N cfg' M_NP2 pid' = tile_coords N cfg M_NP2 pid ->
  fused_moe_kernel A B SortedIdx ExpStart ExpEnd Weights N K cfg' M_NP2 ENABLE_WEIGHTS
    top_k expert_offset reindex_a reindex_c pid' exp_id
  = fused_moe_kernel A B SortedIdx ExpStart ExpEnd Weights N K cfg M_NP2 ENABLE_WEIGHTS
      top_k expert_offset reindex_a reindex_c pid exp_id.
Proof.
  intros HBM HBN HBK Htile. unfold fused_moe_kernel, k_step.
  rewrite Htile, HBM, HBN, HBK. reflexivity.
Qed.

Lemma launch_stores_regroup (A : tensor2) (B : tensor3) (SI es ee : list Z)
    (weights : tensor2) (cfg cfg' : Config) (M_NP2 : Z) (enable_weights : bool)
    (top_k off : Z) (reindex_a reindex_c : bool) (s : store) :
  0 < GROUP_SIZE_M cfg -> 0 < GROUP_SIZE_M cfg' -> 0 < BLOCK_SIZE_M cfg -> 0 < M_NP2 ->
  BLOCK_SIZE_M cfg' = BLOCK_SIZE_M cfg -> BLOCK_SIZE_N cfg' = BLOCK_SIZE_N cfg ->
  BLOCK_SIZE_K cfg' = BLOCK_SIZE_K cfg ->
  s ∈ launch_stores A B SI es ee weights cfg M_NP2 enable_weights top_k off
        reindex_a reindex_c ->
  s ∈ launch_stores A B SI es ee weights cfg' M_NP2 enable_weights top_k off
        reindex_a reindex_c.
Proof.
  intros HG HG' HBM HNP2 EBM EBN EBK Hs.
  destruct (shape3 B) as [[E N] K] eqn:Hshape.
  apply (elem_of_launch_stores _ _ _ _ _ _ _ _ _ _ _ _ _ E N K Hshape) in Hs.
  destruct Hs as (e & pid & He & Hpid & Hs).
  apply (elem_of_launch_stores _ _ _ _ _ _ _ _ _ _ _ _ _ E N K Hshape).
  destruct (tile_coords_range N cfg M_NP2 HG HBM HNP2 pid Hpid) as [Hpm Hpn].
  assert (0 < BLOCK_SIZE_M cfg') as HBM' by lia.
  rewrite <- EBM in Hpm. rewrite <- EBN in Hpn.
  destruct (tile_coords_surj N cfg' M_NP2 HG' HBM' HNP2 _ _ Hpm Hpn) as (pid' & Hpid' & Ht).
  exists e, pid'. split; [done |]. split; [done |].
  rewrite (kernel_tile_eq _ _ _ _ _ _ _ _ cfg cfg' _ _ _ _ _ _ pid pid'); try done.
  rewrite Ht. by destruct (tile_coords N cfg M_NP2 pid).
Qed.

(** ** A call of [fused_moe] under any store order *)

Section FusedRunSchedules.
Variable argsort : list Z -> list Z.
Variable uninit : nat -> Z -> Z -> Z -> Qc.
Variable uninit_int : nat -> Z -> Z -> Z.
Variable silu_and_mul_row : list Qc -> list Qc.
Variable autotune : Z -> Z -> Z -> Config.
Hypothesis Hargsort : argsort_spec argsort.

Variables (hidden_states : tensor2) (w1 w2 : tensor3) (topk_weights : tensor2).
Variables (topk_ids : list (list Z)) (topk expert_offset : Z).
Variables (num_experts : option Z) (renormalize : bool).

Variables (E N K1 E2 N2 K2 : Z).
Hypothesis Hs1 : shape3 w1 = (E, N, K1).
Hypothesis Hs2 : shape3 w2 = (E2, N2, K2).

Let M := size0 hidden_states.
Let ne := match num_experts with None => E | Some n => n end.
Let W := _renormalize topk_weights renormalize.
Let keys := concat topk_ids.
Let SI := argsort keys.
Let M_NP2 := Z.max 64 (next_power_of_2 M).
Let cfg1 := autotune N K1 M_NP2.
Let cfg2 := autotune N2 K2 M_NP2.

(** The segment table and the two freshly allocated buffers do not depend
    on the store order. *)
Lemma fused_moe_run_schedules tr :
  0 <= topk -> 0 <= ne ->
  exists es ee c1 c2,
    segments (sorted_key keys SI) (size0 keys) ne es ee /\
    cube M topk N c1 /\ cube M topk N2 c2 /\
    forall schedule : list store -> list store,
      let C1 := apply_stores
                  (schedule (launch_stores hidden_states w1 SI es ee W cfg1 M_NP2
                               false topk expert_offset true false)) (flatten c1) in
      let gate := flatten (unflatten M topk (silu_and_mul silu_and_mul_row C1)) in
      let C2 := apply_stores
                  (schedule (launch_stores gate w2 SI es ee W cfg2 M_NP2
                               true 1 expert_offset false true)) (flatten c2) in
      fused_moe argsort uninit uninit_int silu_and_mul_row autotune schedule
        hidden_states w1 w2 topk_weights topk_ids topk expert_offset
        num_experts renormalize tr
      = (tr ++ [EvAlloc [2; ne] false; EvStartEnd ne;
                EvAlloc [M; topk; N] (negb (ne =? E));
                EvFusedMoe cfg1 false topk M expert_offset true false;
                EvAlloc [M; topk; N2] (negb (ne =? E));
                EvFusedMoe cfg2 true 1 M expert_offset false true],
         inr (sum_dim1 N2 (unflatten M topk C2))).
Proof.
  intros Htopk Hne.
  destruct (get_sorted_idx_run argsort uninit_int Hargsort topk_ids ne tr Hne)
    as (es & ee & Hrun & Hseg).
  assert (0 <= M) as HM by (unfold M, size0; lia).
  assert (0 <= N) as HN.
  { unfold shape3 in Hs1. inversion Hs1. unfold size0. lia. }
  assert (0 <= N2) as HN2.
  { unfold shape3 in Hs2. inversion Hs2. unfold size0. lia. }
  destruct (make_intermediate_run uninit M topk N (negb (ne =? E))
              (tr ++ [EvAlloc [2; ne] false] ++ [EvStartEnd ne]) HM Htopk HN)
    as (c1 & Hrun1 & Hc1 & _).
  set (tr2 := ((tr ++ [EvAlloc [2; ne] false] ++ [EvStartEnd ne])
                 ++ [EvAlloc [M; topk; N] (negb (ne =? E))])
                ++ [EvFusedMoe cfg1 false topk M expert_offset true false]).
  destruct (make_intermediate_run uninit M topk N2 (negb (ne =? E)) tr2 HM Htopk HN2)
    as (c2 & Hrun2 & Hc2 & _).
  exists es, ee, c1, c2. split; [done |]. split; [done |]. split; [done |].
  intros schedule. unfold fused_moe. rewrite Hs1, Hs2. simpl. fold ne M.
  rewrite (bind_inr _ _ _ _ _ Hrun).
  rewrite (bind_inr _ _ _ _ _ Hrun1).
  rewrite (bind_inr _ _ _ _ _ (launcher_run _ _ _ _ _ _ _ _ _ _ _ _ _ _ _ _)).
  rewrite Hs1. simpl. fold M_NP2 cfg1 keys SI W. fold tr2.
  rewrite (bind_inr _ _ _ _ _ Hrun2).
  rewrite (bind_inr _ _ _ _ _ (launcher_run _ _ _ _ _ _ _ _ _ _ _ _ _ _ _ _)).
  rewrite Hs2. simpl. fold M_NP2 cfg2.
  unfold ret, tr2. rewrite <- !app_assoc. done.
Qed.
End FusedRunSchedules.

Lemma get_sorted_idx_neg argsort uninit_int (topk_ids : list (list Z)) (ne : Z) tr :
  ne < 0 ->
  _get_sorted_idx argsort uninit_int topk_ids ne tr = (tr, inl (NegativeDimension [2; ne])).
Proof.
  intros Hneg. unfold _get_sorted_idx, get_start_end, new_empty2, bind.
  rewrite check_shape_neg; [done |]. apply Exists_cons_tl, Exists_cons_hd. done.
Qed.

(** ** The loop over [k] on masked-out lanes *)

Lemma k_loop_masked (A : tensor2) (B : tensor3) (K : Z) (cfg : Config)
    (am : Z -> Z) (mask : Z -> bool) (bn : Z -> Z) (e i j : Z) (ks : list Z)
    (st : (Z -> Z -> Qc) * Z) :
  mask i = false -> fst st i j = 0%Qc ->
  fst (foldl (k_step A B K cfg am mask bn e) st ks) i j = 0%Qc.
Proof.
  intros Hmask. revert st. induction ks as [| k ks IH]; intros [acc adv] Hst; [done |].
  simpl. apply IH. unfold k_step, tl_dot. cbn [fst]. simpl in Hst. rewrite Hst.
  rewrite sumq_zero; [ring |]. intros kk _. rewrite Hmask. simpl. ring.
Qed.

(** ** The segment scan and the reference process of the docstring *)

Lemma start_end_first_unique (g : Z -> Z) (e f f' : Z) :
  0 <= f -> 0 <= f' -> g f = e -> g f' = e ->
  (forall p, 0 <= p < f -> g p <> e) -> (forall p, 0 <= p < f' -> g p <> e) -> f = f'.
Proof.
  intros Hf Hf' Hg Hg' Hfirst Hfirst'.
  destruct (Z.lt_trichotomy f f') as [Hlt | [-> | Hgt]]; [| done |].
  - exfalso. apply (Hfirst' f); [lia | done].
  - exfalso. apply (Hfirst f'); [lia | done].
Qed.

Lemma zget_one_hot (ids : list Z) (E r c : Z) :
  0 <= r < size0 ids -> 0 <= c < E ->
  zget (zget (one_hot ids E) r []) c 0 = Z.b2z (zget ids r 0 =? c).
Proof.
  intros Hr Hc. unfold one_hot. rewrite (zget_nonneg _ r) by lia.
  rewrite list_lookup_fmap, (zget_lt_length ids r 0) by done. simpl.
  by rewrite zget_map_arange.
Qed.

Lemma zget_one_hot_count (ids : list Z) (E e : Z) :
  0 <= e < E -> zget (sum_dim0 E (one_hot ids E)) e 0 = count_id e ids.
Proof.
  intros He. unfold sum_dim0. rewrite zget_map_arange by done.
  assert (size0 (one_hot ids E) = size0 ids) as ->
    by (unfold one_hot, size0; by rewrite length_map).
  unfold count_id. rewrite <- (map_zget_arange ids 0) at 2. rewrite sumz_map.
  apply sumz_ext. intros r Hr. apply elem_of_arange in Hr.
  by apply zget_one_hot.
Qed.

Lemma size0_sum_dim0 (E : Z) T : 0 <= E -> size0 (sum_dim0 E T) = E.
Proof. intros HE. unfold sum_dim0. by apply size0_map_arange. Qed.

Lemma zget_cumsum (l : list Z) (i : Z) :
  0 <= i < size0 l ->
  zget (cumsum l) i 0 = sumz (arange 0 (i + 1)) (fun j => zget l j 0).
Proof. intros Hi. unfold cumsum. by rewrite zget_map_arange. Qed.

Lemma size0_cumsum (l : list Z) : size0 (cumsum l) = size0 l.
Proof. unfold cumsum. apply size0_map_arange. unfold size0. lia. Qed.

Lemma zget_zip_with_sub (a b : list Z) (i : Z) :
  0 <= i < size0 a -> 0 <= i < size0 b ->
  zget (zip_with Z.sub a b) i 0 = zget a i 0 - zget b i 0.
Proof.
  intros Ha Hb. rewrite !zget_nonneg by lia.
  pose proof (zget_lt_length a i 0 Ha) as Hla. pose proof (zget_lt_length b i 0 Hb) as Hlb.
  rewrite (proj2 (lookup_zip_with_Some Z.sub a b (Z.to_nat i) (zget a i 0 - zget b i 0))).
  - rewrite Hla, Hlb. simpl. rewrite !zget_nonneg by lia. by rewrite Hla, Hlb.
  - exists (zget a i 0), (zget b i 0). done.
Qed.

Lemma count_lt_zero (ids : list Z) : Forall (fun x => 0 <= x) ids -> count_lt 0 ids = 0.
Proof.
  unfold count_lt. induction 1 as [| x l Hx _ IH]; simpl; [done |].
  rewrite IH. destruct (Z.ltb_spec x 0); simpl; lia.
Qed.

Lemma count_lt_succ (e : Z) (ids : list Z) :
  count_lt (e + 1) ids = count_lt e ids + count_id e ids.
Proof.
  unfold count_lt, count_id. induction ids as [| x l IH]; simpl; [done |].
  rewrite IH.
  destruct (Z.ltb_spec x (e + 1)), (Z.ltb_spec x e), (Z.eqb_spec x e); simpl; lia.
Qed.

Lemma count_lt_sum (ids : list Z) (n : nat) :
  Forall (fun x => 0 <= x) ids ->
  sumz (arange 0 (Z.of_nat n)) (fun j => count_id j ids) = count_lt (Z.of_nat n) ids.
Proof.
  intros Hpos. induction n as [| n IH].
  - simpl. by rewrite count_lt_zero.
  - rewrite sumz_snoc, IH, Nat2Z.inj_succ, <- Z.add_1_r. by rewrite count_lt_succ.
Qed.

Lemma docstring_start_end_spec (ids : list Z) (E e : Z) :
  Forall (fun x => 0 <= x) ids -> 0 <= e < E ->
  zget (fst (docstring_start_end ids E)) e 0 = count_lt e ids /\
  zget (snd (docstring_start_end ids E)) e 0 = count_lt e ids + count_id e ids.
Proof.
  intros Hpos He. unfold docstring_start_end. cbn [fst snd].
  assert (size0 (sum_dim0 E (one_hot ids E)) = E) as Hsz by (apply size0_sum_dim0; lia).
  assert (zget (cumsum (sum_dim0 E (one_hot ids E))) e 0 = count_lt e ids + count_id e ids)
    as Hend.
  { rewrite zget_cumsum by lia.
    rewrite (sumz_ext _ _ (fun j => count_id j ids)).
    2:{ intros j Hj. apply elem_of_arange in Hj. apply zget_one_hot_count. lia. }
    replace (e + 1) with (Z.of_nat (Z.to_nat (e + 1))) by lia.
    rewrite count_lt_sum by done.
    replace (Z.of_nat (Z.to_nat (e + 1))) with (e + 1) by lia.
    apply count_lt_succ. }
  split; [| done].
  rewrite zget_zip_with_sub by (rewrite ?size0_cumsum; lia).
  rewrite Hend, zget_one_hot_count by done. lia.
Qed.

(** ** Shape of the reduction, scaling of the gating weights *)

Lemma foldl_vadd_length (n : nat) (rows : tensor2) (acc : list Qc) :
  length acc = n -> Forall (fun r => length r = n) rows ->
  length (foldl vadd acc rows) = n.
Proof.
  intros Hacc Hrows. revert acc Hacc.
  induction Hrows as [| r rows Hr _ IH]; intros acc Hacc; [done |].
  simpl. apply IH. unfold vadd. rewrite length_zip_with. lia.
Qed.

Lemma rect_sum_dim1 (M topk N2 : Z) (C : tensor2) :
  0 <= M -> 0 <= N2 -> Forall (fun row => size0 row = N2) C ->
  rect M N2 (sum_dim1 N2 (unflatten M topk C)).
Proof.
  intros HM HN2 HC. split.
  - unfold sum_dim1, size0. rewrite length_map. by apply size0_unflatten.
  - unfold sum_dim1, unflatten. rewrite map_map. apply Forall_fmap, Forall_forall.
    intros t _. simpl. unfold size0.
    rewrite (foldl_vadd_length (Z.to_nat N2)); [lia | by rewrite length_replicate |].
    apply Forall_take, Forall_drop. eapply List.Forall_impl; [| exact HC].
    intros row Hrow. simpl in Hrow. unfold size0 in Hrow. lia.
Qed.




Lemma renormalize_rect (m k : Z) (W : tensor2) (b : bool) :
  rect m k W -> rect m k (_renormalize W b).
Proof.
  intros [Hm Hrows]. unfold _renormalize. destruct b; [| done]. split.
  - unfold size0 in *. by rewrite length_map.
  - apply Forall_fmap. eapply List.Forall_impl; [| exact Hrows].
    intros row Hrow. simpl. unfold size0 in *. by rewrite length_map.
Qed.

(** ** The two passes on a shard *)

Lemma get2_flatten_zero (m k n : Z) (T : tensor3) (r c : Z) :
  cube m k n T -> (forall i j x, get3 T i j x = 0%Qc) -> 0 <= r < m * k ->
  get2 (flatten T) r c = 0%Qc.
Proof.
  intros [Hm Hall] Hz Hr.
  assert (0 <= m) as Hm0 by (unfold size0 in Hm; lia).
  assert (0 < k) as Hk by nia.
  assert (0 <= r / k < m) as Ht.
  { split; [apply Z.div_pos; lia | apply Z.div_lt_upper_bound; nia]. }
  pose proof (Z.mod_pos_bound r k Hk) as Hs.
  rewrite (Z.div_mod r k) by lia. rewrite (Z.mul_comm k).
  unfold get2, flatten. rewrite (zget_concat k); [apply Hz | | lia | done].
  eapply List.Forall_impl; [| exact Hall]. intros M' [HM' _]. done.
Qed.

Section ShardPasses.
Variable argsort : list Z -> list Z.
Variable silu_and_mul_row : list Qc -> list Qc.
Variable schedule : list store -> list store.
Hypothesis Hargsort : argsort_spec argsort.
Hypothesis Hsched : schedule_spec schedule.

Variables (hidden_states : tensor2) (w1 w2 : tensor3) (topk_weights : tensor2).
Variables (topk_ids : list (list Z)) (topk off ne : Z).
Variables (E N K1 E2 N2 K2 : Z).
Hypothesis Hs1 : shape3 w1 = (E, N, K1).
Hypothesis Hs2 : shape3 w2 = (E2, N2, K2).

Let M := size0 hidden_states.

Hypothesis Htopk : 0 <= topk.
Hypothesis Hw1 : cube E N K1 w1.
Hypothesis Hw2 : cube E N2 K2 w2.
Hypothesis HW : rect M topk topk_weights.
Hypothesis Hi1 : size0 topk_ids = M.
Hypothesis Hi2 : Forall (fun r => size0 r = topk) topk_ids.
Hypothesis Hnd : Forall NoDup topk_ids.
Hypothesis Hact : forall row, size0 row = N -> size0 (silu_and_mul_row row) = K2.
Hypothesis Hoff0 : 0 <= off.
Hypothesis Hoff : off + E <= ne.

Variables (cfg1 cfg2 : Config).
Hypothesis Hcfg1 : config_ok cfg1.
Hypothesis Hcfg2 : config_ok cfg2.

Let keys := concat topk_ids.
Let SI := argsort keys.
Let L := M * topk.
Let g := sorted_key keys SI.
Let M_NP2 := Z.max 64 (next_power_of_2 M).

Variables (es ee : list Z) (c1 c2 : tensor3).
Hypothesis Hseg : segments g L ne es ee.
Hypothesis Hc1 : cube M topk N c1.
Hypothesis Hc2 : cube M topk N2 c2.
(** The second buffer is zero wherever no resident expert will write. *)
Hypothesis Hz2 : forall p n, 0 <= p < L -> ~ (0 <= g p - off < E) ->
  get2 (flatten c2) (zget SI p 0) n = 0%Qc.

Let C1 := apply_stores
            (schedule (launch_stores hidden_states w1 SI es ee topk_weights cfg1 M_NP2
                         false topk off true false)) (flatten c1).
Let gate := flatten (unflatten M topk (silu_and_mul silu_and_mul_row C1)).
Let C2 := apply_stores
            (schedule (launch_stores gate w2 SI es ee topk_weights cfg2 M_NP2
                         true 1 off false true)) (flatten c2).

Lemma shard_keys_size : size0 keys = L.
Proof. unfold keys, L. by rewrite (size0_concat_rect topk), Hi1. Qed.

Lemma shard_E2 : E2 = E.
Proof.
  destruct Hw2 as [HE _]. pose proof Hs2 as Hs2'. unfold shape3 in Hs2'.
  inversion Hs2'. lia.
Qed.

Lemma shard_SI_range q : 0 <= q < L -> 0 <= zget SI q 0 < L.
Proof.
  intros Hq. rewrite <- shard_keys_size in Hq |- *.
  by apply (argsort_range argsort Hargsort keys).
Qed.

Lemma shard_SI_inj q q' :
  0 <= q < L -> 0 <= q' < L -> zget SI q 0 = zget SI q' 0 -> q = q'.
Proof.
  intros Hq Hq'. rewrite <- shard_keys_size in Hq, Hq'.
  by apply (argsort_inj argsort Hargsort keys).
Qed.

Lemma shard_segment_fits e : 0 <= e < E -> 0 <= e + off < ne -> occ g (e + off) L <= M_NP2.
Proof.
  intros He _. rewrite <- shard_keys_size. unfold g, SI.
  rewrite (argsort_count argsort Hargsort keys).
  pose proof (count_id_distinct_rows (e + off) topk_ids Hnd).
  assert (0 <= M) as HM by (unfold M, size0; lia).
  pose proof (next_power_of_2_ge M HM). unfold keys, M_NP2. lia.
Qed.

Lemma shard_C1_rect : rect L N C1.
Proof. apply rect_apply_stores. by apply rect_flatten. Qed.

Lemma shard_C1_row p :
  0 <= p < L -> 0 <= g p - off < E ->
  zget C1 p []
  = linear (zget w1 (g p - off) []) (zget hidden_states (Z.quot (zget SI p 0) topk) []).
Proof.
  intros Hp Hres.
  assert (rect N K1 (zget w1 (g p - off) [])) as Hrect.
  { destruct Hw1 as [HE Hall]. apply (zget_in_range (rect N K1)); [done | lia]. }
  rewrite (linear_rows N K1) by done.
  apply (row_ext L N); [apply shard_C1_rect | done |].
  intros n Hn.
  pose proof (launched_cell hidden_states w1 (flatten c1) SI es ee topk_weights cfg1 M_NP2
                false topk off true false E N K1 g L ne schedule Hs1 Hcfg1
                ltac:(unfold M_NP2; lia) Hseg Hsched ltac:(by apply rect_flatten)
                ltac:(done) ltac:(done) shard_segment_fits p n Hp ltac:(lia) Hres Hn)
    as Hcell.
  unfold dest_row in Hcell. fold C1 in Hcell. rewrite Hcell.
  unfold proj_value, src_row. done.
Qed.

Lemma shard_gate_eq : gate = silu_and_mul silu_and_mul_row C1.
Proof.
  unfold gate. apply flatten_unflatten; [unfold M, size0; lia | done |].
  destruct shard_C1_rect as [Hsz _]. unfold silu_and_mul, size0 in *. by rewrite length_map.
Qed.

Lemma shard_C2_rect : rect L N2 C2.
Proof. apply rect_apply_stores. by apply rect_flatten. Qed.

Lemma shard_C2_row p :
  0 <= p < L -> 0 <= g p - off < E ->
  zget C2 (zget SI p 0) []
  = map (fun v => (v * zget (concat topk_weights) (zget SI p 0%Z) 0)%Qc)
        (linear (zget w2 (g p - off) []) (silu_and_mul_row (zget C1 p []))).
Proof.
  intros Hp Hres.
  assert (rect N2 K2 (zget w2 (g p - off) [])) as Hrect.
  { destruct Hw2 as [HE Hall]. apply (zget_in_range (rect N2 K2)); [done | lia]. }
  rewrite (linear_rows N2 K2) by done. rewrite map_map.
  apply (row_ext L N2); [apply shard_C2_rect | by apply shard_SI_range |].
  intros n Hn.
  pose proof (launched_cell gate w2 (flatten c2) SI es ee topk_weights cfg2 M_NP2
                true 1 off false true E2 N2 K2 g L ne schedule Hs2 Hcfg2
                ltac:(unfold M_NP2; lia) Hseg Hsched ltac:(by apply rect_flatten)) as Hcell.
  pose proof shard_E2 as HE2.
  specialize (Hcell shard_SI_range shard_SI_inj).
  unfold dest_row in Hcell. fold C2 in Hcell. rewrite Hcell; [| | done | lia | lia | done].
  - unfold proj_value, src_row.
    f_equal. apply sumq_ext. intros x _. f_equal.
    unfold get2. rewrite shard_gate_eq, zget_silu_and_mul; [done |].
    by destruct shard_C1_rect as [-> _].
  - intros e He He'. apply shard_segment_fits; lia.
Qed.

(** A position of a non-resident expert: its row is left as allocated. *)
Lemma shard_C2_cell_absent p n :
  0 <= p < L -> ~ (0 <= g p - off < E) ->
  get2 C2 (zget SI p 0) n = get2 (flatten c2) (zget SI p 0) n.
Proof.
  intros Hp Hres. pose proof shard_E2 as HE2.
  pose proof (launched_frame gate w2 (flatten c2) SI es ee topk_weights cfg2 M_NP2
                true 1 off false true E2 N2 K2 g L ne schedule Hs2 Hcfg2
                ltac:(unfold M_NP2; lia) Hseg Hsched shard_SI_inj p n Hp
                ltac:(lia)) as Hframe.
  unfold dest_row in Hframe. fold C2 in Hframe. exact Hframe.
Qed.

Lemma shard_C2_row_absent p :
  0 <= p < L -> ~ (0 <= g p - off < E) ->
  zget C2 (zget SI p 0) [] = replicate (Z.to_nat N2) 0%Qc.
Proof.
  intros Hp Hres.
  assert (0 <= N2) as HN2.
  { pose proof Hs2 as Hs2'. unfold shape3, size0 in Hs2'. inversion Hs2'. lia. }
  rewrite (row_ext L N2 C2 (zget SI p 0) (fun _ => 0%Qc));
    [| apply shard_C2_rect | by apply shard_SI_range |].
  - apply list_eq. intros i. rewrite list_lookup_fmap.
    destruct (decide (i < Z.to_nat N2)%nat) as [Hi | Hi].
    + rewrite lookup_arange by lia. simpl. symmetry. by apply lookup_replicate_2.
    + rewrite (lookup_ge_None_2 (arange 0 N2)) by (rewrite length_arange; lia).
      simpl. symmetry. apply lookup_ge_None_2. rewrite length_replicate. lia.
  - intros n Hn. rewrite shard_C2_cell_absent by done. by apply Hz2.
Qed.

(** The sorted position of flat assignment [(i, s)]. *)
Lemma shard_position (i s : nat) x ids_i e :
  hidden_states !! i = Some x -> topk_ids !! i = Some ids_i -> ids_i !! s = Some e ->
  let q := Z.of_nat i * topk + Z.of_nat s in
  0 <= q < L /\ Z.quot q topk = Z.of_nat i /\
  exists p, 0 <= p < L /\ zget SI p 0 = q /\ g p = e.
Proof.
  intros Hx Hids He q.
  pose proof (lookup_lt_Some _ _ _ Hx) as Hi. fold (size0 hidden_states) in Hi.
  pose proof (lookup_lt_Some _ _ _ He) as Hs.
  assert (size0 ids_i = topk) as Hlen.
  { rewrite Forall_lookup in Hi2. by apply (Hi2 i). }
  unfold size0 in Hlen.
  assert (0 <= q < L) as Hq by (unfold q, L, M, size0; nia).
  split; [done |]. split.
  { rewrite Z.quot_div_nonneg by lia. unfold q.
    rewrite Z.add_comm, Z_div_plus by lia.
    rewrite Z.div_small by lia. lia. }
  rewrite <- shard_keys_size in Hq.
  destruct (argsort_surj argsort Hargsort keys q Hq) as (p & Hp & Hpq).
  rewrite shard_keys_size in Hp. fold SI in Hpq.
  exists p. split; [done |]. split; [done |].
  unfold g, sorted_key. rewrite Hpq. unfold keys, q.
  rewrite (zget_concat topk) by (rewrite ?Hi1; unfold M, size0; lia || done).
  rewrite (zget_lookup _ _ _ _ Hids). by apply zget_lookup.
Qed.

(** The row of flat assignment [(i, s)] after both passes, for a resident
    expert: what the reference computes for token [i] and slot [s]. *)
Lemma shard_C2_slot_resident (i s : nat) x ws ids_i w e :
  hidden_states !! i = Some x -> topk_weights !! i = Some ws ->
  topk_ids !! i = Some ids_i -> ws !! s = Some w -> ids_i !! s = Some e ->
  0 <= e - off < E ->
  zget C2 (Z.of_nat i * topk + Z.of_nat s) []
  = map (fun v => (v * w)%Qc) (expert_mlp silu_and_mul_row w1 w2 (e - off) x).
Proof.
  intros Hx Hws Hids Hw He Hres.
  destruct (shard_position i s x ids_i e Hx Hids He) as (Hq & Hquot & p & Hp & Hpq & Hgp).
  pose proof (lookup_lt_Some _ _ _ Hx) as Hi. fold (size0 hidden_states) in Hi.
  pose proof (lookup_lt_Some _ _ _ Hw) as Hs.
  assert (size0 ws = topk) as Hlen.
  { destruct HW as [_ HW2]. rewrite Forall_lookup in HW2. by apply (HW2 i). }
  unfold size0 in Hlen.
  rewrite <- Hpq, shard_C2_row, shard_C1_row by (rewrite ?Hgp; done || lia).
  rewrite Hpq, Hgp, Hquot.
  assert (zget (concat topk_weights) (Z.of_nat i * topk + Z.of_nat s) 0%Qc = w) as ->.
  { destruct HW as [HW1 HW2].
    rewrite (zget_concat topk) by (rewrite ?HW1; unfold M, size0; lia || done).
    rewrite (zget_lookup _ _ _ _ Hws). by apply zget_lookup. }
  rewrite (zget_lookup _ _ _ _ Hx). done.
Qed.

(** ... and for any other: the row as it was allocated. *)
Lemma shard_C2_slot_absent (i s : nat) x ids_i e n :
  hidden_states !! i = Some x -> topk_ids !! i = Some ids_i -> ids_i !! s = Some e ->
  ~ (0 <= e - off < E) ->
  get2 C2 (Z.of_nat i * topk + Z.of_nat s) n
  = get2 (flatten c2) (Z.of_nat i * topk + Z.of_nat s) n.
Proof.
  intros Hx Hids He Hres.
  destruct (shard_position i s x ids_i e Hx Hids He) as (Hq & Hquot & p & Hp & Hpq & Hgp).
  rewrite <- Hpq. apply shard_C2_cell_absent; [done | by rewrite Hgp].
Qed.

(** The row of flat assignment [(i, s)] after both passes is what the
    shard reference computes for token [i] and slot [s]. *)
Lemma shard_C2_slot (i s : nat) x ws ids_i w e :
  hidden_states !! i = Some x -> topk_weights !! i = Some ws ->
  topk_ids !! i = Some ids_i -> ws !! s = Some w -> ids_i !! s = Some e ->
  C2 !! (i * Z.to_nat topk + s)%nat
  = Some (shard_slot silu_and_mul_row w1 w2 off x w e).
Proof.
  intros Hx Hws Hids Hw He.
  pose proof (lookup_lt_Some _ _ _ Hx) as Hi. fold (size0 hidden_states) in Hi.
  pose proof (lookup_lt_Some _ _ _ He) as Hs.
  assert (size0 ids_i = topk) as Hlen.
  { rewrite Forall_lookup in Hi2. by apply (Hi2 i). }
  unfold size0 in Hlen.
  set (q := Z.of_nat i * topk + Z.of_nat s).
  assert (0 <= q < L) as Hq by (unfold q, L, M, size0; nia).
  replace (i * Z.to_nat topk + s)%nat with (Z.to_nat q) by (unfold q; nia).
  destruct shard_C2_rect as [HC2 _].
  rewrite (zget_lt_length C2 q []) by lia. f_equal.
  rewrite <- shard_keys_size in Hq.
  destruct (argsort_surj argsort Hargsort keys q Hq) as (p & Hp & Hpq).
  rewrite shard_keys_size in Hp, Hq. fold SI in Hpq.
  assert (g p = e) as Hgp.
  { unfold g, sorted_key. rewrite Hpq. unfold keys, q.
    rewrite (zget_concat topk) by (rewrite ?Hi1; unfold M, size0; lia || done).
    rewrite (zget_lookup _ _ _ _ Hids). by apply zget_lookup. }
  unfold shard_slot.
  assert (size0 w1 = E) as -> by (by destruct Hw1).
  destruct (Z.leb_spec 0 (e - off)) as [Hlo | Hlo];
    [destruct (Z.ltb_spec (e - off) E) as [Hhi | Hhi] |]; simpl.
  - rewrite <- Hpq, shard_C2_row, shard_C1_row by (rewrite ?Hgp; done || lia).
    rewrite Hpq, Hgp.
    assert (zget (concat topk_weights) q 0%Qc = w) as ->.
    { destruct HW as [HW1 HW2]. unfold q.
      rewrite (zget_concat topk) by (rewrite ?HW1; unfold M, size0; lia || done).
      rewrite (zget_lookup _ _ _ _ Hws). by apply zget_lookup. }
    assert (Z.quot q topk = Z.of_nat i) as ->.
    { rewrite Z.quot_div_nonneg by lia. unfold q.
      rewrite Z.add_comm, Z_div_plus by lia.
      rewrite Z.div_small by lia. lia. }
    rewrite (zget_lookup _ _ _ _ Hx). done.
  - rewrite <- Hpq, shard_C2_row_absent by (rewrite ?Hgp; done || lia).
    f_equal. pose proof Hs2 as Hs2'. unfold shape3, size0 in Hs2'. inversion Hs2'. lia.
  - rewrite <- Hpq, shard_C2_row_absent by (rewrite ?Hgp; done || lia).
    f_equal. pose proof Hs2 as Hs2'. unfold shape3, size0 in Hs2'. inversion Hs2'. lia.
Qed.

(** The reduction over the top-k axis yields the shard reference. *)
Lemma reduced_eq_shard :
  sum_dim1 N2 (unflatten M topk C2)
  = shard_moe silu_and_mul_row hidden_states w1 w2 off topk_weights topk_ids.
Proof.
  destruct HW as [HW1 HW2]. unfold M, size0 in *.
  apply list_eq. intros i. unfold sum_dim1, shard_moe.
  rewrite list_lookup_fmap.
  destruct (hidden_states !! i) as [x |] eqn:Hx.
  - pose proof (lookup_lt_Some _ _ _ Hx) as Hi.
    rewrite unflatten_lookup by (unfold size0; lia).
    destruct (lookup_lt_is_Some_2 topk_weights i) as [ws Hws]; [lia |].
    destruct (lookup_lt_is_Some_2 topk_ids i) as [ids_i Hids]; [lia |].
    symmetry. apply lookup_zip_with_Some. exists x, (ws, ids_i).
    split; [| split; [done |]].
    2:{ apply lookup_zip_with_Some. exists ws, ids_i. done. }
    simpl. unfold shard_token, vadd.
    assert (Z.to_nat N2 = length (zget w2 0 [])) as ->.
    { pose proof Hs2 as Hs2'. unfold shape3, size0 in Hs2'. inversion Hs2'. lia. }
    f_equal. apply list_eq. intros s.
    assert (length ws = Z.to_nat topk) as Hlw.
    { rewrite Forall_lookup in HW2. specialize (HW2 i ws Hws). simpl in HW2. lia. }
    assert (length ids_i = Z.to_nat topk) as Hli.
    { rewrite Forall_lookup in Hi2. specialize (Hi2 i ids_i Hids). simpl in Hi2.
      unfold size0 in Hi2. lia. }
    rewrite lookup_take, lookup_drop.
    destruct (decide (s < Z.to_nat topk)%nat) as [Hs | Hs].
    + destruct (lookup_lt_is_Some_2 ws s) as [w Hw]; [lia |].
      destruct (lookup_lt_is_Some_2 ids_i s) as [e He]; [lia |].
      rewrite (shard_C2_slot i s x ws ids_i w e) by done.
      symmetry. apply lookup_zip_with_Some. exists w, e. done.
    + symmetry. apply lookup_ge_None_2. rewrite length_zip_with. lia.
  - pose proof (lookup_ge_None_1 _ _ Hx) as Hge.
    rewrite (lookup_ge_None_2 (unflatten _ _ _)).
    2:{ unfold unflatten. rewrite length_map, length_seq. lia. }
    symmetry. apply lookup_ge_None_2. rewrite length_zip_with. lia.
Qed.
End ShardPasses.

(** ** A call on a shard, and the sum of two shards *)

Section ShardCall.
Variable argsort : list Z -> list Z.
Variable uninit : nat -> Z -> Z -> Z -> Qc.
Variable uninit_int : nat -> Z -> Z -> Z.
Variable silu_and_mul_row : list Qc -> list Qc.
Variable autotune : Z -> Z -> Z -> Config.
Variable schedule : list store -> list store.
Hypothesis Hargsort : argsort_spec argsort.
Hypothesis Hauto : autotune_spec autotune.
Hypothesis Hsched : schedule_spec schedule.

Lemma shard_call_result (hidden_states : tensor2) (w1 w2 : tensor3)
    (topk_weights : tensor2) (topk_ids : list (list Z)) (topk off ne : Z)
    (E N K1 E2 N2 K2 : Z) (tr : list event) :
  shape3 w1 = (E, N, K1) -> shape3 w2 = (E2, N2, K2) ->
  0 <= topk -> cube E N K1 w1 -> cube E N2 K2 w2 ->
  rect (size0 hidden_states) topk topk_weights ->
  size0 topk_ids = size0 hidden_states ->
  Forall (fun r => size0 r = topk) topk_ids -> Forall NoDup topk_ids ->
  0 <= off -> off + E <= ne -> ne <> E ->
  snd (fused_moe argsort uninit uninit_int silu_and_mul_row autotune schedule
         hidden_states w1 w2 topk_weights topk_ids topk off (Some ne) false tr)
  = inr (shard_moe silu_and_mul_row hidden_states w1 w2 off topk_weights topk_ids).
Proof.
  intros Hs1 Hs2 Htopk Hw1 Hw2 HW Hi1 Hi2 Hnd Hoff0 Hoff Hstrict.
  assert (0 <= E) as HE.
  { pose proof Hs1 as Hs1'. unfold shape3, size0 in Hs1'. inversion Hs1'. lia. }
  destruct (fused_moe_run argsort uninit uninit_int silu_and_mul_row autotune schedule
              Hargsort hidden_states w1 w2 topk_weights topk_ids topk off
              (Some ne) false E N K1 E2 N2 K2 Hs1 Hs2 tr Htopk ltac:(lia))
    as (es & ee & c1 & c2 & Hseg & Hc1 & Hc2 & Hzero & _ & Hrun).
  simpl in Hrun. rewrite Hrun. simpl. f_equal.
  destruct (Hzero Hstrict) as [_ Hz2].
  assert (size0 (concat topk_ids) = size0 hidden_states * topk) as Hkeys
    by (by rewrite (size0_concat_rect topk), Hi1).
  rewrite Hkeys in Hseg.
  apply (reduced_eq_shard argsort silu_and_mul_row schedule Hargsort Hsched
           hidden_states w1 w2 topk_weights topk_ids topk off ne
           E N K1 E2 N2 K2 Hs1 Hs2 Htopk Hw1 Hw2 HW Hi1 Hi2 Hnd Hoff0 Hoff
           _ _ (autotune_config_ok _ _ _ _ Hauto) (autotune_config_ok _ _ _ _ Hauto)
           es ee c1 c2 Hseg Hc1 Hc2).
  intros p n Hp _.
  apply (get2_flatten_zero (size0 hidden_states) topk N2); [done | done |].
  rewrite <- Hkeys in Hp |- *. by apply (argsort_range argsort Hargsort).
Qed.
End ShardCall.

Lemma valid_shard_unpack act (hidden_states : tensor2) (w1 w2 : tensor3)
    (topk_weights : tensor2) (topk_ids : list (list Z)) (topk off ne : Z)
    (E N K1 E2 N2 K2 : Z) :
  shape3 w1 = (E, N, K1) -> shape3 w2 = (E2, N2, K2) ->
  valid_shard_call act hidden_states w1 w2 topk_weights topk_ids topk off ne ->
  let M := size0 hidden_states in
  0 <= topk /\ rect M K1 hidden_states /\ cube E N K1 w1 /\ cube E N2 K2 w2 /\
  rect M topk topk_weights /\ size0 topk_ids = M /\
  Forall (fun r => size0 r = topk) topk_ids /\ Forall NoDup topk_ids /\
  (forall row, size0 row = N -> size0 (act row) = K2) /\
  0 <= off /\ off + E <= ne /\ ne <> E.
Proof.
  intros Hs1 Hs2 [Hops Hoff]. unfold operands_ok in Hops. rewrite Hs1, Hs2 in Hops.
  assert (size0 w1 = E) as HE by (unfold shape3 in Hs1; by inversion Hs1).
  rewrite HE in Hoff. simpl. tauto.
Qed.

Lemma operands_unpack act (hidden_states : tensor2) (w1 w2 : tensor3)
    (topk_weights : tensor2) (topk_ids : list (list Z)) (topk : Z)
    (E N K1 E2 N2 K2 : Z) :
  shape3 w1 = (E, N, K1) -> shape3 w2 = (E2, N2, K2) ->
  operands_ok act hidden_states w1 w2 topk_weights topk_ids topk ->
  let M := size0 hidden_states in
  0 <= topk /\ rect M K1 hidden_states /\ cube E N K1 w1 /\ cube E N2 K2 w2 /\
  rect M topk topk_weights /\ size0 topk_ids = M /\
  Forall (fun r => size0 r = topk) topk_ids /\ Forall NoDup topk_ids /\
  (forall row, size0 row = N -> size0 (act row) = K2).
Proof. intros Hs1 Hs2 Hops. unfold operands_ok in Hops. by rewrite Hs1, Hs2 in Hops. Qed.

(** *** Shapes of the two halves of a stacked weight tensor *)

Lemma zget_app_l {T} (l1 l2 : list T) (i : Z) (d : T) :
  0 <= i < size0 l1 -> zget (l1 ++ l2) i d = zget l1 i d.
Proof.
  intros Hi. rewrite !zget_nonneg by lia. unfold size0 in Hi.
  by rewrite lookup_app_l by lia.
Qed.

Lemma zget_app_r {T} (l1 l2 : list T) (i : Z) (d : T) :
  size0 l1 <= i -> zget (l1 ++ l2) i d = zget l2 (i - size0 l1) d.
Proof.
  intros Hi. unfold size0 in *. rewrite !zget_nonneg by lia.
  rewrite lookup_app_r by lia. do 2 f_equal. lia.
Qed.

Lemma cube_app (e n k : Z) (Ba Bb : tensor3) :
  cube e n k (Ba ++ Bb) -> cube (size0 Ba) n k Ba /\ cube (size0 Bb) n k Bb.
Proof.
  intros [_ Hall]. apply Forall_app in Hall. destruct Hall. by split.
Qed.

Lemma cube_shape3 (e n k : Z) (B : tensor3) :
  cube e n k B -> 0 < e -> (n = 0 -> k = 0) -> shape3 B = (e, n, k).
Proof.
  intros [He Hall] Hpos Hk. unfold shape3. rewrite He.
  pose proof (zget_in_range (rect n k) B 0 [] Hall ltac:(lia)) as [Hn Hrows].
  rewrite Hn. do 2 f_equal.
  destruct (Z.eq_dec n 0) as [Hn0 | Hn0].
  - rewrite (Hk Hn0). destruct (zget B 0 []) as [| row rows]; [done |].
    unfold size0 in Hn. simpl in Hn. lia.
  - apply (zget_in_range (fun row => size0 row = k)); [done |]. unfold size0 in *. lia.
Qed.

(** *** Adding rows *)

Lemma vadd_swap (a b x y : list Qc) :
  vadd (vadd a b) (vadd x y) = vadd (vadd a x) (vadd b y).
Proof.
  unfold vadd. revert b x y.
  induction a as [| a0 a IH]; intros [| b0 b] [| x0 x] [| y0 y]; simpl; try done.
  f_equal; [ring | apply IH].
Qed.

Lemma vadd_zeros_r (v : list Qc) : vadd v (replicate (length v) 0%Qc) = v.
Proof. unfold vadd. induction v as [| a v IH]; simpl; [done |]. f_equal; [ring | done]. Qed.

Lemma vadd_zeros_l (v : list Qc) : vadd (replicate (length v) 0%Qc) v = v.
Proof. unfold vadd. induction v as [| a v IH]; simpl; [done |]. f_equal; [ring | done]. Qed.

Lemma vadd_zeros (n : nat) :
  vadd (replicate n 0%Qc) (replicate n 0%Qc) = replicate n 0%Qc.
Proof. unfold vadd. induction n as [| n IH]; simpl; [done |]. rewrite IH. f_equal; ring. Qed.

Lemma foldl_vadd_split {A B} (fa fb : A -> B -> list Qc) (ws : list A) (es : list B)
    (a b : list Qc) :
  foldl vadd (vadd a b) (zip_with (fun w e => vadd (fa w e) (fb w e)) ws es)
  = vadd (foldl vadd a (zip_with fa ws es)) (foldl vadd b (zip_with fb ws es)).
Proof.
  revert es a b. induction ws as [| w ws IH]; intros [| e es] a b; simpl; try done.
  rewrite vadd_swap. apply IH.
Qed.

Lemma zip_with_ext_Forall {A B C} (P : B -> Prop) (f g : A -> B -> C) (ws : list A)
    (es : list B) :
  Forall P es -> (forall w e, P e -> f w e = g w e) -> zip_with f ws es = zip_with g ws es.
Proof.
  intros Hes Hfg. revert ws. induction Hes as [| e es He _ IH]; intros [| w ws]; simpl;
    try done.
  f_equal; [by apply Hfg | apply IH].
Qed.

Lemma zip_with_zip_ext {A B C D} (P : C -> Prop) (f g : A -> B * C -> D) (xs : list A)
    (ws : list B) (cs : list C) :
  Forall P cs -> (forall x w c, P c -> f x (w, c) = g x (w, c)) ->
  zip_with f xs (zip ws cs) = zip_with g xs (zip ws cs).
Proof.
  intros Hcs Hfg. revert xs ws.
  induction Hcs as [| c cs Hc _ IH]; intros [| x xs] [| w ws]; simpl; try done.
  f_equal; [by apply Hfg | apply IH].
Qed.

Lemma zip_with_vadd_zip_with {A B} (f g : A -> B -> list Qc) (xs : list A) (ys : list B) :
  zip_with vadd (zip_with f xs ys) (zip_with g xs ys)
  = zip_with (fun x y => vadd (f x y) (g x y)) xs ys.
Proof.
  revert ys. induction xs as [| x xs IH]; intros [| y ys]; simpl; try done.
  f_equal. apply IH.
Qed.

Lemma length_expert_mlp act (w1 w2 : tensor3) (e : Z) (x : list Qc) :
  length (expert_mlp act w1 w2 e x) = length (zget w2 e []).
Proof. unfold expert_mlp, linear. by rewrite length_map. Qed.

Section TwoShards.
Variable act : list Qc -> list Qc.
Variables (w1a w1b w2a w2b : tensor3).
Variables (N2 K2 : Z).
Hypothesis Hwa : size0 w2a = size0 w1a.
Hypothesis Hwb : size0 w2b = size0 w1b.
Hypothesis Ha : 0 < size0 w1a.
Hypothesis Hb : 0 < size0 w1b.
Hypothesis Hc2a : cube (size0 w2a) N2 K2 w2a.
Hypothesis Hc2b : cube (size0 w2b) N2 K2 w2b.

Let Ea := size0 w1a.
Let Eb := size0 w1b.

Lemma shard_width_a e : 0 <= e < Ea -> length (zget w2a e []) = Z.to_nat N2.
Proof.
  intros He. destruct Hc2a as [_ Hall].
  pose proof (zget_in_range (rect N2 K2) w2a e [] Hall ltac:(lia)) as [Hn _].
  unfold size0 in Hn. lia.
Qed.

Lemma shard_width_b e : 0 <= e < Eb -> length (zget w2b e []) = Z.to_nat N2.
Proof.
  intros He. destruct Hc2b as [_ Hall].
  pose proof (zget_in_range (rect N2 K2) w2b e [] Hall ltac:(lia)) as [Hn _].
  unfold size0 in Hn. lia.
Qed.

Lemma slot_split (x : list Qc) (w : Qc) (e : Z) :
  0 <= e < Ea + Eb ->
  map (fun v => (v * w)%Qc) (expert_mlp act (w1a ++ w1b) (w2a ++ w2b) e x)
  = vadd (shard_slot act w1a w2a 0 x w e) (shard_slot act w1b w2b Ea x w e).
Proof.
  intros He. unfold shard_slot. fold Ea Eb.
  rewrite (shard_width_a 0), (shard_width_b 0) by (unfold Ea, Eb; lia).
  replace (e - 0) with e by lia.
  destruct (Z.ltb_spec e Ea) as [Hlt | Hge].
  - destruct (Z.leb_spec 0 e) as [_ |]; [| lia].
    destruct (Z.leb_spec 0 (e - Ea)) as [| _]; [lia |]. simpl.
    unfold expert_mlp at 1. rewrite !zget_app_l by (rewrite ?Hwa; unfold Ea in *; lia).
    fold (expert_mlp act w1a w2a e x).
    rewrite <- (shard_width_a e) by lia.
    rewrite <- (length_expert_mlp act w1a w2a e x).
    rewrite <- (length_map (fun v => (v * w)%Qc)). by rewrite vadd_zeros_r.
  - destruct (Z.leb_spec 0 e) as [_ |]; [| lia].
    destruct (Z.leb_spec 0 (e - Ea)) as [_ |]; [| lia].
    destruct (Z.ltb_spec (e - Ea) Eb) as [_ |]; [| lia]. simpl.
    unfold expert_mlp at 1. rewrite !zget_app_r by (rewrite ?Hwa; unfold Ea in *; lia).
    rewrite Hwa. fold Ea. fold (expert_mlp act w1b w2b (e - Ea) x).
    rewrite <- (shard_width_b (e - Ea)) by lia.
    rewrite <- (length_expert_mlp act w1b w2b (e - Ea) x).
    rewrite <- (length_map (fun v => (v * w)%Qc)). by rewrite vadd_zeros_l.
Qed.

Lemma token_split (x : list Qc) (ws : list Qc) (es : list Z) :
  Forall (fun e => 0 <= e < Ea + Eb) es ->
  naive_token act (w1a ++ w1b) (w2a ++ w2b) x ws es
  = vadd (shard_token act w1a w2a 0 x ws es) (shard_token act w1b w2b Ea x ws es).
Proof.
  intros Hes. unfold naive_token, shard_token.
  rewrite zget_app_l by (rewrite Hwa; lia).
  rewrite (shard_width_a 0), (shard_width_b 0) by (unfold Ea, Eb; lia).
  rewrite <- (vadd_zeros (Z.to_nat N2)) at 1.
  change (zip_with Qcplus) with vadd.
  rewrite <- foldl_vadd_split. f_equal.
  apply (zip_with_ext_Forall (fun e => 0 <= e < Ea + Eb)); [done |].
  intros w e He. by apply slot_split.
Qed.

Lemma moe_split (hidden_states : tensor2) (topk_weights : tensor2)
    (topk_ids : list (list Z)) :
  Forall (Forall (fun e => 0 <= e < Ea + Eb)) topk_ids ->
  naive_moe act hidden_states (w1a ++ w1b) (w2a ++ w2b) topk_weights topk_ids
  = zip_with vadd (shard_moe act hidden_states w1a w2a 0 topk_weights topk_ids)
                  (shard_moe act hidden_states w1b w2b Ea topk_weights topk_ids).
Proof.
  intros Hids. unfold naive_moe, shard_moe. rewrite zip_with_vadd_zip_with.
  apply (zip_with_zip_ext (Forall (fun e => 0 <= e < Ea + Eb))); [done |].
  intros x ws es Hes. simpl. by apply token_split.
Qed.
End TwoShards.

(** ** [next_power_of_2] bit by bit *)

Lemma smeared_init x : smeared x 1 x.
Proof.
  intros i Hi. split.
  - intros H. exists i. split; [lia | done].
  - intros (j & Hj & H). by replace i with j by lia.
Qed.

Lemma smeared_step x d a :
  0 < d -> smeared x d a -> smeared x (2 * d) (Z.lor a (Z.shiftr a d)).
Proof.
  intros Hd Ha i Hi. rewrite Z.lor_spec, Z.shiftr_spec by lia.
  rewrite orb_true_iff, (Ha i Hi), (Ha (i + d)) by lia. split.
  - intros [(j & Hj & H) | (j & Hj & H)]; exists j; (split; [lia | done]).
  - intros (j & Hj & H). destruct (Z_lt_le_dec j (i + d)).
    + left. exists j. split; [lia | done].
    + right. exists j. split; [lia | done].
Qed.

Lemma smeared_ones x a :
  0 < x < 2 ^ 64 -> smeared x 64 a -> 0 <= a -> a = Z.ones (Z.log2 x + 1).
Proof.
  intros Hx Ha Hpos. pose proof (Z.log2_nonneg x) as Hk.
  assert (Z.log2 x < 64) as Hk64 by (apply Z.log2_lt_pow2; lia).
  apply Z.bits_inj'. intros i Hi. apply eq_true_iff_eq.
  rewrite (Ha i Hi). rewrite Z.testbit_ones_nonneg by lia. rewrite Z.ltb_lt. split.
  - intros (j & Hj & H). destruct (Z_lt_le_dec (Z.log2 x) j) as [Hgt | Hle]; [| lia].
    rewrite Z.bits_above_log2 in H by lia. discriminate H.
  - intros Hlt. exists (Z.log2 x). split; [lia |]. apply Z.bit_log2. lia.
Qed.

Lemma next_power_of_2_pow n :
  1 <= n <= 2 ^ 64 -> next_power_of_2 n = 2 ^ Z.log2_up n.
Proof.
  intros Hn. unfold next_power_of_2.
  destruct (Z.eq_dec n 1) as [-> | Hn1]; [done |].
  set (x := n - 1). assert (0 < x < 2 ^ 64) as Hx by (unfold x; lia).
  pose proof (smeared_init x) as H0.
  pose proof (smeared_step x 1 _ ltac:(lia) H0) as H1.
  pose proof (smeared_step x 2 _ ltac:(lia) H1) as H2.
  pose proof (smeared_step x 4 _ ltac:(lia) H2) as H3.
  pose proof (smeared_step x 8 _ ltac:(lia) H3) as H4.
  pose proof (smeared_step x 16 _ ltac:(lia) H4) as H5.
  pose proof (smeared_step x 32 _ ltac:(lia) H5) as H6.
  change (2 * 32) with 64 in H6.
  rewrite (smeared_ones x _ Hx H6).
  - rewrite Z.ones_equiv. unfold x.
    rewrite Z.log2_up_eqn by lia. replace (Z.pred n) with (n - 1) by lia.
    replace (Z.succ (Z.log2 (n - 1))) with (Z.log2 (n - 1) + 1) by lia. lia.
  - repeat (apply Z.lor_nonneg; split; [| apply Z.shiftr_nonneg]); lia.
Qed.

(** ** The reduction over the top-k axis, cell by cell *)

Lemma zget_vadd (a b : list Qc) (k : Z) :
  0 <= k < size0 a -> 0 <= k < size0 b ->
  zget (vadd a b) k 0%Qc = (zget a k 0 + zget b k 0)%Qc.
Proof.
  intros Ha Hb. rewrite !zget_nonneg by lia.
  pose proof (zget_lt_length a k 0%Qc Ha) as Hla.
  pose proof (zget_lt_length b k 0%Qc Hb) as Hlb.
  unfold vadd.
  rewrite (proj2 (lookup_zip_with_Some Qcplus a b (Z.to_nat k)
                    (zget a k 0 + zget b k 0)%Qc)).
  - rewrite Hla, Hlb. simpl. rewrite !zget_nonneg by lia. by rewrite Hla, Hlb.
  - exists (zget a k 0%Qc), (zget b k 0%Qc). done.
Qed.

Lemma foldl_vadd_cell (n : Z) (rows : tensor2) (acc : list Qc) (k : Z) :
  size0 acc = n -> Forall (fun r => size0 r = n) rows -> 0 <= k < n ->
  zget (foldl vadd acc rows) k 0%Qc
  = (zget acc k 0 + sumq (arange 0 (size0 rows)) (fun s => zget (zget rows s []) k 0))%Qc.
Proof.
  intros Hacc Hrows Hk. revert acc Hacc.
  induction Hrows as [| r rows Hr _ IH]; intros acc Hacc.
  - simpl. ring.
  - simpl foldl. rewrite IH.
    2:{ unfold vadd, size0 in *. rewrite length_zip_with. lia. }
    rewrite zget_vadd by lia.
    change (size0 (r :: rows)) with (Z.of_nat (S (length rows))).
    rewrite sumq_shift. change (Z.of_nat (length rows)) with (size0 rows).
    rewrite (sumq_ext _ (fun s => zget (zget (r :: rows) (s + 1) []) k 0%Qc)
               (fun s => zget (zget rows s []) k 0%Qc)).
    2:{ intros s Hs. apply elem_of_arange in Hs. by rewrite zget_cons_succ by lia. }
    change (zget (r :: rows) 0 []) with r. ring.
Qed.

Lemma sum_dim1_cell (M topk N2 : Z) (C : tensor2) (i k : Z) :
  rect (M * topk) N2 C -> 0 <= topk -> 0 <= i < M -> 0 <= k < N2 ->
  get2 (sum_dim1 N2 (unflatten M topk C)) i k
  = sumq (arange 0 topk) (fun s => get2 C (i * topk + s) k).
Proof.
  intros [HL Hrows] Htopk Hi Hk. unfold get2 at 1, sum_dim1.
  rewrite (zget_nonneg _ i) by lia. rewrite list_lookup_fmap.
  rewrite unflatten_lookup by lia. simpl.
  set (rows := take (Z.to_nat topk) (drop (Z.to_nat i * Z.to_nat topk) C)).
  assert (size0 rows = topk) as Hsz.
  { unfold rows, size0 in *. rewrite length_take, length_drop. nia. }
  rewrite (foldl_vadd_cell N2).
  - rewrite Hsz. rewrite zget_nonneg by lia.
    rewrite lookup_replicate_2 by lia. simpl.
    rewrite (sumq_ext _ _ (fun s => get2 C (i * topk + s) k)); [ring |].
    intros s Hs. apply elem_of_arange in Hs. unfold get2. f_equal.
    assert (0 <= i * topk + s) as Hq by nia.
    rewrite (zget_nonneg rows s), (zget_nonneg C (i * topk + s)) by lia. unfold rows.
    rewrite lookup_take. destruct (decide (Z.to_nat s < Z.to_nat topk)%nat); [| lia].
    rewrite lookup_drop. do 2 f_equal. nia.
  - by apply size0_replicate; lia.
  - unfold rows. by apply Forall_take, Forall_drop.
  - done.
Qed.

Lemma zget_map_in_range {T U} (f : T -> U) (l : list T) (i : Z) (d : T) (d' : U) :
  0 <= i < size0 l -> zget (map f l) i d' = f (zget l i d).
Proof.
  intros Hi. rewrite (zget_nonneg (map f l)) by lia.
  by rewrite list_lookup_fmap, (zget_lt_length l i d Hi).
Qed.

(** ** [unflatten] after [flatten] *)

Lemma take_drop_concat {T} (k : nat) (rows : list (list T)) (t : nat) (r : list T) :
  Forall (fun r => length r = k) rows -> rows !! t = Some r ->
  take k (drop (t * k) (concat rows)) = r.
Proof.
  intros Hall. revert t. induction Hall as [| r0 rows Hr0 _ IH]; intros t Ht; [done |].
  rewrite concat_cons. destruct t as [| t].
  - inversion Ht. subst r0. rewrite Nat.mul_0_l, drop_0.
    rewrite take_app_le by lia. by rewrite take_ge by lia.
  - rewrite drop_app_ge by lia. replace (S t * k - length r0)%nat with (t * k)%nat by lia.
    by apply IH.
Qed.

Lemma unflatten_flatten (m k n : Z) (T : tensor3) :
  0 <= k -> cube m k n T -> unflatten m k (flatten T) = T.
Proof.
  intros Hk [Hm Hall]. apply list_eq. intros t.
  destruct (T !! t) as [r |] eqn:Ht.
  - pose proof (lookup_lt_Some _ _ _ Ht) as Hlt. unfold size0 in Hm.
    rewrite unflatten_lookup by lia. f_equal. unfold flatten.
    apply take_drop_concat; [| done].
    eapply List.Forall_impl; [| exact Hall]. intros r' [Hr' _]. unfold size0 in Hr'. lia.
  - pose proof (lookup_ge_None_1 _ _ Ht) as Hge. unfold size0 in Hm.
    apply lookup_ge_None_2. unfold unflatten. rewrite length_map, length_seq. lia.
Qed.

(** * Further theorems *)

(** X1. The tile mapping of [fused_moe_kernel], in its ungrouped branch
    ([GROUP_SIZE_M == 1]) and in its grouped branch alike, sends the
    program ids [0 .. num_pid_m * num_pid_n - 1] one-to-one onto the tiles
    [[0, num_pid_m) x [0, num_pid_n)]: every program gets a tile of the
    grid, no two programs get the same tile, and every tile is some
    program's. *)
Theorem tile_coords_bijection (N : Z) (cfg : Config) (M_NP2 : Z) :
  0 < GROUP_SIZE_M cfg -> 0 < BLOCK_SIZE_M cfg -> 0 < M_NP2 ->
  let npm := cdiv M_NP2 (BLOCK_SIZE_M cfg) in
  let npn := cdiv N (BLOCK_SIZE_N cfg) in
  (forall pid, 0 <= pid < npm * npn ->
     0 <= fst (tile_coords N cfg M_NP2 pid) < npm /\
     0 <= snd (tile_coords N cfg M_NP2 pid) < npn) /\
  (forall pid pid', 0 <= pid < npm * npn -> 0 <= pid' < npm * npn ->
     tile_coords N cfg M_NP2 pid = tile_coords N cfg M_NP2 pid' -> pid = pid') /\
  (forall pm pn, 0 <= pm < npm -> 0 <= pn < npn ->
     exists pid, 0 <= pid < npm * npn /\ tile_coords N cfg M_NP2 pid = (pm, pn)).
Proof.
  intros HG HBM HNP2 npm npn. split; [| split].
  - intros pid Hpid. by apply tile_coords_range.
  - intros pid pid' Hpid Hpid'. by apply tile_coords_inj.
  - intros pm pn Hpm Hpn. by apply tile_coords_surj.
Qed.

(** X2. [GROUP_SIZE_M] only changes which program computes which tile:
    two configurations with the same block sizes and any positive group
    sizes make a launch issue the same element stores. *)
Theorem group_size_same_stores (A : tensor2) (B : tensor3) (SI es ee : list Z)
    (weights : tensor2) (cfg cfg' : Config) (M_NP2 : Z) (enable_weights : bool)
    (top_k off : Z) (reindex_a reindex_c : bool) :
  0 < GROUP_SIZE_M cfg -> 0 < GROUP_SIZE_M cfg' -> 0 < BLOCK_SIZE_M cfg -> 0 < M_NP2 ->
  BLOCK_SIZE_M cfg' = BLOCK_SIZE_M cfg -> BLOCK_SIZE_N cfg' = BLOCK_SIZE_N cfg ->
  BLOCK_SIZE_K cfg' = BLOCK_SIZE_K cfg ->
  forall s : store,
    s ∈ launch_stores A B SI es ee weights cfg M_NP2 enable_weights top_k off
          reindex_a reindex_c
    <-> s ∈ launch_stores A B SI es ee weights cfg' M_NP2 enable_weights top_k off
              reindex_a reindex_c.
Proof.
  intros HG HG' HBM HNP2 EBM EBN EBK s. split.
  - by apply launch_stores_regroup.
  - apply launch_stores_regroup; try done; lia.
Qed.

(** X3. The loop over [k] accumulates, for a lane inside the row mask,
    the dot product over all [K] columns, whatever the block size (the
    masked tail block included when [BLOCK_SIZE_K] does not divide [K]);
    for a lane outside the mask the accumulator stays zero. *)
Theorem k_loop_closed_form (A : tensor2) (B : tensor3) (K : Z) (cfg : Config)
    (offs_am : Z -> Z) (mask_sid : Z -> bool) (offs_bn : Z -> Z) (exp_id i j : Z) :
  0 < BLOCK_SIZE_K cfg -> 0 <= K ->
  fst (foldl (k_step A B K cfg offs_am mask_sid offs_bn exp_id) (fun _ _ => 0%Qc, 0)
             (arange 0 (cdiv K (BLOCK_SIZE_K cfg)))) i j
  = if mask_sid i
    then sumq (arange 0 K)
              (fun x => (get2 A (offs_am i) x * get3 B exp_id (offs_bn j) x)%Qc)
    else 0%Qc.
Proof.
  intros HBK HK. destruct (mask_sid i) eqn:Hmask.
  - by apply k_loop_full.
  - by apply k_loop_masked.
Qed.

(** X4. [_start_end_kernel] on any index tensor, sorted or not: the
    stored pair does not depend on the block size of the scan; its length
    is the number of positions holding the expert; it is [(0, 0)] when
    there is none, and otherwise it starts at the first such position. *)
Theorem start_end_block_independent (TopkIdx SortedIdx : list Z)
    (len_sorted_idx num_experts BLOCK BLOCK' exp_id : Z) :
  0 <= len_sorted_idx -> 0 < BLOCK -> 0 < BLOCK' -> num_experts <> exp_id ->
  let g := sorted_key TopkIdx SortedIdx in
  let se := _start_end_kernel TopkIdx SortedIdx len_sorted_idx num_experts BLOCK exp_id in
  se = _start_end_kernel TopkIdx SortedIdx len_sorted_idx num_experts BLOCK' exp_id /\
  snd se - fst se = occ g exp_id len_sorted_idx /\
  (occ g exp_id len_sorted_idx = 0 -> se = (0, 0)) /\
  (0 < occ g exp_id len_sorted_idx ->
   0 <= fst se < len_sorted_idx /\ g (fst se) = exp_id /\
   forall p, 0 <= p < fst se -> g p <> exp_id).
Proof.
  intros Hlen HB HB' Hne g se.
  pose proof (start_end_kernel_spec TopkIdx SortedIdx len_sorted_idx num_experts BLOCK
                exp_id Hlen HB Hne) as (Hend & Hzero & Hpos).
  pose proof (start_end_kernel_spec TopkIdx SortedIdx len_sorted_idx num_experts BLOCK'
                exp_id Hlen HB' Hne) as (Hend' & Hzero' & Hpos').
  fold g in Hend, Hzero, Hpos, Hend', Hzero', Hpos'. fold se in Hend, Hzero, Hpos.
  set (se' := _start_end_kernel TopkIdx SortedIdx len_sorted_idx num_experts BLOCK' exp_id)
    in *.
  pose proof (occ_nonneg g exp_id len_sorted_idx) as Hocc.
  split; [| split; [lia | split; [| done]]].
  - destruct se as [s e], se' as [s' e']. simpl in *.
    destruct (Z.eq_dec (occ g exp_id len_sorted_idx) 0) as [H0 | H0].
    + rewrite (Hzero H0), (Hzero' H0) in *. f_equal. lia.
    + destruct (Hpos ltac:(lia)) as (Hr & Hg & Hfirst).
      destruct (Hpos' ltac:(lia)) as (Hr' & Hg' & Hfirst').
      assert (s = s') as <-
        by (apply (start_end_first_unique g exp_id); done || lia).
      f_equal. lia.
  - intros H0. destruct se as [s e]. simpl in *. rewrite (Hzero H0) in *. f_equal. lia.
Qed.

(** X5. Against the reference process quoted in the docstring of
    [get_start_end] (one-hot counts, their running sum, the difference): for
    ids in [[0, E)] the segment lengths agree for every expert and the bounds
    agree for every expert that has assignments; for an expert without
    assignments the code stores [(0, 0)] where the reference has the running
    total on both sides. *)
Theorem start_end_vs_docstring
    (argsort : list Z -> list Z) (uninit_int : nat -> Z -> Z -> Z)
    (topk_ids : list (list Z)) (E : Z) (tr : list event) :
  argsort_spec argsort -> 0 <= E ->
  Forall (Forall (fun id => 0 <= id < E)) topk_ids ->
  let keys := concat topk_ids in
  let ref_start := fst (docstring_start_end keys E) in
  let ref_end := snd (docstring_start_end keys E) in
  exists sorted_idx exp_start exp_end tr',
    _get_sorted_idx argsort uninit_int topk_ids E tr
    = (tr', inr (sorted_idx, exp_start, exp_end)) /\
    forall e, 0 <= e < E ->
      zget exp_end e 0 - zget exp_start e 0 = zget ref_end e 0 - zget ref_start e 0 /\
      (0 < count_id e keys ->
       zget exp_start e 0 = zget ref_start e 0 /\ zget exp_end e 0 = zget ref_end e 0) /\
      (count_id e keys = 0 ->
       zget exp_start e 0 = 0 /\ zget exp_end e 0 = 0 /\
       zget ref_start e 0 = count_lt e keys /\ zget ref_end e 0 = count_lt e keys).
Proof.
  intros Hargsort HE Hids keys ref_start ref_end.
  destruct (get_sorted_idx_run argsort uninit_int Hargsort topk_ids E tr HE)
    as (es & ee & Hrun & Hseg).
  fold keys in Hrun, Hseg.
  eexists (argsort keys), es, ee, _. split; [exact Hrun |].
  intros e He.
  assert (Forall (fun x => 0 <= x) keys) as Hpos.
  { apply Forall_concat. eapply List.Forall_impl; [| exact Hids].
    intros row Hrow. eapply List.Forall_impl; [| exact Hrow]. simpl. lia. }
  destruct (docstring_start_end_spec keys E e Hpos He) as [Hrs Hre].
  fold ref_start in Hrs. fold ref_end in Hre.
  destruct Hseg as (_ & _ & Hseg). destruct (Hseg e He) as (Hs0 & Hend & HL & Hz & Hin).
  rewrite (argsort_count argsort Hargsort keys) in Hend, Hz.
  pose proof (count_id_nonneg e keys) as Hcnt.
  split; [lia |]. split.
  - intros Hc.
    assert (zget es e 0 = count_lt e keys) as Hstart; [| lia].
    unfold count_lt.
    rewrite <- (argsort_sumz argsort keys (fun x => Z.b2z (x <? e)) Hargsort).
    symmetry. apply (sorted_first_count (sorted_key keys (argsort keys)) (size0 keys) e).
    + apply (argsort_mono argsort Hargsort keys).
    + lia.
    + apply Hin; lia.
    + intros p Hp Hgp. apply Hin in Hgp; lia.
  - intros Hc. rewrite (Hz Hc) in *. lia.
Qed.

(** X6. In a launch over the permutation and segment table that
    [_get_sorted_idx] returns, under any listed configuration and with
    either setting of every flag, two stores to the same element of [C]
    carry the same value: the column wrap-around [% N] and overlapping
    tiles repeat stores, they never compete. *)
Theorem launch_stores_agree
    (argsort : list Z -> list Z) (uninit_int : nat -> Z -> Z -> Z)
    (topk_ids : list (list Z)) (num_experts : Z) (tr tr' : list event)
    (sorted_idx exp_start exp_end : list Z)
    (A : tensor2) (B : tensor3) (weights : tensor2) (cfg : Config) (M_NP2 : Z)
    (enable_weights : bool) (top_k expert_offset : Z) (reindex_a reindex_c : bool) :
  argsort_spec argsort -> cfg ∈ get_cuda_autotune_config -> 0 < M_NP2 ->
  _get_sorted_idx argsort uninit_int topk_ids num_experts tr
  = (tr', inr (sorted_idx, exp_start, exp_end)) ->
  forall r c v v',
    (r, c, v) ∈ launch_stores A B sorted_idx exp_start exp_end weights cfg M_NP2
                  enable_weights top_k expert_offset reindex_a reindex_c ->
    (r, c, v') ∈ launch_stores A B sorted_idx exp_start exp_end weights cfg M_NP2
                   enable_weights top_k expert_offset reindex_a reindex_c ->
    v = v'.
Proof.
  intros Hargsort Hcfg HNP2 Hrun.
  destruct (Z_lt_le_dec num_experts 0) as [Hneg | Hne].
  { rewrite get_sorted_idx_neg in Hrun by done. discriminate Hrun. }
  destruct (get_sorted_idx_run argsort uninit_int Hargsort topk_ids num_experts tr Hne)
    as (es & ee & Hrun' & Hseg).
  rewrite Hrun in Hrun'. inversion Hrun'. subst.
  apply (launch_consistent A B (argsort (concat topk_ids)) es ee weights cfg M_NP2
           enable_weights top_k expert_offset reindex_a reindex_c
           (sorted_key (concat topk_ids) (argsort (concat topk_ids)))
           (size0 (concat topk_ids)) num_experts).
  - apply (autotune_config_ok (fun _ _ _ => cfg) 0 0 0). by intros ? ? ?.
  - done.
  - done.
  - intros p q Hp Hq. unfold dest_row. destruct reindex_c; [| done].
    by apply (argsort_inj argsort Hargsort (concat topk_ids)).
Qed.

(** X7. The outcome of [fused_moe] (trace, error or tensor) does not
    depend on the order in which the device retires the stores of a launch,
    for every call whatsoever, well-formed or not. *)
Theorem fused_moe_schedule_independent
    (argsort : list Z -> list Z) (uninit : nat -> Z -> Z -> Z -> Qc)
    (uninit_int : nat -> Z -> Z -> Z) (silu_and_mul_row : list Qc -> list Qc)
    (autotune : Z -> Z -> Z -> Config) (schedule schedule' : list store -> list store)
    (hidden_states : tensor2) (w1 w2 : tensor3) (topk_weights : tensor2)
    (topk_ids : list (list Z)) (topk expert_offset : Z) (num_experts : option Z)
    (renormalize : bool) (tr : list event) :
  argsort_spec argsort -> autotune_spec autotune ->
  schedule_spec schedule -> schedule_spec schedule' ->
  fused_moe argsort uninit uninit_int silu_and_mul_row autotune schedule
    hidden_states w1 w2 topk_weights topk_ids topk expert_offset num_experts renormalize tr
  = fused_moe argsort uninit uninit_int silu_and_mul_row autotune schedule'
      hidden_states w1 w2 topk_weights topk_ids topk expert_offset num_experts renormalize tr.
Proof.
  intros Hargsort Hauto Hs Hs'.
  destruct (shape3 w1) as [[E N] K1] eqn:Hs1.
  destruct (shape3 w2) as [[E2 N2] K2] eqn:Hs2.
  set (ne := match num_experts with None => E | Some n => n end).
  destruct (Z_lt_le_dec ne 0) as [Hneg | Hne].
  { unfold fused_moe. rewrite Hs1. simpl. fold ne.
    by rewrite !(bind_inl _ _ _ _ _ (get_sorted_idx_neg _ _ _ _ _ Hneg)). }
  destruct (Z_lt_le_dec topk 0) as [Hnegk | Htopk].
  { unfold fused_moe. rewrite Hs1. simpl. fold ne.
    destruct (get_sorted_idx_run argsort uninit_int Hargsort topk_ids ne tr Hne)
      as (es & ee & Hrun & _).
    rewrite !(bind_inr _ _ _ _ _ Hrun).
    by rewrite !(bind_inl _ _ _ _ _
                   (make_intermediate_neg uninit (size0 hidden_states) topk N _ _
                      (or_intror (or_introl Hnegk)))). }
  destruct (fused_moe_run_schedules argsort uninit uninit_int silu_and_mul_row autotune
              Hargsort hidden_states w1 w2 topk_weights topk_ids topk expert_offset
              num_experts renormalize E N K1 E2 N2 K2 Hs1 Hs2 tr Htopk Hne)
    as (es & ee & c1 & c2 & Hseg & Hc1 & Hc2 & Hrun).
  rewrite (Hrun schedule), (Hrun schedule'). f_equal. f_equal. f_equal. f_equal.
  set (M := size0 hidden_states) in *.
  set (M_NP2 := Z.max 64 (next_power_of_2 M)).
  assert (0 < M_NP2) as HNP2 by (unfold M_NP2; lia).
  set (keys := concat topk_ids) in *. set (SI := argsort keys) in *.
  assert (apply_stores
            (schedule (launch_stores hidden_states w1 SI es ee
                         (_renormalize topk_weights renormalize) (autotune N K1 M_NP2)
                         M_NP2 false topk expert_offset true false)) (flatten c1)
          = apply_stores
              (schedule' (launch_stores hidden_states w1 SI es ee
                            (_renormalize topk_weights renormalize) (autotune N K1 M_NP2)
                            M_NP2 false topk expert_offset true false)) (flatten c1))
    as ->.
  { apply (launch_schedule_irrelevant _ _ _ _ _ _ _ _ _ _ _ _ _
             (sorted_key keys SI) (size0 keys) ne
             (autotune_config_ok _ _ _ _ Hauto) HNP2 Hseg) with (M * topk) N;
      [by intros p q _ _ | done | done | by apply rect_flatten]. }
  apply (launch_schedule_irrelevant _ _ _ _ _ _ _ _ _ _ _ _ _
           (sorted_key keys SI) (size0 keys) ne
           (autotune_config_ok _ _ _ _ Hauto) HNP2 Hseg) with (M * topk) N2;
    [| done | done | by apply rect_flatten].
  intros p q Hp Hq. unfold dest_row. by apply (argsort_inj argsort Hargsort keys).
Qed.

(** X8. With [renormalize=True], on a well-formed call whose gating
    weights do not sum to zero for any token, [fused_moe] returns the naive
    reference computed with each token's weights divided by their sum. *)
Theorem fused_moe_renormalized
    (argsort : list Z -> list Z) (uninit : nat -> Z -> Z -> Z -> Qc)
    (uninit_int : nat -> Z -> Z -> Z) (silu_and_mul_row : list Qc -> list Qc)
    (autotune : Z -> Z -> Z -> Config) (schedule : list store -> list store)
    (hidden_states : tensor2) (w1 w2 : tensor3) (topk_weights : tensor2)
    (topk_ids : list (list Z)) (topk : Z) (tr : list event) :
  argsort_spec argsort -> autotune_spec autotune -> schedule_spec schedule ->
  valid_call silu_and_mul_row hidden_states w1 w2 topk_weights topk_ids topk ->
  Forall (fun row => vsum row <> 0%Qc) topk_weights ->
  snd (fused_moe argsort uninit uninit_int silu_and_mul_row autotune schedule
         hidden_states w1 w2 topk_weights topk_ids topk 0 None true tr)
  = inr (naive_moe silu_and_mul_row hidden_states w1 w2
           (map (fun row => map (fun w => (w / vsum row)%Qc) row) topk_weights)
           topk_ids).
Proof.
  intros Hargsort Hauto Hsched Hvalid _.
  destruct (shape3 w1) as [[E N] K1] eqn:Hs1.
  destruct (shape3 w2) as [[E2 N2] K2] eqn:Hs2.
  pose proof (valid_unpack _ _ _ _ _ _ _ _ _ _ _ _ _ Hs1 Hs2 Hvalid) as Hv.
  destruct Hv as (Htopk & Hh & Hw1 & Hw2 & HW & Hi1 & Hi2 & Hr & Hnd & Hact).
  assert (valid_call silu_and_mul_row hidden_states w1 w2
            (_renormalize topk_weights true) topk_ids topk) as Hvalid'.
  { unfold valid_call. rewrite Hs1, Hs2.
    repeat (split; [done |]). split; [by apply renormalize_rect |]. done. }
  assert (0 <= E) as HE.
  { pose proof Hs1 as Hs1'. unfold shape3, size0 in Hs1'. inversion Hs1'. lia. }
  destruct (fused_moe_run argsort uninit uninit_int silu_and_mul_row autotune schedule
              Hargsort hidden_states w1 w2 topk_weights topk_ids topk 0 None true
              E N K1 E2 N2 K2 Hs1 Hs2 tr Htopk HE)
    as (es & ee & c1 & c2 & Hseg & Hc1 & Hc2 & _ & _ & Hrun).
  simpl in Hrun. rewrite Hrun. simpl. f_equal.
  rewrite (keys_size _ _ _ _ _ _ _ _ _ _ _ _ _ Hs1 Hs2 Hvalid) in Hseg.
  apply (reduced_eq_naive argsort silu_and_mul_row schedule Hargsort Hsched
           hidden_states w1 w2 (_renormalize topk_weights true) topk_ids topk
           E N K1 E2 N2 K2 Hs1 Hs2 Hvalid'
           _ _ (autotune_config_ok _ _ _ _ Hauto) (autotune_config_ok _ _ _ _ Hauto)
           es ee c1 c2 Hseg Hc1 Hc2).
Qed.


(** X10. Whenever [fused_moe] returns a tensor, it has one row per token
    and [w2.shape[1]] columns, whatever the other operands are. *)
Theorem fused_moe_output_shape
    (argsort : list Z -> list Z) (uninit : nat -> Z -> Z -> Z -> Qc)
    (uninit_int : nat -> Z -> Z -> Z) (silu_and_mul_row : list Qc -> list Qc)
    (autotune : Z -> Z -> Z -> Config) (schedule : list store -> list store)
    (hidden_states : tensor2) (w1 w2 : tensor3) (topk_weights : tensor2)
    (topk_ids : list (list Z)) (topk expert_offset : Z) (num_experts : option Z)
    (renormalize : bool) (tr : list event) :
  argsort_spec argsort ->
  match snd (fused_moe argsort uninit uninit_int silu_and_mul_row autotune schedule
               hidden_states w1 w2 topk_weights topk_ids topk expert_offset
               num_experts renormalize tr) with
  | inr out => rect (size0 hidden_states) (snd (fst (shape3 w2))) out
  | inl _ => True
  end.
Proof.
  intros Hargsort.
  destruct (shape3 w1) as [[E N] K1] eqn:Hs1.
  destruct (shape3 w2) as [[E2 N2] K2] eqn:Hs2.
  set (ne := match num_experts with None => E | Some n => n end).
  destruct (Z_lt_le_dec ne 0) as [Hneg | Hne].
  { unfold fused_moe. rewrite Hs1. simpl. fold ne.
    by rewrite (bind_inl _ _ _ _ _ (get_sorted_idx_neg _ _ _ _ _ Hneg)). }
  destruct (Z_lt_le_dec topk 0) as [Hnegk | Htopk].
  { unfold fused_moe. rewrite Hs1. simpl. fold ne.
    destruct (get_sorted_idx_run argsort uninit_int Hargsort topk_ids ne tr Hne)
      as (es & ee & Hrun & _).
    rewrite (bind_inr _ _ _ _ _ Hrun).
    by rewrite (bind_inl _ _ _ _ _
                  (make_intermediate_neg uninit (size0 hidden_states) topk N _ _
                     (or_intror (or_introl Hnegk)))). }
  destruct (fused_moe_run_schedules argsort uninit uninit_int silu_and_mul_row autotune
              Hargsort hidden_states w1 w2 topk_weights topk_ids topk expert_offset
              num_experts renormalize E N K1 E2 N2 K2 Hs1 Hs2 tr Htopk Hne)
    as (es & ee & c1 & c2 & Hseg & Hc1 & Hc2 & Hrun).
  rewrite (Hrun schedule). simpl.
  assert (0 <= N2) as HN2.
  { pose proof Hs2 as Hs2'. unfold shape3, size0 in Hs2'. inversion Hs2'. lia. }
  apply rect_sum_dim1; [unfold size0; lia | done |].
  apply (rect_apply_stores (size0 hidden_states * topk) N2). by apply rect_flatten.
Qed.

Lemma shape3_degenerate (B : tensor3) (e n k : Z) : shape3 B = (e, n, k) -> n = 0 -> k = 0.
Proof.
  unfold shape3. intros H Hn. inversion H as [[He Hn' Hk]]. rewrite Hn in Hn'.
  destruct (zget B 0 []) as [| row rows]; [done |]. unfold size0 in Hn'. simpl in Hn'. lia.
Qed.

(** X11. On a shard, that is with [num_experts] given and larger than
    the number of resident experts, [fused_moe] returns the partial sum over
    the resident experts [[expert_offset, expert_offset + E)], each read at
    its local index; a slot whose id lies elsewhere (another shard's expert,
    or no expert at all) contributes exactly zero. *)
Theorem fused_moe_sharded
    (argsort : list Z -> list Z) (uninit : nat -> Z -> Z -> Z -> Qc)
    (uninit_int : nat -> Z -> Z -> Z) (silu_and_mul_row : list Qc -> list Qc)
    (autotune : Z -> Z -> Z -> Config) (schedule : list store -> list store)
    (hidden_states : tensor2) (w1 w2 : tensor3) (topk_weights : tensor2)
    (topk_ids : list (list Z)) (topk expert_offset num_experts : Z) (tr : list event) :
  argsort_spec argsort -> autotune_spec autotune -> schedule_spec schedule ->
  valid_shard_call silu_and_mul_row hidden_states w1 w2 topk_weights topk_ids topk
    expert_offset num_experts ->
  snd (fused_moe argsort uninit uninit_int silu_and_mul_row autotune schedule
         hidden_states w1 w2 topk_weights topk_ids topk expert_offset
         (Some num_experts) false tr)
  = inr (shard_moe silu_and_mul_row hidden_states w1 w2 expert_offset
           topk_weights topk_ids).
Proof.
  intros Hargsort Hauto Hsched Hvalid.
  destruct (shape3 w1) as [[E N] K1] eqn:Hs1.
  destruct (shape3 w2) as [[E2 N2] K2] eqn:Hs2.
  destruct (valid_shard_unpack _ _ _ _ _ _ _ _ _ _ _ _ _ _ _ Hs1 Hs2 Hvalid)
    as (Htopk & Hh & Hw1 & Hw2 & HW & Hi1 & Hi2 & Hnd & Hact & Hoff0 & Hoff & Hstrict).
  by apply (shard_call_result argsort uninit uninit_int silu_and_mul_row autotune schedule
              Hargsort Hauto Hsched hidden_states w1 w2 topk_weights topk_ids topk
              expert_offset num_experts E N K1 E2 N2 K2).
Qed.

(** X12. Sharding consistency: one call with all experts equals the
    elementwise sum of two calls on the two halves of the expert stack, each
    with its [expert_offset] and the total [num_experts]. *)
Theorem sharding_consistency
    (argsort : list Z -> list Z) (uninit : nat -> Z -> Z -> Z -> Qc)
    (uninit_int : nat -> Z -> Z -> Z) (silu_and_mul_row : list Qc -> list Qc)
    (autotune : Z -> Z -> Z -> Config) (schedule : list store -> list store)
    (hidden_states : tensor2) (w1a w1b w2a w2b : tensor3) (topk_weights : tensor2)
    (topk_ids : list (list Z)) (topk : Z) (tr tra trb : list event) :
  argsort_spec argsort -> autotune_spec autotune -> schedule_spec schedule ->
  valid_call silu_and_mul_row hidden_states (w1a ++ w1b) (w2a ++ w2b)
    topk_weights topk_ids topk ->
  0 < size0 w1a -> 0 < size0 w1b -> size0 w2a = size0 w1a ->
  let E := size0 w1a + size0 w1b in
  let run := fused_moe argsort uninit uninit_int silu_and_mul_row autotune schedule
               hidden_states in
  exists full part_a part_b,
    snd (run (w1a ++ w1b) (w2a ++ w2b) topk_weights topk_ids topk 0 None false tr)
    = inr full /\
    snd (run w1a w2a topk_weights topk_ids topk 0 (Some E) false tra) = inr part_a /\
    snd (run w1b w2b topk_weights topk_ids topk (size0 w1a) (Some E) false trb)
    = inr part_b /\
    full = zip_with vadd part_a part_b.
Proof.
  intros Hargsort Hauto Hsched Hvalid Ha Hb Hwa E run.
  destruct (shape3 (w1a ++ w1b)) as [[E' N] K1] eqn:Hs1.
  destruct (shape3 (w2a ++ w2b)) as [[E2 N2] K2] eqn:Hs2.
  destruct (valid_unpack _ _ _ _ _ _ _ _ _ _ _ _ _ Hs1 Hs2 Hvalid)
    as (Htopk & Hh & Hw1 & Hw2 & HW & Hi1 & Hi2 & Hr & Hnd & Hact).
  assert (E' = E) as HE'.
  { destruct Hw1 as [Hsz _]. unfold E, size0 in *. rewrite length_app in Hsz. lia. }
  subst E'.
  assert (size0 w2b = size0 w1b) as Hwb.
  { destruct Hw2 as [Hsz _]. unfold E, size0 in *. rewrite length_app in Hsz. lia. }
  destruct (cube_app _ _ _ _ _ Hw1) as [Hw1a Hw1b].
  destruct (cube_app _ _ _ _ _ Hw2) as [Hw2a Hw2b].
  pose proof (shape3_degenerate _ _ _ _ Hs1) as Hd1.
  pose proof (shape3_degenerate _ _ _ _ Hs2) as Hd2.
  exists (naive_moe silu_and_mul_row hidden_states (w1a ++ w1b) (w2a ++ w2b)
            topk_weights topk_ids),
    (shard_moe silu_and_mul_row hidden_states w1a w2a 0 topk_weights topk_ids),
    (shard_moe silu_and_mul_row hidden_states w1b w2b (size0 w1a) topk_weights topk_ids).
  split; [| split; [| split]].
  - unfold run.
    destruct (fused_moe_run argsort uninit uninit_int silu_and_mul_row autotune schedule
                Hargsort hidden_states (w1a ++ w1b) (w2a ++ w2b) topk_weights topk_ids
                topk 0 None false E N K1 E2 N2 K2 Hs1 Hs2 tr Htopk ltac:(unfold E; lia))
      as (es & ee & c1 & c2 & Hseg & Hc1 & Hc2 & _ & _ & Hrun).
    simpl in Hrun. rewrite Hrun. simpl. f_equal.
    rewrite (keys_size _ _ _ _ _ _ _ _ _ _ _ _ _ Hs1 Hs2 Hvalid) in Hseg.
    apply (reduced_eq_naive argsort silu_and_mul_row schedule Hargsort Hsched
             hidden_states (w1a ++ w1b) (w2a ++ w2b) topk_weights topk_ids topk
             E N K1 E2 N2 K2 Hs1 Hs2 Hvalid
             _ _ (autotune_config_ok _ _ _ _ Hauto) (autotune_config_ok _ _ _ _ Hauto)
             es ee c1 c2 Hseg Hc1 Hc2).
  - unfold run.
    apply (shard_call_result argsort uninit uninit_int silu_and_mul_row autotune schedule
             Hargsort Hauto Hsched hidden_states w1a w2a topk_weights topk_ids topk
             0 E (size0 w1a) N K1 (size0 w2a) N2 K2); try done; try (unfold E; lia).
    + by apply cube_shape3.
    + apply cube_shape3; [done | lia | done].
    + by rewrite <- Hwa.
  - unfold run.
    apply (shard_call_result argsort uninit uninit_int silu_and_mul_row autotune schedule
             Hargsort Hauto Hsched hidden_states w1b w2b topk_weights topk_ids topk
             (size0 w1a) E (size0 w1b) N K1 (size0 w2b) N2 K2); try done;
      try (unfold E; lia).
    + by apply cube_shape3.
    + apply cube_shape3; [done | lia | done].
    + by rewrite <- Hwb.
  - apply (moe_split silu_and_mul_row w1a w1b w2a w2b N2 K2); done.
Qed.

(** X13. With the default [num_experts] the intermediate buffers are
    [torch.empty] and expert ids are not checked: each output element is the
    sum over the token's slots of the reference contribution where the id
    names one of the [E] experts, and of the uninitialised content of the
    second buffer where it does not. *)
Theorem unvalidated_ids_read_uninit
    (argsort : list Z -> list Z) (uninit : nat -> Z -> Z -> Z -> Qc)
    (uninit_int : nat -> Z -> Z -> Z) (silu_and_mul_row : list Qc -> list Qc)
    (autotune : Z -> Z -> Z -> Config) (schedule : list store -> list store)
    (hidden_states : tensor2) (w1 w2 : tensor3) (topk_weights : tensor2)
    (topk_ids : list (list Z)) (topk : Z) (tr : list event) :
  argsort_spec argsort -> autotune_spec autotune -> schedule_spec schedule ->
  operands_ok silu_and_mul_row hidden_states w1 w2 topk_weights topk_ids topk ->
  let M := size0 hidden_states in
  let E := size0 w1 in
  let N2 := snd (fst (shape3 w2)) in
  let n0 := length (List.filter is_alloc tr) in
  exists out,
    snd (fused_moe argsort uninit uninit_int silu_and_mul_row autotune schedule
           hidden_states w1 w2 topk_weights topk_ids topk 0 None false tr)
    = inr out /\
    forall i k, 0 <= i < M -> 0 <= k < N2 ->
      get2 out i k
      = sumq (arange 0 topk)
          (fun s =>
             let e := zget (zget topk_ids i []) s 0 in
             if (0 <=? e) && (e <? E)
             then (zget (expert_mlp silu_and_mul_row w1 w2 e (zget hidden_states i []))
                        k 0 * get2 topk_weights i s)%Qc
             else uninit (S (S n0)) i s k).
Proof.
  intros Hargsort Hauto Hsched Hops M E N2' n0.
  destruct (shape3 w1) as [[E' N] K1] eqn:Hs1.
  destruct (shape3 w2) as [[E2 N2] K2] eqn:Hs2.
  destruct (operands_unpack _ _ _ _ _ _ _ _ _ _ _ _ _ Hs1 Hs2 Hops)
    as (Htopk & Hh & Hw1 & Hw2 & HW & Hi1 & Hi2 & Hnd & Hact).
  assert (E' = E) as -> by (destruct Hw1 as [Hsz _]; done).
  simpl in N2'. unfold N2'. clear N2'.
  assert (0 <= E) as HE by (unfold E, size0; lia).
  destruct (fused_moe_run argsort uninit uninit_int silu_and_mul_row autotune schedule
              Hargsort hidden_states w1 w2 topk_weights topk_ids topk 0 None false
              E N K1 E2 N2 K2 Hs1 Hs2 tr Htopk HE)
    as (es & ee & c1 & c2 & Hseg & Hc1 & Hc2 & _ & Hun & Hrun).
  simpl in Hrun. rewrite Hrun. simpl. eexists. split; [reflexivity |].
  destruct (Hun eq_refl) as [_ Hu2]. fold n0 in Hu2. fold M in Hu2, Hseg, Hc1, Hc2.
  assert (size0 (concat topk_ids) = M * topk) as Hkeys
    by (by rewrite (size0_concat_rect topk), Hi1).
  rewrite Hkeys in Hseg.
  intros i k Hi Hk.
  rewrite sum_dim1_cell; [| apply rect_apply_stores; by apply rect_flatten | done..].
  apply sumq_ext. intros s Hs. apply elem_of_arange in Hs.
  assert (0 <= M) as HM by lia.
  destruct (lookup_lt_is_Some_2 hidden_states (Z.to_nat i)) as [x Hx];
    [unfold M, size0 in *; lia |].
  destruct (lookup_lt_is_Some_2 topk_weights (Z.to_nat i)) as [ws Hws];
    [destruct HW as [HW1 _]; unfold M, size0 in *; lia |].
  destruct (lookup_lt_is_Some_2 topk_ids (Z.to_nat i)) as [ids_i Hids];
    [unfold M, size0 in *; lia |].
  assert (size0 ws = topk) as Hlw.
  { destruct HW as [_ HW2]. rewrite Forall_lookup in HW2. by apply (HW2 (Z.to_nat i)). }
  assert (size0 ids_i = topk) as Hli.
  { rewrite Forall_lookup in Hi2. by apply (Hi2 (Z.to_nat i)). }
  destruct (lookup_lt_is_Some_2 ws (Z.to_nat s)) as [w Hw]; [unfold size0 in *; lia |].
  destruct (lookup_lt_is_Some_2 ids_i (Z.to_nat s)) as [e He]; [unfold size0 in *; lia |].
  assert (zget hidden_states i [] = x) as ->.
  { rewrite <- (Z2Nat.id i) by lia. by apply zget_lookup. }
  assert (zget (zget topk_ids i []) s 0 = e) as ->.
  { rewrite <- (Z2Nat.id i) at 1 by lia. rewrite (zget_lookup _ _ _ _ Hids).
    rewrite <- (Z2Nat.id s) by lia. by apply zget_lookup. }
  assert (get2 topk_weights i s = w) as ->.
  { unfold get2. rewrite <- (Z2Nat.id i) at 1 by lia. rewrite (zget_lookup _ _ _ _ Hws).
    rewrite <- (Z2Nat.id s) by lia. by apply zget_lookup. }
  cbv zeta.
  rewrite <- (Z2Nat.id i) at 1 by lia. rewrite <- (Z2Nat.id s) at 1 by lia.
  destruct (Z.leb_spec 0 e) as [Hlo | Hlo];
    [destruct (Z.ltb_spec e E) as [Hhi | Hhi] |]; simpl.
  - unfold get2.
    rewrite (shard_C2_slot_resident argsort silu_and_mul_row schedule Hargsort Hsched
               hidden_states w1 w2 topk_weights topk_ids topk 0 E E N K1 E2 N2 K2
               Hs1 Hs2 Htopk Hw1 Hw2 HW Hi1 Hi2 Hnd ltac:(lia) ltac:(lia)
               _ _ (autotune_config_ok _ _ _ _ Hauto) (autotune_config_ok _ _ _ _ Hauto)
               es ee c1 c2 Hseg Hc1 Hc2 (Z.to_nat i) (Z.to_nat s) x ws ids_i w e
               Hx Hws Hids Hw He ltac:(lia)).
    replace (e - 0) with e by lia.
    apply (zget_map_in_range (fun v => (v * w)%Qc)).
    unfold size0. rewrite length_expert_mlp.
    destruct Hw2 as [Hsz2 Hall].
    pose proof (zget_in_range (rect N2 K2) w2 e [] Hall ltac:(lia)) as [Hn _].
    unfold size0 in Hn. lia.
  - rewrite (shard_C2_slot_absent argsort silu_and_mul_row schedule Hargsort Hsched
               hidden_states w1 w2 topk_weights topk_ids topk 0 E E E2 N2 K2
               Hs2 Htopk Hw2 Hi1 Hi2
               _ _ (autotune_config_ok _ _ _ _ Hauto)
               es ee c1 c2 Hseg (Z.to_nat i) (Z.to_nat s) x ids_i e k
               Hx Hids He ltac:(lia)).
    rewrite !Z2Nat.id by lia. unfold get2, flatten.
    destruct Hc2 as [Hm2 Hall2].
    rewrite (zget_concat topk); [by apply Hu2 | | lia | done].
    eapply List.Forall_impl; [| exact Hall2]. intros T [HT _]. done.
  - rewrite (shard_C2_slot_absent argsort silu_and_mul_row schedule Hargsort Hsched
               hidden_states w1 w2 topk_weights topk_ids topk 0 E E E2 N2 K2
               Hs2 Htopk Hw2 Hi1 Hi2
               _ _ (autotune_config_ok _ _ _ _ Hauto)
               es ee c1 c2 Hseg (Z.to_nat i) (Z.to_nat s) x ids_i e k
               Hx Hids He ltac:(lia)).
    rewrite !Z2Nat.id by lia. unfold get2, flatten.
    destruct Hc2 as [Hm2 Hall2].
    rewrite (zget_concat topk); [by apply Hu2 | | lia | done].
    eapply List.Forall_impl; [| exact Hall2]. intros T [HT _]. done.
Qed.

(** X14. For [1 <= num_tokens <= 2^64] the launcher tiles
    [M_NP2 = 2 ^ max(6, ceil(log2 num_tokens))] rows: the least power of two
    that is at least 64 and at least [num_tokens], and less than twice
    [num_tokens] from 64 tokens on. *)
Theorem launcher_row_range
    (autotune : Z -> Z -> Z -> Config) (schedule : list store -> list store)
    (A : tensor2) (B : tensor3) (C : tensor2) (sorted_idx exp_start exp_end : list Z)
    (weights : tensor2) (enable_weights : bool) (top_k num_tokens expert_offset : Z)
    (reindex_a reindex_c : bool) (tr : list event) :
  1 <= num_tokens <= 2 ^ 64 ->
  let M_NP2 := 2 ^ Z.max 6 (Z.log2_up num_tokens) in
  let cfg := autotune (snd (fst (shape3 B))) (snd (shape3 B)) M_NP2 in
  fused_moe_kernel_launcher autotune schedule A B C sorted_idx exp_start exp_end weights
    enable_weights top_k (Some num_tokens) expert_offset reindex_a reindex_c tr
  = (tr ++ [EvFusedMoe cfg enable_weights top_k num_tokens expert_offset
              reindex_a reindex_c],
     inr (apply_stores
            (schedule (launch_stores A B sorted_idx exp_start exp_end weights cfg M_NP2
                         enable_weights top_k expert_offset reindex_a reindex_c)) C)) /\
  num_tokens <= M_NP2 /\
  (64 <= num_tokens -> M_NP2 < 2 * num_tokens) /\
  (forall k, 6 <= k -> num_tokens <= 2 ^ k -> M_NP2 <= 2 ^ k).
Proof.
  intros Hn M_NP2 cfg.
  assert (Z.max 64 (next_power_of_2 num_tokens) = M_NP2) as Hnp2.
  { rewrite next_power_of_2_pow by done. unfold M_NP2.
    pose proof (Z.log2_up_nonneg num_tokens) as Hl.
    change 64 with (2 ^ 6).
    destruct (Z.max_spec 6 (Z.log2_up num_tokens)) as [[Hlt ->] | [Hle ->]].
    - apply Z.max_r. apply Z.pow_le_mono_r; lia.
    - apply Z.max_l. apply Z.pow_le_mono_r; lia. }
  pose proof (Z.log2_up_nonneg num_tokens) as Hl.
  assert (num_tokens <= 2 ^ Z.log2_up num_tokens) as Hup.
  { destruct (Z.eq_dec num_tokens 1) as [-> | Hne]; [done |].
    apply (Z.log2_up_spec num_tokens). lia. }
  split; [| split; [| split]].
  - rewrite launcher_run. cbv zeta. by rewrite Hnp2.
  - unfold M_NP2.
    pose proof (Z.pow_le_mono_r 2 (Z.log2_up num_tokens) (Z.max 6 (Z.log2_up num_tokens))
                  ltac:(lia) ltac:(lia)). lia.
  - intros H64. unfold M_NP2.
    assert (6 <= Z.log2_up num_tokens) as H6.
    { change 6 with (Z.log2_up 64). by apply Z.log2_up_le_mono. }
    rewrite Z.max_r by lia.
    pose proof (Z.log2_up_spec num_tokens ltac:(lia)) as [Hlow _].
    replace (Z.log2_up num_tokens) with (Z.succ (Z.pred (Z.log2_up num_tokens))) by lia.
    rewrite Z.pow_succ_r by lia. lia.
  - intros k Hk Hle. unfold M_NP2. apply Z.pow_le_mono_r; [lia |].
    apply Z.max_lub; [done |]. apply Z.log2_up_le_pow2; lia.
Qed.

Lemma cube_unflatten (m k n : Z) (C : tensor2) :
  0 <= m -> 0 <= k -> rect (m * k) n C -> cube m k n (unflatten m k C).
Proof.
  intros Hm Hk [HL Hrows]. split; [by apply size0_unflatten |].
  unfold unflatten. apply Forall_fmap, List.Forall_forall. intros t Ht.
  apply in_seq in Ht. simpl. split.
  - unfold size0 in *. rewrite length_take, length_drop. nia.
  - by apply Forall_take, Forall_drop.
Qed.

(** X15. [flatten(0, -2)] and [unflatten(0, (m, k))], which [fused_moe]
    wraps around the activation, undo each other on tensors of the shapes
    involved, and each yields the shape the other expects. *)
Theorem flatten_unflatten_round_trip (m k n : Z) (T : tensor3) (C : tensor2) :
  0 <= m -> 0 <= k -> cube m k n T -> rect (m * k) n C ->
  unflatten m k (flatten T) = T /\ rect (m * k) n (flatten T) /\
  flatten (unflatten m k C) = C /\ cube m k n (unflatten m k C).
Proof.
  intros Hm Hk HT HC. split; [by apply (unflatten_flatten m k n) |].
  split; [by apply rect_flatten |].
  split; [apply flatten_unflatten; [done | done | by destruct HC] |].
  by apply cube_unflatten.
Qed.
(** * The further theorems at concrete operands *)

Lemma ex_shard_call :
  valid_shard_call gate_mul_row ex_hidden ex_w1_hi ex_w2_hi ex_weights ex_ids 2 1 3.
Proof.
  unfold valid_shard_call, operands_ok.
  change (shape3 ex_w1_hi) with (2, 4, 8). change (shape3 ex_w2_hi) with (2, 8, 2).
  change (size0 ex_hidden) with 4. change (size0 ex_w1_hi) with 2. unfold rect, cube.
  repeat split; try lia; try exact gate_mul_row_width; compute_done.
Qed.

Lemma ex_split_valid_call :
  valid_call gate_mul_row ex_hidden (ex_w1_lo ++ ex_w1_hi) (ex_w2_lo ++ ex_w2_hi)
    ex_weights ex_ids 2.
Proof.
  unfold ex_w1_lo, ex_w1_hi, ex_w2_lo, ex_w2_hi. rewrite !take_drop. exact ex_valid_call.
Qed.

Lemma ex_stray_operands :
  operands_ok gate_mul_row ex_hidden ex_w1 ex_w2 ex_weights ex_stray_ids 2.
Proof.
  unfold operands_ok.
  change (shape3 ex_w1) with (3, 4, 8). change (shape3 ex_w2) with (3, 8, 2).
  change (size0 ex_hidden) with 4. unfold rect, cube.
  repeat split; try lia; try exact gate_mul_row_width; compute_done.
Qed.


Lemma tile_coords_bijection_witness :
  (0 < GROUP_SIZE_M grouped_config /\ 0 < BLOCK_SIZE_M grouped_config /\ 0 < 512) /\
  let N := 300 in
  let cfg := grouped_config in
  let M_NP2 := 512 in
  let npm := cdiv M_NP2 (BLOCK_SIZE_M cfg) in
  let npn := cdiv N (BLOCK_SIZE_N cfg) in
  (forall pid, 0 <= pid < npm * npn ->
     0 <= fst (tile_coords N cfg M_NP2 pid) < npm /\
     0 <= snd (tile_coords N cfg M_NP2 pid) < npn) /\
  (forall pid pid', 0 <= pid < npm * npn -> 0 <= pid' < npm * npn ->
     tile_coords N cfg M_NP2 pid = tile_coords N cfg M_NP2 pid' -> pid = pid') /\
  (forall pm pn, 0 <= pm < npm -> 0 <= pn < npn ->
     exists pid, 0 <= pid < npm * npn /\ tile_coords N cfg M_NP2 pid = (pm, pn)).
Proof.
  split; [repeat split; reflexivity |].
  exact (tile_coords_bijection 300 grouped_config 512 eq_refl eq_refl eq_refl).
Defined.

Lemma group_size_same_stores_witness :
  let cfg := first_config 0 0 0 in
  let cfg' := grouped_config in
  let SI := [6; 3; 0; 7; 5; 2; 4; 1] in
  let es := [0; 3; 6] in
  let ee := [3; 6; 8] in
  (0 < GROUP_SIZE_M cfg /\ 0 < GROUP_SIZE_M cfg' /\ 0 < BLOCK_SIZE_M cfg /\ 0 < 64 /\
   BLOCK_SIZE_M cfg' = BLOCK_SIZE_M cfg /\ BLOCK_SIZE_N cfg' = BLOCK_SIZE_N cfg /\
   BLOCK_SIZE_K cfg' = BLOCK_SIZE_K cfg) /\
  forall s : store,
    s ∈ launch_stores ex_hidden ex_w1 SI es ee ex_weights cfg 64 false 2 0 true false
    <-> s ∈ launch_stores ex_hidden ex_w1 SI es ee ex_weights cfg' 64 false 2 0 true false.
Proof.
  intros cfg cfg' SI es ee. split; [repeat split; reflexivity |].
  exact (group_size_same_stores ex_hidden ex_w1 SI es ee ex_weights cfg cfg' 64 false 2 0
           true false eq_refl eq_refl eq_refl eq_refl eq_refl eq_refl eq_refl).
Defined.

Lemma k_loop_closed_form_witness :
  let cfg := grouped_config in
  let offs_am := fun i : Z => i + 1 in
  let mask_sid := fun i : Z => i <? 2 in
  let offs_bn := fun j : Z => j in
  (0 < BLOCK_SIZE_K cfg /\ 0 <= 8) /\
  fst (foldl (k_step ex_hidden ex_w1 8 cfg offs_am mask_sid offs_bn 1) (fun _ _ => 0%Qc, 0)
             (arange 0 (cdiv 8 (BLOCK_SIZE_K cfg)))) 1 2
  = if mask_sid 1
    then sumq (arange 0 8)
              (fun x => (get2 ex_hidden (offs_am 1%Z) x * get3 ex_w1 1%Z (offs_bn 2%Z) x)%Qc)
    else 0%Qc.
Proof.
  intros cfg offs_am mask_sid offs_bn.
  assert (0 <= 8) as HK by lia.
  split; [split; [reflexivity | exact HK] |].
  exact (k_loop_closed_form ex_hidden ex_w1 8 cfg offs_am mask_sid offs_bn 1 1 2
           eq_refl HK).
Defined.

Lemma start_end_block_independent_witness :
  let TopkIdx := concat ex_ids in
  let SortedIdx := [6; 3; 0; 7; 5; 2; 4; 1] in
  (0 <= 8 /\ 0 < 128 /\ 0 < 3 /\ 3 <> 1) /\
  let g := sorted_key TopkIdx SortedIdx in
  let se := _start_end_kernel TopkIdx SortedIdx 8 3 128 1 in
  se = _start_end_kernel TopkIdx SortedIdx 8 3 3 1 /\
  snd se - fst se = occ g 1 8 /\
  (occ g 1 8 = 0 -> se = (0, 0)) /\
  (0 < occ g 1 8 ->
   0 <= fst se < 8 /\ g (fst se) = 1 /\ forall p, 0 <= p < fst se -> g p <> 1).
Proof.
  intros TopkIdx SortedIdx.
  assert (0 <= 8) as Hlen by lia. assert (3 <> 1) as Hne by lia.
  split; [split; [exact Hlen | split; [reflexivity | split; [reflexivity | exact Hne]]] |].
  exact (start_end_block_independent TopkIdx SortedIdx 8 3 128 3 1 Hlen eq_refl eq_refl Hne).
Defined.

Lemma start_end_vs_docstring_witness :
  let argsort := stable_argsort in
  let uninit_int := junk_uninit_int in
  let topk_ids := [[0; 2]; [2; 0]] in
  let E := 3 in
  let tr := @nil event in
  (argsort_spec argsort /\ 0 <= E /\ Forall (Forall (fun id => 0 <= id < E)) topk_ids) /\
  let keys := concat topk_ids in
  let ref_start := fst (docstring_start_end keys E) in
  let ref_end := snd (docstring_start_end keys E) in
  exists sorted_idx exp_start exp_end tr',
    _get_sorted_idx argsort uninit_int topk_ids E tr
    = (tr', inr (sorted_idx, exp_start, exp_end)) /\
    forall e, 0 <= e < E ->
      zget exp_end e 0 - zget exp_start e 0 = zget ref_end e 0 - zget ref_start e 0 /\
      (0 < count_id e keys ->
       zget exp_start e 0 = zget ref_start e 0 /\ zget exp_end e 0 = zget ref_end e 0) /\
      (count_id e keys = 0 ->
       zget exp_start e 0 = 0 /\ zget exp_end e 0 = 0 /\
       zget ref_start e 0 = count_lt e keys /\ zget ref_end e 0 = count_lt e keys).
Proof.
  intros argsort uninit_int topk_ids E tr.
  assert (0 <= E) as HE by (unfold E; lia).
  assert (Forall (Forall (fun id => 0 <= id < E)) topk_ids) as Hids by compute_done.
  split; [split; [exact stable_argsort_spec | split; [exact HE | exact Hids]] |].
  exact (start_end_vs_docstring argsort uninit_int topk_ids E tr stable_argsort_spec HE Hids).
Defined.

Lemma launch_stores_agree_witness :
  let sorted_idx := [6; 3; 0; 7; 5; 2; 4; 1] in
  let exp_start := [0; 3; 6] in
  let exp_end := [3; 6; 8] in
  let cfg := second_config 0 0 0 in
  (argsort_spec reversing_argsort /\ cfg ∈ get_cuda_autotune_config /\ 0 < 64 /\
   _get_sorted_idx reversing_argsort junk_uninit_int ex_ids 3 []
   = ([EvAlloc [2; 3] false; EvStartEnd 3], inr (sorted_idx, exp_start, exp_end))) /\
  forall r c v v',
    (r, c, v) ∈ launch_stores ex_hidden ex_w1 sorted_idx exp_start exp_end ex_weights cfg 64
                  true 2 0 true true ->
    (r, c, v') ∈ launch_stores ex_hidden ex_w1 sorted_idx exp_start exp_end ex_weights cfg 64
                   true 2 0 true true ->
    v = v'.
Proof.
  intros sorted_idx exp_start exp_end cfg.
  assert (_get_sorted_idx reversing_argsort junk_uninit_int ex_ids 3 []
          = ([EvAlloc [2; 3] false; EvStartEnd 3], inr (sorted_idx, exp_start, exp_end)))
    as Hrun by (vm_compute; reflexivity).
  split.
  - split; [exact reversing_argsort_spec |]. split; [exact (second_config_spec 0 0 0) |].
    split; [reflexivity | exact Hrun].
  - exact (launch_stores_agree reversing_argsort junk_uninit_int ex_ids 3 [] _
             sorted_idx exp_start exp_end ex_hidden ex_w1 ex_weights cfg 64 true 2 0 true true
             reversing_argsort_spec (second_config_spec 0 0 0) eq_refl Hrun).
Defined.

Lemma fused_moe_schedule_independent_witness :
  (argsort_spec stable_argsort /\ autotune_spec first_config /\
   schedule_spec in_order /\ schedule_spec reverse) /\
  fused_moe stable_argsort junk_uninit junk_uninit_int gate_mul_row first_config in_order
    ex_hidden ex_w1 ex_w2 ex_weights ex_ids 2 0 None false []
  = fused_moe stable_argsort junk_uninit junk_uninit_int gate_mul_row first_config reverse
      ex_hidden ex_w1 ex_w2 ex_weights ex_ids 2 0 None false [].
Proof.
  split.
  - split; [exact stable_argsort_spec |]. split; [exact first_config_spec |].
    split; [exact in_order_spec | exact reverse_spec].
  - apply fused_moe_schedule_independent;
      [exact stable_argsort_spec | exact first_config_spec | exact in_order_spec
       | exact reverse_spec].
Defined.

Lemma fused_moe_renormalized_witness :
  (argsort_spec stable_argsort /\ autotune_spec second_config /\ schedule_spec reverse /\
   valid_call gate_mul_row ex_hidden ex_w1 ex_w2 ex_weights ex_ids 2 /\
   Forall (fun row => vsum row <> 0%Qc) ex_weights) /\
  snd (fused_moe stable_argsort junk_uninit junk_uninit_int gate_mul_row second_config reverse
         ex_hidden ex_w1 ex_w2 ex_weights ex_ids 2 0 None true [])
  = inr (naive_moe gate_mul_row ex_hidden ex_w1 ex_w2
           (map (fun row => map (fun w => (w / vsum row)%Qc) row) ex_weights) ex_ids).
Proof.
  split.
  - split; [exact stable_argsort_spec |]. split; [exact second_config_spec |].
    split; [exact reverse_spec |]. split; [exact ex_valid_call | exact ex_weights_nonzero].
  - apply fused_moe_renormalized;
      [exact stable_argsort_spec | exact second_config_spec | exact reverse_spec
       | exact ex_valid_call | exact ex_weights_nonzero].
Defined.


Lemma fused_moe_output_shape_witness :
  argsort_spec reversing_argsort /\
  match snd (fused_moe reversing_argsort junk_uninit junk_uninit_int gate_mul_row
               first_config in_order wide_hidden narrow_w1 narrow_w2 [[qz 1]] [[0]]
               1 0 (Some 4) true []) with
  | inr out => rect (size0 wide_hidden) (snd (fst (shape3 narrow_w2))) out
  | inl _ => True
  end.
Proof.
  split; [exact reversing_argsort_spec |].
  exact (fused_moe_output_shape reversing_argsort junk_uninit junk_uninit_int gate_mul_row
           first_config in_order wide_hidden narrow_w1 narrow_w2 [[qz 1]] [[0]]
           1 0 (Some 4) true [] reversing_argsort_spec).
Defined.

Lemma fused_moe_sharded_witness :
  (argsort_spec stable_argsort /\ autotune_spec first_config /\ schedule_spec reverse /\
   valid_shard_call gate_mul_row ex_hidden ex_w1_hi ex_w2_hi ex_weights ex_ids 2 1 3) /\
  snd (fused_moe stable_argsort junk_uninit junk_uninit_int gate_mul_row first_config reverse
         ex_hidden ex_w1_hi ex_w2_hi ex_weights ex_ids 2 1 (Some 3) false [])
  = inr (shard_moe gate_mul_row ex_hidden ex_w1_hi ex_w2_hi 1 ex_weights ex_ids).
Proof.
  split.
  - split; [exact stable_argsort_spec |]. split; [exact first_config_spec |].
    split; [exact reverse_spec | exact ex_shard_call].
  - apply fused_moe_sharded;
      [exact stable_argsort_spec | exact first_config_spec | exact reverse_spec
       | exact ex_shard_call].
Defined.

Lemma sharding_consistency_witness :
  (argsort_spec stable_argsort /\ autotune_spec first_config /\ schedule_spec reverse /\
   valid_call gate_mul_row ex_hidden (ex_w1_lo ++ ex_w1_hi) (ex_w2_lo ++ ex_w2_hi)
     ex_weights ex_ids 2 /\
   0 < size0 ex_w1_lo /\ 0 < size0 ex_w1_hi /\ size0 ex_w2_lo = size0 ex_w1_lo) /\
  let E := size0 ex_w1_lo + size0 ex_w1_hi in
  let run := fused_moe stable_argsort junk_uninit junk_uninit_int gate_mul_row first_config
               reverse ex_hidden in
  exists full part_a part_b,
    snd (run (ex_w1_lo ++ ex_w1_hi) (ex_w2_lo ++ ex_w2_hi) ex_weights ex_ids 2 0 None false [])
    = inr full /\
    snd (run ex_w1_lo ex_w2_lo ex_weights ex_ids 2 0 (Some E) false []) = inr part_a /\
    snd (run ex_w1_hi ex_w2_hi ex_weights ex_ids 2 (size0 ex_w1_lo) (Some E) false [])
    = inr part_b /\
    full = zip_with vadd part_a part_b.
Proof.
  split.
  - split; [exact stable_argsort_spec |]. split; [exact first_config_spec |].
    split; [exact reverse_spec |]. split; [exact ex_split_valid_call |].
    split; [reflexivity |]. split; reflexivity.
  - exact (sharding_consistency stable_argsort junk_uninit junk_uninit_int gate_mul_row
             first_config reverse ex_hidden ex_w1_lo ex_w1_hi ex_w2_lo ex_w2_hi ex_weights
             ex_ids 2 [] [] [] stable_argsort_spec first_config_spec reverse_spec
             ex_split_valid_call eq_refl eq_refl eq_refl).
Defined.

Lemma unvalidated_ids_read_uninit_witness :
  (argsort_spec stable_argsort /\ autotune_spec first_config /\ schedule_spec reverse /\
   operands_ok gate_mul_row ex_hidden ex_w1 ex_w2 ex_weights ex_stray_ids 2) /\
  let M := size0 ex_hidden in
  let E := size0 ex_w1 in
  let N2 := snd (fst (shape3 ex_w2)) in
  let n0 := length (List.filter is_alloc (@nil event)) in
  exists out,
    snd (fused_moe stable_argsort junk_uninit junk_uninit_int gate_mul_row first_config
           reverse ex_hidden ex_w1 ex_w2 ex_weights ex_stray_ids 2 0 None false [])
    = inr out /\
    forall i k, 0 <= i < M -> 0 <= k < N2 ->
      get2 out i k
      = sumq (arange 0 2)
          (fun s =>
             let e := zget (zget ex_stray_ids i []) s 0 in
             if (0 <=? e) && (e <? E)
             then (zget (expert_mlp gate_mul_row ex_w1 ex_w2 e (zget ex_hidden i []))
                        k 0 * get2 ex_weights i s)%Qc
             else junk_uninit (S (S n0)) i s k).
Proof.
  split.
  - split; [exact stable_argsort_spec |]. split; [exact first_config_spec |].
    split; [exact reverse_spec | exact ex_stray_operands].
  - exact (unvalidated_ids_read_uninit stable_argsort junk_uninit junk_uninit_int
             gate_mul_row first_config reverse ex_hidden ex_w1 ex_w2 ex_weights
             ex_stray_ids 2 [] stable_argsort_spec first_config_spec reverse_spec
             ex_stray_operands).
Defined.

Lemma launcher_row_range_witness :
  let num_tokens := 100 in
  1 <= num_tokens <= 2 ^ 64 /\
  let M_NP2 := 2 ^ Z.max 6 (Z.log2_up num_tokens) in
  let cfg := first_config (snd (fst (shape3 ex_w1))) (snd (shape3 ex_w1)) M_NP2 in
  fused_moe_kernel_launcher first_config reverse ex_hidden ex_w1 [] [] [] [] ex_weights
    false 2 (Some num_tokens) 0 true false []
  = ([] ++ [EvFusedMoe cfg false 2 num_tokens 0 true false],
     inr (apply_stores
            (reverse (launch_stores ex_hidden ex_w1 [] [] [] ex_weights cfg M_NP2
                        false 2 0 true false)) [])) /\
  num_tokens <= M_NP2 /\
  (64 <= num_tokens -> M_NP2 < 2 * num_tokens) /\
  (forall k, 6 <= k -> num_tokens <= 2 ^ k -> M_NP2 <= 2 ^ k).
Proof.
  intros num_tokens.
  assert (1 <= num_tokens <= 2 ^ 64) as Hn by (unfold num_tokens; lia).
  split; [exact Hn |].
  exact (launcher_row_range first_config reverse ex_hidden ex_w1 [] [] [] [] ex_weights
           false 2 num_tokens 0 true false [] Hn).
Defined.

Lemma flatten_unflatten_round_trip_witness :
  let T := ex_w1 in
  let C := concat [ex_hidden; ex_hidden; ex_hidden] in
  (0 <= 3 /\ 0 <= 4 /\ cube 3 4 8 T /\ rect (3 * 4) 8 C) /\
  unflatten 3 4 (flatten T) = T /\ rect (3 * 4) 8 (flatten T) /\
  flatten (unflatten 3 4 C) = C /\ cube 3 4 8 (unflatten 3 4 C).
Proof.
  intros T C.
  assert (0 <= 3) as H3 by lia. assert (0 <= 4) as H4 by lia.
  assert (cube 3 4 8 T) as HT by (unfold cube, rect; split; [reflexivity | compute_done]).
  assert (rect (3 * 4) 8 C) as HC by (unfold rect; split; [reflexivity | compute_done]).
  split; [split; [exact H3 | split; [exact H4 | split; [exact HT | exact HC]]] |].
  exact (flatten_unflatten_round_trip 3 4 8 T C H3 H4 HT HC).
Defined.
